(** * The statistical kernel of pcigale

    A shallow embedding of the numerical kernel of [pcigale/stats/psum.py]
    ([adjust_errors], [compute_chi2], [w_mean_sigma], [bin_evenly]) and of
    [pcigale/analysis_modules/pdf_analysis/utils.py] ([gen_pdf],
    [save_pdf]), together with the properties their specification states.

    Conventions of the embedding.
    - A finite [float64] is idealised as a real number: arithmetic is exact,
      there is no rounding, overflow or underflow and no signed zero.  The
      non-finite values numpy produces instead of raising (a division by
      zero, the square root of a negative number) are kept: see [npfloat].
    - The arrays a caller passes in hold finite values ([list R]).
    - A Python exception is a value of [exn]; a computation that may raise
      has type [result A]. *)

From Stdlib Require Import String.
From Stdlib Require Import Reals Lra Lia List ZArith Bool.
From Stdlib Require Import Permutation Sorted.
Import ListNotations.

Local Open Scope R_scope.

(** ** Python and numpy run-time model *)

Module Py.

(** Exception classes the kernel meets, each with its message. *)
Inductive exn : Type :=
| ValueError (msg : string)
| TypeError (msg : string)
| IndexError (msg : string)
| ZeroDivisionError (msg : string)
| LinAlgError (msg : string)
| OtherError (cls msg : string).

Inductive result (A : Type) : Type :=
| Return (a : A)
| Raise (e : exn).

Arguments Return {A} a.
Arguments Raise {A} e.

Definition bind {A B : Type} (m : result A) (k : A -> result B) : result B :=
  match m with
  | Return a => k a
  | Raise e => Raise e
  end.

Definition returns {A : Type} (m : result A) : Prop := exists a, m = Return a.

Definition raises {A : Type} (m : result A) : Prop := exists e, m = Raise e.

(** Boolean comparisons of reals, from the decidable order of [R]. *)
Definition Rltb (x y : R) : bool := if Rlt_dec x y then true else false.
Definition Reqb (x y : R) : bool := if Req_dec_T x y then true else false.

(** A [numpy.float64]: a finite value or one of the three IEEE specials. *)
Inductive npfloat : Type :=
| Fin (r : R)
| PInf
| NInf
| NaN.

Definition signed_inf (positive : bool) : npfloat :=
  if positive then PInf else NInf.

Definition np_neg (x : npfloat) : npfloat :=
  match x with
  | Fin a => Fin (- a)
  | PInf => NInf
  | NInf => PInf
  | NaN => NaN
  end.

Definition np_add (x y : npfloat) : npfloat :=
  match x, y with
  | Fin a, Fin b => Fin (a + b)
  | NaN, _ | _, NaN => NaN
  | PInf, NInf | NInf, PInf => NaN
  | PInf, _ | _, PInf => PInf
  | NInf, _ | _, NInf => NInf
  end.

Definition np_sub (x y : npfloat) : npfloat :=
  match x, y with
  | Fin a, Fin b => Fin (a - b)
  | NaN, _ | _, NaN => NaN
  | PInf, PInf | NInf, NInf => NaN
  | PInf, _ | _, NInf => PInf
  | NInf, _ | _, PInf => NInf
  end.

Definition np_mul (x y : npfloat) : npfloat :=
  match x, y with
  | Fin a, Fin b => Fin (a * b)
  | NaN, _ | _, NaN => NaN
  | Fin a, PInf | PInf, Fin a =>
      if Reqb a 0 then NaN else signed_inf (Rltb 0 a)
  | Fin a, NInf | NInf, Fin a =>
      if Reqb a 0 then NaN else signed_inf (Rltb a 0)
  | PInf, PInf | NInf, NInf => PInf
  | PInf, NInf | NInf, PInf => NInf
  end.

(** numpy division never raises: [x / 0] is an infinity, [0 / 0] is NaN (a
    RuntimeWarning is printed).  A zero divisor counts as [+0]. *)
Definition np_div (x y : npfloat) : npfloat :=
  match x, y with
  | Fin a, Fin b =>
      if Reqb b 0
      then if Reqb a 0 then NaN else signed_inf (Rltb 0 a)
      else Fin (a / b)
  | NaN, _ | _, NaN => NaN
  | Fin _, PInf | Fin _, NInf => Fin 0
  | PInf, Fin b => signed_inf (negb (Rltb b 0))
  | NInf, Fin b => signed_inf (Rltb b 0)
  | PInf, PInf | PInf, NInf | NInf, PInf | NInf, NInf => NaN
  end.

Definition np_square (x : npfloat) : npfloat := np_mul x x.

(** [numpy.exp], over the reals: the result of a finite argument is the
    exact exponential, which is above 0; the float64 result underflows to
    0.0 for an argument below about -745, so what is stated of a result of
    [np_exp] is stated for a result that may be 0. *)
Definition np_exp (x : npfloat) : npfloat :=
  match x with
  | Fin a => Fin (exp a)
  | PInf => PInf
  | NInf => Fin 0
  | NaN => NaN
  end.

(** [numpy.sqrt] of a negative number is NaN (with a RuntimeWarning). *)
Definition np_sqrt (x : npfloat) : npfloat :=
  match x with
  | Fin a => if Rltb a 0 then NaN else Fin (sqrt a)
  | PInf => PInf
  | NInf | NaN => NaN
  end.

(** [x < y]; every comparison with NaN is false. *)
Definition np_ltb (x y : npfloat) : bool :=
  match x, y with
  | Fin a, Fin b => Rltb a b
  | NaN, _ | _, NaN => false
  | NInf, NInf | PInf, _ | Fin _, NInf => false
  | NInf, _ | Fin _, PInf => true
  end.

Definition np_gtb (x y : npfloat) : bool := np_ltb y x.

(** A one-dimensional [numpy.ndarray] of [float64]. *)
Definition ndarray : Type := list npfloat.

(** [numpy.copy] of a sequence of finite values. *)
Definition np_copy (xs : list R) : ndarray := map Fin xs.

(** Element-wise arithmetic and comparison with a scalar or an array. *)
Definition arr_mul (a b : ndarray) : ndarray :=
  map (fun p => np_mul (fst p) (snd p)) (combine a b).
Definition arr_sub (a b : ndarray) : ndarray :=
  map (fun p => np_sub (fst p) (snd p)) (combine a b).
Definition arr_div (a b : ndarray) : ndarray :=
  map (fun p => np_div (fst p) (snd p)) (combine a b).
Definition arr_add (a b : ndarray) : ndarray :=
  map (fun p => np_add (fst p) (snd p)) (combine a b).
Definition scalar_mul (c : npfloat) (a : ndarray) : ndarray :=
  map (np_mul c) a.
Definition arr_mul_scalar (a : ndarray) (c : npfloat) : ndarray :=
  map (fun x => np_mul x c) a.
Definition arr_sub_scalar (a : ndarray) (c : npfloat) : ndarray :=
  map (fun x => np_sub x c) a.
Definition arr_square (a : ndarray) : ndarray := map np_square a.
Definition arr_sqrt (a : ndarray) : ndarray := map np_sqrt a.
Definition arr_gt (a : ndarray) (c : npfloat) : list bool :=
  map (fun x => np_gtb x c) a.
Definition arr_lt (a : ndarray) (c : npfloat) : list bool :=
  map (fun x => np_ltb x c) a.

(** Boolean-mask indexing [a[mask]], mask and array of one length. *)
Definition mask_index {A : Type} (a : list A) (mask : list bool) : list A :=
  map snd (filter fst (combine mask a)).

(** A Python number: an [int], or a float ([float] or [numpy.float64]; the
    floats of the kernel all come out of numpy arrays). *)
Inductive pynum : Type :=
| PyInt (z : Z)
| PyFloat (x : npfloat).

Definition to_float (n : pynum) : npfloat :=
  match n with
  | PyInt z => Fin (IZR z)
  | PyFloat x => x
  end.

Definition py_add (a b : pynum) : pynum :=
  match a, b with
  | PyInt x, PyInt y => PyInt (x + y)
  | _, _ => PyFloat (np_add (to_float a) (to_float b))
  end.

Definition py_neg (a : pynum) : pynum :=
  match a with
  | PyInt x => PyInt (- x)
  | PyFloat x => PyFloat (np_neg x)
  end.

(** True division [a / b]: between two [int]s a zero divisor raises, with a
    numpy float on either side it follows [np_div]. *)
Definition py_truediv (a b : pynum) : result pynum :=
  match a, b with
  | PyInt x, PyInt y =>
      if (y =? 0)%Z then Raise (ZeroDivisionError "division by zero")
      else Return (PyFloat (Fin (IZR x / IZR y)))
  | _, _ => Return (PyFloat (np_div (to_float a) (to_float b)))
  end.

(** The builtin [sum]: a left fold of [+] that starts from the [int] 0. *)
Definition builtin_sum (xs : ndarray) : pynum :=
  fold_left (fun acc x => py_add acc (PyFloat x)) xs (PyInt 0).

(** The builtins [max] and [min] over an iterable: the first item is kept
    until a strictly larger (smaller) one comes; empty iterables raise. *)
Definition builtin_max (xs : ndarray) : result npfloat :=
  match xs with
  | [] => Raise (ValueError "max() arg is an empty sequence")
  | x :: rest => Return (fold_left (fun m y => if np_gtb y m then y else m) rest x)
  end.

Definition builtin_min (xs : ndarray) : result npfloat :=
  match xs with
  | [] => Raise (ValueError "min() arg is an empty sequence")
  | x :: rest => Return (fold_left (fun m y => if np_ltb y m then y else m) rest x)
  end.

(** [min(a, b)] with two arguments: [b] when [b < a], else [a]. *)
Definition builtin_min2 (a b : pynum) : pynum :=
  if np_ltb (to_float b) (to_float a) then b else a.

(** [numpy.sum] and [numpy.dot]: the order in which numpy adds does not
    matter to exact arithmetic; the items are added from the left. *)
Definition np_sum (xs : ndarray) : npfloat := fold_left np_add xs (Fin 0).

Definition np_dot (a b : ndarray) : result npfloat :=
  if (length a =? length b)%nat then Return (np_sum (arr_mul a b))
  else Raise (ValueError "shapes not aligned").

(** [x == y]; false whenever one side is NaN. *)
Definition np_eqb (x y : npfloat) : bool :=
  match x, y with
  | Fin a, Fin b => Reqb a b
  | PInf, PInf | NInf, NInf => true
  | _, _ => false
  end.

(** [numpy.average(a, weights=w)] of one-dimensional arrays, as documented:
    TypeError when the shapes differ, ZeroDivisionError when the weights
    sum to zero, else [sum(a * w) / sum(w)]. *)
Definition np_average (a w : ndarray) : result npfloat :=
  if negb (length a =? length w)%nat
  then Raise (TypeError "Axis must be specified when shapes of a and weights differ.")
  else
    let scl := np_sum w in
    if np_eqb scl (Fin 0)
    then Raise (ZeroDivisionError "Weights sum to zero, can't be normalized")
    else Return (np_div (np_sum (arr_mul a w)) scl).

(** [numpy.linspace(start, stop, num)]: [num] evenly spaced points, both
    ends included. *)
Definition np_linspace (start stop : R) (num : nat) : list R :=
  match num with
  | O => []
  | S O => [start]
  | S div => map (fun i => start + INR i * ((stop - start) / INR div)) (seq 0 num)
  end.

(** [numpy.around]: to the nearest integer, a tie to the even one. *)
Definition np_around (x : R) : Z :=
  let below := Zfloor x in
  let frac := x - IZR below in
  if Rltb frac (1 / 2) then below
  else if Rltb (1 / 2) frac then (below + 1)%Z
  else if Z.even below then below else (below + 1)%Z.

Definition Rleb (x y : R) : bool := if Rle_dec x y then true else false.

(** [numpy.sort]: the values in non-decreasing order. *)
Fixpoint insert_sorted (x : R) (l : list R) : list R :=
  match l with
  | [] => [x]
  | y :: l' => if Rleb x y then x :: l else y :: insert_sorted x l'
  end.

Definition np_sort (l : list R) : list R := fold_right insert_sorted [] l.

(** [a.clip(lo, hi)] is [minimum(hi, maximum(a, lo))]. *)
Definition clip (a lo hi : R) : R := Rmin (Rmax a lo) hi.

(** The quantile of the sorted sample [x] (two items or more) at the
    probability [p], interpolated between two neighbours. *)
Definition quantile_at (x : list R) (alphap betap p : R) : R :=
  let n := length x in
  let m := alphap + p * (1 - alphap - betap) in
  let aleph := INR n * p + m in
  let k := Zfloor (clip aleph 1 (INR n - 1)) in
  let gamma := clip (aleph - IZR k) 0 1 in
  (1 - gamma) * nth (Z.to_nat (k - 1)) x 0 + gamma * nth (Z.to_nat k) x 0.

(** [scipy.stats.mstats.mquantiles(a, prob, alphap, betap)] of a
    one-dimensional sample: a masked array, one quantile per probability,
    all of them masked ([None]) when the sample is empty. *)
Definition mquantiles (a prob : list R) (alphap betap : R) : list (option R) :=
  let x := np_sort a in
  match length x with
  | O => map (fun _ => None) prob
  | S O => map (fun _ => Some (nth 0 x 0)) prob
  | _ => map (fun p => Some (quantile_at x alphap betap p)) prob
  end.

(** The data of a masked array; what lies under a mask is whatever the
    buffer holds, 0 here. *)
Definition ma_data (a : list (option R)) : list R :=
  map (fun item => match item with Some x => x | None => 0 end) a.

Fixpoint nondecreasing (l : list R) : bool :=
  match l with
  | a :: (b :: _) as rest => Rleb a b && nondecreasing rest
  | _ => true
  end.

Fixpoint nonincreasing (l : list R) : bool :=
  match l with
  | a :: (b :: _) as rest => Rleb b a && nonincreasing rest
  | _ => true
  end.

(** [numpy.searchsorted(a, v, side='right')] on a sorted array: the number
    of items that are at most [v]. *)
Definition searchsorted_right (a : list R) (v : R) : nat :=
  length (filter (fun b => Rleb b v) a).

(** [numpy.digitize(x, bins)]: for increasing bins the index [i] with
    [bins[i-1] <= x < bins[i]]; bins that are not monotonic raise. *)
Definition np_digitize (x bins : list R) : result (list Z) :=
  if nondecreasing bins
  then Return (map (fun v => Z.of_nat (searchsorted_right bins v)) x)
  else if nonincreasing bins
  then Return (map (fun v => (Z.of_nat (length bins)
                              - Z.of_nat (searchsorted_right (rev bins) v))%Z) x)
  else Raise (ValueError "bins must be monotonically increasing or decreasing").

(** [x + 1] in float64, for a float [x].  Below 2^53 in magnitude the sum
    is the real one (the rounding of a fractional part left out, as
    everywhere).  From 2^53 on the floats are 2 apart, and [x + 1] lies
    half-way between [x] and [x + 2]: the sum is the one of the two whose
    significand [x / 2] is even.  From 2^54 on the floats are 4 apart or more
    and the sum is [x] again.  [-2^53 + 1] is a float. *)
Definition float_add_one (x : R) : R :=
  if Rltb (Rabs x) (2 ^ 53) then x + 1
  else if Reqb x (- 2 ^ 53) then x + 1
  else if Rltb (Rabs x) (2 ^ 54)
       then if Z.even (Zfloor (x / 2)) then x else x + 2
       else x.

(** [a.min()] and [a.max()] of an array of finite values. *)
Definition arr_min (xs : list R) : result R :=
  match xs with
  | [] => Raise (ValueError "zero-size array to reduction operation minimum which has no identity")
  | x :: rest => Return (fold_left Rmin rest x)
  end.

Definition arr_max (xs : list R) : result R :=
  match xs with
  | [] => Raise (ValueError "zero-size array to reduction operation maximum which has no identity")
  | x :: rest => Return (fold_left Rmax rest x)
  end.

(** In-place assignment through a boolean mask, [a[mask] = vals]: the
    selected positions take the items of [vals] in order. *)
Fixpoint mask_assign {A : Type} (a : list A) (mask : list bool) (vals : list A)
  : list A :=
  match a, mask with
  | x :: a', true :: mask' =>
      match vals with
      | v :: vals' => v :: mask_assign a' mask' vals'
      | [] => x :: mask_assign a' mask' []
      end
  | x :: a', false :: mask' => x :: mask_assign a' mask' vals
  | _, _ => a
  end.

(** *** Arrays as objects

    An array a caller passes is a reference into a heap of arrays; a
    computation that may allocate, write in place or raise has type [M A]. *)
Definition ref : Type := nat.
Definition heap : Type := list ndarray.
Definition M (A : Type) : Type := heap -> result (A * heap).

Definition ret {A : Type} (a : A) : M A := fun h => Return (a, h).

Definition raise {A : Type} (e : exn) : M A := fun _ => Raise e.

Definition bindM {A B : Type} (m : M A) (k : A -> M B) : M B :=
  fun h => match m h with
           | Return (a, h') => k a h'
           | Raise e => Raise e
           end.

Definition read (r : ref) : M ndarray :=
  fun h => match nth_error h r with
           | Some a => Return (a, h)
           | None => Raise (OtherError "ReferenceError" "no such array")
           end.

Definition alloc (a : ndarray) : M ref :=
  fun h => Return (length h, h ++ [a]).

Fixpoint update (h : heap) (r : ref) (a : ndarray) : heap :=
  match h, r with
  | [], _ => []
  | _ :: h', O => a :: h'
  | b :: h', S r' => b :: update h' r' a
  end.

Definition write (r : ref) (a : ndarray) : M unit :=
  fun h => Return (tt, update h r a).

End Py.

Import Py.

Notation "x <- m ;; k" := (bind m (fun x => k))
  (at level 61, m at next level, right associativity).
Notation "'let*' x := m 'in' k" := (bindM m (fun x => k))
  (at level 10, x name, k at level 200).

(** ** pcigale.stats.psum *)

Module Psum.

(** Tolerance threshold under which any flux or error is considered as 0. *)
Definition TOLERANCE : R := 1e-12.

Definition length_mismatch3 : exn :=
  ValueError "The model fluxes, observation fluxes and observation errors arrays must have the same length.".

(** [adjust_errors]: the errors with the systematic deviation added.  The
    arguments are the caller's arrays; the result is a new array. *)
Definition adjust_errors (flux error : ref)
           (default_error systematic_deviation : R) : M ref :=
  let* flux_items := read flux in
  let* error_items := read error in
  if negb (length flux_items =? length error_items)%nat
  then raise (ValueError "The flux and error arrays must have the same length.")
  else
    (* error = np.copy(error) *)
    let* error := alloc error_items in
    (* error[error < TOLERANCE] = (default_error * error[error < TOLERANCE]) *)
    let* items := read error in
    let scaled :=
      scalar_mul (Fin default_error)
                 (mask_index items (arr_lt items (Fin TOLERANCE))) in
    let* target := read error in
    let* _ := write error (mask_assign target (arr_lt target (Fin TOLERANCE)) scaled) in
    (* error = np.sqrt(np.square(error) + np.square(flux * systematic_deviation)) *)
    let* items := read error in
    let* flux_items := read flux in
    alloc (arr_sqrt (arr_add (arr_square items)
                             (arr_square (arr_mul_scalar flux_items
                                                         (Fin systematic_deviation))))).

(** The defaults of the two keyword arguments. *)
Definition default_error_default : R := 0.1.
Definition systematic_deviation_default : R := 0.1.

(** The test of the degenerate case; [or] evaluates its right operand only
    when the left one is false. *)
Definition degenerate (obs_fluxes obs_errors : ndarray) : result bool :=
  mx <- builtin_max obs_fluxes ;;
  if np_ltb mx (Fin TOLERANCE) then Return true
  else
    mn <- builtin_min (mask_index obs_errors (arr_gt obs_fluxes (Fin TOLERANCE))) ;;
    Return (np_ltb mn (Fin TOLERANCE)).

(** [compute_chi2]: the triple (reduced chi2, normalisation factor,
    probability).  The three local arrays are copies and are only rebound,
    never written in place. *)
Definition compute_chi2 (model_fluxes obs_fluxes obs_errors : list R)
  : result (npfloat * npfloat * npfloat) :=
  if negb (length model_fluxes =? length obs_fluxes)%nat
     || negb (length obs_fluxes =? length obs_errors)%nat
  then Raise length_mismatch3
  else
    let model_fluxes := np_copy model_fluxes in
    let obs_fluxes := np_copy obs_fluxes in
    let obs_errors := np_copy obs_errors in
    unfit <- degenerate obs_fluxes obs_errors ;;
    if unfit then Return (Fin 99, Fin 1, Fin 0)
    else
      let keep := arr_gt obs_errors (Fin TOLERANCE) in
      let model_fluxes := mask_index model_fluxes keep in
      let obs_fluxes := mask_index obs_fluxes keep in
      let obs_errors := mask_index obs_errors keep in
      let degrees_of_freedom := (Z.of_nat (length model_fluxes) - 1)%Z in
      if (degrees_of_freedom =? 0)%Z then
        normalisation_factor <-
          py_truediv (builtin_sum obs_fluxes) (builtin_sum model_fluxes) ;;
        Return (Fin 0, to_float normalisation_factor, Fin 1)
      else
        normalisation_factor <-
          py_truediv (builtin_sum (arr_mul obs_fluxes model_fluxes))
                     (builtin_sum (arr_mul model_fluxes model_fluxes)) ;;
        let norm_model_fluxes :=
          scalar_mul (to_float normalisation_factor) model_fluxes in
        let chi2 :=
          builtin_sum (arr_square (arr_div (arr_sub obs_fluxes norm_model_fluxes)
                                           obs_errors)) in
        reduced_chi2 <- py_truediv chi2 (PyInt degrees_of_freedom) ;;
        let reduced_chi2 := builtin_min2 reduced_chi2 (PyInt 99) in
        half <- py_truediv (py_neg chi2) (PyInt 2) ;;
        let probability := np_exp (to_float half) in
        Return (to_float reduced_chi2, to_float normalisation_factor, probability).

(** [w_mean_sigma]: the weighted average and standard deviation. *)
Definition w_mean_sigma (values weights : list R) : result (npfloat * npfloat) :=
  let values := np_copy values in
  let weights := np_copy weights in
  mean <- np_average values weights ;;
  spread <- np_dot weights (arr_square (arr_sub_scalar values mean)) ;;
  let variance := np_div spread (np_sum weights) in
  Return (mean, np_sqrt variance).

(** [bin_evenly]: the boundaries of evenly populated bins and, for each
    value, the number of its bin. *)
Definition bin_evenly (values : list R) (max_bins : Z)
  : result (list (option R) * list Z) :=
  let max_bins :=
    if (Z.of_nat (length values) <? max_bins)%Z then Z.of_nat (length values)
    else max_bins in
  if (max_bins + 1 <? 0)%Z
  then Raise (ValueError "Number of samples must be non-negative.")
  else
    let quantiles := np_linspace 0 1 (Z.to_nat (max_bins + 1)) in
    let boundaries := mquantiles values quantiles 0.4 0.4 in
    (* digitize_boundaries = np.copy(boundaries); digitize_boundaries[-1] += 1 *)
    match rev (ma_data boundaries) with
    | [] => Raise (IndexError "index -1 is out of bounds for axis 0 with size 0")
    | last :: front =>
        let digitize_boundaries := rev front ++ [float_add_one last] in
        bin_digits <- np_digitize values digitize_boundaries ;;
        Return (boundaries, bin_digits)
    end.

End Psum.


(** ** pcigale.analysis_modules.pdf_analysis.utils *)

Module PdfUtils.

(** Number of points in the PDF. *)
Definition PDF_NB_POINTS : nat := 1000.

Definition OUT_DIR : string := "out/".

(** What [save_pdf] leaves behind: a line printed, or a table written. *)
Inductive output : Type :=
| Printed (line : string)
| TableWritten (path : string) (columns : list (string * list R)).

Section Kde.

(** [gaussian_kde(dataset)(grid)] of scipy: the density fitted to the
    dataset and evaluated on the grid, or the exception the fit raises. *)
Variable gaussian_kde : list R -> list R -> result (list R).

(** The loop that builds [combined_values]: a masked value ([None]) is
    skipped before its weight is looked at, a weight 0 adds nothing. *)
Fixpoint combine_values (values : list (option R)) (val_idx : nat)
         (probabilities : list Z) (combined_values : list R) : result (list R) :=
  match values with
  | [] => Return combined_values
  | None :: rest => combine_values rest (S val_idx) probabilities combined_values
  | Some val :: rest =>
      match nth_error probabilities val_idx with
      | None => Raise (IndexError "index out of bounds")
      | Some weight =>
          combine_values rest (S val_idx) probabilities
            (if (weight =? 0)%Z then combined_values
             else combined_values ++ repeat val (Z.to_nat weight))
      end
  end.

(** [gen_pdf]: the density on the grid, or [None] when the fit fails with
    a LinAlgError or a ValueError. *)
Definition gen_pdf (values : list (option R)) (probabilities grid : list R)
  : result (option (list R)) :=
  let probabilities := map (fun p => np_around (100 * p)) probabilities in
  combined_values <- combine_values values 0 probabilities [] ;;
  match gaussian_kde combined_values grid with
  | Return result => Return (Some result)
  | Raise (LinAlgError _) | Raise (ValueError _) => Return None
  | Raise e => Raise e
  end.

Definition cannot_compute (obsid var_name : string) : string :=
  "Can not compute PDF for observation <" ++ obsid ++ "> and variable <"
    ++ var_name ++ ">.".

Definition pdf_file (obsid var_name : string) : string :=
  OUT_DIR ++ obsid ++ "_" ++ var_name ++ "_pdf.fits".

(** One turn of the loop of [save_pdf], for the variable [var_name] whose
    values are the column [var_index] of [model_variables]. *)
Definition save_one_pdf (obsid : string) (var_index : nat) (var_name : string)
           (model_variables : list (list R)) (likelihood : list R)
  : result output :=
  match nth_error model_variables var_index with
  | None => Raise (IndexError "index out of bounds")
  | Some values =>
      lo <- arr_min values ;;
      hi <- arr_max values ;;
      let pdf_grid := np_linspace lo hi PDF_NB_POINTS in
      pdf_prob <- gen_pdf (map Some values) likelihood pdf_grid ;;
      match pdf_prob with
      | None => Return (Printed (cannot_compute obsid var_name))
      | Some pdf_prob =>
          Return (TableWritten (pdf_file obsid var_name)
                               [(var_name, pdf_grid);
                                ("probability density"%string, pdf_prob)])
      end
  end.

(** [save_pdf]: the variables in turn, from [var_index] on; an exception
    ends the loop, a PDF that cannot be computed does not. *)
Fixpoint save_pdf_from (obsid : string) (var_index : nat)
         (analysed_variables : list string)
         (model_variables : list (list R)) (likelihood : list R)
  : result (list output) :=
  match analysed_variables with
  | [] => Return []
  | var_name :: rest =>
      out <- save_one_pdf obsid var_index var_name model_variables likelihood ;;
      outs <- save_pdf_from obsid (S var_index) rest model_variables likelihood ;;
      Return (out :: outs)
  end.

Definition save_pdf (obsid : string) (analysed_variables : list string)
           (model_variables : list (list R)) (likelihood : list R)
  : result (list output) :=
  save_pdf_from obsid 0 analysed_variables model_variables likelihood.

End Kde.

End PdfUtils.

(** ** pcigale.stats.psum: the binned PDF of Module.process *)

Module PsumProcess.

Import Psum.








End PsumProcess.
(** ** The specification's own words *)

Module Spec.

Import Psum.

(** The sum of [f] over a sequence. *)
Definition Sigma {A : Type} (f : A -> R) (l : list A) : R :=
  fold_right (fun a acc => f a + acc) 0 l.

(** The same sum where a term may be a non-finite float. *)
Definition np_Sigma {A : Type} (f : A -> npfloat) (l : list A) : npfloat :=
  fold_right (fun a acc => np_add (f a) acc) (Fin 0) l.

(** One filter: its model flux, observed flux and observation error. *)
Record filter_data : Type := Filter { model : R; obs : R; error : R }.

Definition filters (model_fluxes obs_fluxes obs_errors : list R)
  : list filter_data :=
  map (fun t => Filter (fst (fst t)) (snd (fst t)) (snd t))
      (combine (combine model_fluxes obs_fluxes) obs_errors).

(** The filters whose error exceeds the tolerance, the three values of a
    filter dropped or kept together. *)
Definition constrained (fs : list filter_data) : list filter_data :=
  filter (fun f => Rltb TOLERANCE (error f)) fs.

Definition degrees_of_freedom (fs : list filter_data) : Z :=
  (Z.of_nat (length fs) - 1)%Z.

(** normalization_factor = Σ(obs·model) / Σ(model²). *)
Definition normalization_factor (fs : list filter_data) : npfloat :=
  np_div (Fin (Sigma (fun f => obs f * model f) fs))
         (Fin (Sigma (fun f => model f * model f) fs)).

(** chi2 = Σ((obs − normalization_factor·model)/error)². *)
Definition chi2 (fs : list filter_data) : npfloat :=
  np_Sigma (fun f =>
              np_square (np_div (np_sub (Fin (obs f))
                                        (np_mul (normalization_factor fs)
                                                (Fin (model f))))
                                (Fin (error f)))) fs.

Definition np_min (x y : npfloat) : npfloat := if np_ltb y x then y else x.

(** reduced_chi2 = min(chi2/degrees_of_freedom, 99). *)
Definition reduced_chi2 (fs : list filter_data) : npfloat :=
  np_min (np_div (chi2 fs) (Fin (IZR (degrees_of_freedom fs)))) (Fin 99).

(** probability = exp(−chi2/2). *)
Definition probability (fs : list filter_data) : npfloat :=
  np_exp (np_div (np_neg (chi2 fs)) (Fin 2)).

(** The same three quantities over the reals, for a finite fit. *)
Definition normalization_factor_R (fs : list filter_data) : R :=
  Sigma (fun f => obs f * model f) fs / Sigma (fun f => model f * model f) fs.

Definition chi2_R (fs : list filter_data) : R :=
  Sigma (fun f => Rsqr ((obs f - normalization_factor_R fs * model f) / error f)) fs.

(** The maximum observed flux is below the tolerance. *)
Definition max_below_tolerance (obs_fluxes : list R) : Prop :=
  obs_fluxes <> [] /\ Forall (fun o => o < TOLERANCE) obs_fluxes.

(** The maximum observed flux is at least the tolerance. *)
Definition max_at_least_tolerance (obs_fluxes : list R) : Prop :=
  Exists (fun o => TOLERANCE <= o) obs_fluxes.

(** Some filter has a flux above the tolerance and an error below it: the
    minimum error among the fluxes above tolerance is below tolerance. *)
Definition min_error_below_tolerance (obs_fluxes obs_errors : list R) : Prop :=
  Exists (fun p => TOLERANCE < fst p /\ snd p < TOLERANCE)
         (combine obs_fluxes obs_errors).

(** Every error among the fluxes above tolerance is at least the tolerance. *)
Definition errors_at_least_tolerance (obs_fluxes obs_errors : list R) : Prop :=
  Forall (fun p => TOLERANCE < fst p -> TOLERANCE <= snd p)
         (combine obs_fluxes obs_errors).

(** Some observed flux is strictly above the tolerance. *)
Definition some_flux_above_tolerance (obs_fluxes : list R) : Prop :=
  Exists (fun o => TOLERANCE < o) obs_fluxes.

(** weighted_mean = Σ(w·v)/Σw over the (value, weight) pairs. *)
Definition weighted_mean (vw : list (R * R)) : R :=
  Sigma (fun p => snd p * fst p) vw / Sigma snd vw.

(** weighted_std = sqrt(Σ(w·(v−mean)²)/Σw). *)
Definition weighted_std (vw : list (R * R)) : R :=
  sqrt (Sigma (fun p => snd p * Rsqr (fst p - weighted_mean vw)) vw / Sigma snd vw).

(** The adjusted error of one (flux, error) pair: an error below the
    tolerance is first scaled by the default error factor, then the
    systematic term is added in quadrature. *)
Definition adjusted_error (default_error_factor systematic_deviation : R)
           (p : R * R) : R :=
  let error := if Rltb (snd p) TOLERANCE then default_error_factor * snd p
               else snd p in
  sqrt (Rsqr error + Rsqr (fst p * systematic_deviation)).

Definition adjusted_errors (default_error_factor systematic_deviation : R)
           (flux error : list R) : list R :=
  map (adjusted_error default_error_factor systematic_deviation)
      (combine flux error).

(** The implicit integer weight of a probability: probability×100 rounded
    to the nearest integer. *)
Definition integer_weight (probability : R) : Z := np_around (100 * probability).

(** The pooled sample: each value replicated as many times as its weight,
    the values of weight 0 excluded. *)
Definition pooled_sample (values probabilities : list R) : list R :=
  flat_map (fun vp => repeat (fst vp) (Z.to_nat (integer_weight (snd vp))))
           (filter (fun vp => negb (integer_weight (snd vp) =? 0)%Z)
                   (combine values probabilities)).

(** The density fit fails numerically: a LinAlgError or a ValueError. *)
Definition fails_numerically {A : Type} (fit : result A) : Prop :=
  exists msg, fit = Raise (LinAlgError msg) \/ fit = Raise (ValueError msg).

(** The quantile of a non-empty sample at the fraction [p], with the
    plotting positions [mquantiles] uses by default. *)
Definition quantile (values : list R) (p : R) : R :=
  let x := np_sort values in
  match length x with
  | S O => nth 0 x 0
  | _ => quantile_at x 0.4 0.4 p
  end.





(** Not degenerate: the test of the degenerate case is false. *)
Definition non_degenerate (obs_fluxes obs_errors : list R) : Prop :=
  some_flux_above_tolerance obs_fluxes
  /\ errors_at_least_tolerance obs_fluxes obs_errors.

End Spec.


(** ** Inputs of the worked examples *)

Module Examples.


(** A stand-in for the density fit: it fails on fewer than two points. *)
Definition toy_kde (dataset grid : list R) : result (list R) :=
  match dataset with
  | [] => Raise (ValueError "`dataset` input should have multiple elements.")
  | [_] => Raise (LinAlgError "singular matrix")
  | _ => Return (map (fun _ => 1) grid)
  end.

End Examples.

(** ** pcigale.session.tools

    The module is Python 2 code ([basestring], [collections.Iterable],
    [dict.items()] returning a list) and is modelled as such. *)

Module SessionTools.

(** A dictionary, as its items in the order of iteration; the keys are
    pairwise distinct. *)
Definition dict (V : Type) : Type := list (string * V).

(** [d[key]]. *)
Fixpoint getitem {V : Type} (d : dict V) (key : string) : result V :=
  match d with
  | [] => Raise (OtherError "KeyError" key)
  | (k, v) :: rest => if String.eqb k key then Return v else getitem rest key
  end.

(** [d[key] = v]: the value of a key already there is replaced where it
    is. *)
Fixpoint setitem {V : Type} (d : dict V) (key : string) (v : V) : dict V :=
  match d with
  | [] => [(key, v)]
  | (k, u) :: rest =>
      if String.eqb k key then (k, v) :: rest else (k, u) :: setitem rest key v
  end.

(** [dict(pairs)]. *)
Definition dict_of {V : Type} (pairs : list (string * V)) : dict V :=
  fold_left (fun d kv => setitem d (fst kv) (snd kv)) pairs [].

Section Combine.

(** The single elements a key can be associated with. *)
Variable A : Type.

(** A value of the dictionary: a single element (what is not iterable, or
    a string), or an iterable with its items. *)
Inductive value : Type :=
| Single (a : A)
| Iterable (items : list A).

(** [itertools.product] of the pools: the last pool varies fastest. *)
Fixpoint product (pools : list (list A)) : list (list A) :=
  match pools with
  | [] => [[]]
  | pool :: rest => flat_map (fun a => map (cons a) (product rest)) pool
  end.

(** What iterating over a value yields. *)
Definition iterate (v : value) : result (list A) :=
  match v with
  | Iterable items => Return items
  | Single _ => Raise (TypeError "object is not iterable")
  end.

Fixpoint value_arrays (dictionary : dict value) (key_list : list string)
  : result (list (list A)) :=
  match key_list with
  | [] => Return []
  | key :: rest =>
      v <- getitem dictionary key ;;
      pool <- iterate v ;;
      pools <- value_arrays dictionary rest ;;
      Return (pool :: pools)
  end.

Definition param_dict_combine (dictionary : dict value) : result (list (dict A)) :=
  (* for key, value in dictionary.items(): ... dictionary[key] = [value] *)
  let dictionary :=
    fold_left (fun d kv => match snd kv with
                           | Single a => setitem d (fst kv) (Iterable [a])
                           | Iterable _ => d
                           end)
              dictionary dictionary in
  let key_list := map fst dictionary in
  value_array_list <- value_arrays dictionary key_list ;;
  Return (map (fun combination => dict_of (combine key_list combination))
              (product value_array_list)).

End Combine.

Arguments Single {A} a.
Arguments Iterable {A} items.
Arguments product {A} pools.
Arguments param_dict_combine {A} dictionary.

End SessionTools.

(** ** utils.counter *)

Module Counter.

(** The value a C [int] holds after an assignment: [mp.Value('i', ...)]
    keeps 32 bits and wraps around. *)
Definition c_int (z : Z) : Z := ((z + 2 ^ 31) mod 2 ^ 32 - 2 ^ 31)%Z.

(** [a % b] on Python integers. *)
Definition py_mod (a b : Z) : result Z :=
  if (b =? 0)%Z then Raise (ZeroDivisionError "integer modulo by zero")
  else Return (a mod b)%Z.

(** The attributes of a Counter that belong to one process; the value of
    [global_counter] lives in shared memory and is passed along. *)
Record counter : Type := Build {
  nmodels : Z;
  freq_inc : Z;
  freq_print : Z;
  proc_counter : Z
}.

(** A call of [pprint]: the count printed, and whether the line ends with
    a newline rather than a carriage return. *)
Inductive event : Type :=
| Pprint (n : Z) (newline : bool).

(** [__init__]: the counter and the initial value of [global_counter]. *)
Definition init (nmodels freq_inc freq_print : Z) : result (counter * Z) :=
  r <- py_mod freq_print freq_inc ;;
  if negb (r =? 0)%Z
  then Raise (ValueError "The printing frequency must be a multiple of the increment frequency.")
  else Return (Build nmodels freq_inc freq_print 0, 0%Z).

Definition pprint (self : counter) (n : Z) : event :=
  Pprint n (n =? nmodels self)%Z.

(** [inc]: the counter of the process, the value of [global_counter] and
    what is printed; the increment and the reading of [global_counter] are
    one step, under its lock. *)
Definition inc (self : counter) (global_counter : Z)
  : result (counter * Z * list event) :=
  let self := Build (nmodels self) (freq_inc self) (freq_print self)
                    (proc_counter self + 1) in
  r <- py_mod (proc_counter self) (freq_inc self) ;;
  if (r =? 0)%Z then
    let global_counter := c_int (global_counter + freq_inc self) in
    let n := global_counter in
    r <- py_mod n (freq_print self) ;;
    if (r =? 0)%Z then Return (self, global_counter, [pprint self n])
    else Return (self, global_counter, [])
  else Return (self, global_counter, []).

(** [inc] called [k] times in one process. *)
Fixpoint incs (k : nat) (self : counter) (global_counter : Z) (printed : list event)
  : result (counter * Z * list event) :=
  match k with
  | O => Return (self, global_counter, printed)
  | S k' =>
      step <- inc self global_counter ;;
      incs k' (fst (fst step)) (snd (fst step)) (printed ++ snd step)
  end.

(** Several processes, each with its copy of the counter, sharing
    [global_counter]: the calls of [inc] in the order [schedule] gives, a
    process being named by its index. *)
Fixpoint schedule_incs (schedule : list nat) (processes : list counter)
         (global_counter : Z) : result (list counter * Z) :=
  match schedule with
  | [] => Return (processes, global_counter)
  | pid :: rest =>
      match nth_error processes pid with
      | None => Raise (IndexError "no such process")
      | Some self =>
          step <- inc self global_counter ;;
          schedule_incs rest
                        (firstn pid processes ++ fst (fst step)
                                :: skipn (S pid) processes)
                        (snd (fst step))
      end
  end.

End Counter.

(** ** pcigale.sed_modules.sfh_quenching_smooth *)

Module SfhQuenchSmooth.

(** The attributes [_init_code] sets. *)
Record parameters : Type := Parameters {
  quenching_age : Z;
  quenching_factor : R;
  normalise : bool
}.

(** [process], on the star formation history [sfr] read from the SED: the
    history and the integrated star formation it sets on the SED, or [None]
    when it leaves both alone. *)
Definition process (self : parameters) (sfr : list R)
  : result (option (ndarray * npfloat)) :=
  if (Z.of_nat (length sfr) <? quenching_age self)%Z
  then Raise (OtherError "Exception"
                "[sfh_quenching] The quenching age is greater than the galaxy age. Please fix your parameters.")
  else if (0 <? quenching_age self)%Z && Rltb 0 (quenching_factor self)
  then
    let age := Z.to_nat (quenching_age self) in
    (* sfr[-quenching_age] *)
    match nth_error sfr (length sfr - age) with
    | None => Raise (IndexError "index out of bounds")
    | Some at_quenching =>
        let sfr0 := at_quenching in
        let sfr1 := at_quenching * (1 - quenching_factor self) in
        (* sfr[-quenching_age:] = sfr0 + (sfr1 - sfr0) * np.linspace(...) *)
        let sfr :=
          firstn (length sfr - age) sfr
            ++ map (fun x => sfr0 + (sfr1 - sfr0) * x) (np_linspace 0 1 age) in
        let sfr_integrated := np_mul (np_sum (np_copy sfr)) (Fin 1e6) in
        if normalise self
        then Return (Some (map (fun x => np_div x sfr_integrated) (np_copy sfr),
                           Fin 1))
        else Return (Some (np_copy sfr, sfr_integrated))
    end
  else Return None.

End SfhQuenchSmooth.

(** ** pcigale.sed_modules.sfhperiodic *)

Module SfhPeriodic.

(** The parameters [_init_code] reads, after their conversion by [int],
    [float] and [bool]; [int] of the float [tau_bursts] is taken where the
    code takes it. *)
Record parameters : Type := Parameters {
  type_bursts : Z;
  delta_bursts : Z;
  tau_bursts : R;
  age : Z;
  sfr_A : R;
  normalise : bool
}.

(** [int(x)] of a float: towards zero. *)
Definition int_of_float (x : R) : Z :=
  if Rltb x 0 then (- Zfloor (- x))%Z else Zfloor x.

(** The items a slice [a[:stop]] covers, for an array of [n] items: a
    negative [stop] counts from the end. *)
Definition slice_stop (n : nat) (stop : Z) : nat :=
  if (stop <? 0)%Z then Z.to_nat (Z.of_nat n + stop)
  else Nat.min n (Z.to_nat stop).

(** [a[:stop] = v]. *)
Definition assign_prefix (a : ndarray) (stop : Z) (v : npfloat) : ndarray :=
  let covered := slice_stop (length a) stop in
  repeat v covered ++ skipn covered a.

(** [numpy.roll(a, shift)]: the items move [shift] places to the right,
    those pushed out come back at the front. *)
Definition np_roll (a : ndarray) (shift : Z) : ndarray :=
  match length a with
  | O => a
  | n => let places := Z.to_nat (shift mod Z.of_nat n) in
         skipn (n - places) a ++ firstn (n - places) a
  end.

(** The number of items of [numpy.arange(start, stop, step)] on
    integers. *)
Definition arange_length (start stop step : Z) : result nat :=
  if (step =? 0)%Z then Raise (ZeroDivisionError "division by zero")
  else Return (Z.to_nat (- ((start - stop) / step)))%Z.

(** [numpy.arange(0, age)]. *)
Definition time_grid (age : Z) : list Z := map Z.of_nat (seq 0 (Z.to_nat age)).

(** One star formation event, from its beginning. *)
Definition first_burst (self : parameters) : result ndarray :=
  let time_grid := time_grid (age self) in
  let tau := Fin (tau_bursts self) in
  if (type_bursts self =? 0)%Z then
    Return (map (fun t => np_exp (np_div (Fin (IZR (- t))) tau)) time_grid)
  else if (type_bursts self =? 1)%Z then
    Return (map (fun t => np_div (np_mul (np_exp (np_div (Fin (IZR (- t))) tau))
                                         (Fin (IZR t)))
                                 (Fin (tau_bursts self * tau_bursts self)))
                time_grid)
  else if (type_bursts self =? 2)%Z then
    Return (assign_prefix (map (fun _ => Fin 0) time_grid)
                          (int_of_float (tau_bursts self) + 1) (Fin 1))
  else Raise (OtherError "Exception" "Burst type unknown.").

(** The loop over the events: the burst is added, then moved
    [delta_bursts] steps later. *)
Fixpoint add_bursts (events : nat) (delta_bursts : Z) (sfr burst : ndarray)
  : ndarray :=
  match events with
  | O => sfr
  | S events' =>
      add_bursts events' delta_bursts (arr_add sfr burst)
                 (assign_prefix (np_roll burst delta_bursts) delta_bursts (Fin 0))
  end.

(** [_init_code]: the star formation history [self.sfr] and
    [self.sfr_integrated]. *)
Definition init_code (self : parameters) : result (ndarray * npfloat) :=
  let sfr := map (fun _ => Fin 0) (time_grid (age self)) in
  burst <- first_burst self ;;
  events <- arange_length 0 (age self) (delta_bursts self) ;;
  let sfr := add_bursts events (delta_bursts self) sfr burst in
  let sfr_integrated := np_mul (np_sum sfr) (Fin 1e6) in
  if normalise self
  then Return (map (fun x => np_div x sfr_integrated) sfr, Fin 1)
  else Return (map (fun x => np_mul x (Fin (sfr_A self))) sfr,
               np_mul sfr_integrated (Fin (sfr_A self))).

End SfhPeriodic.

(** ** Further notions the properties of the code are stated with *)

Module SpecMore.

(** A filter with its model flux multiplied by [c]. *)
Definition scale_model (c : R) (f : Spec.filter_data) : Spec.filter_data :=
  Spec.Filter (c * Spec.model f) (Spec.obs f) (Spec.error f).



(** The (value, probability) pairs of the values that are not masked. *)
Definition unmasked (values : list (option R)) (probabilities : list R)
  : list (R * R) :=
  flat_map (fun vp => match fst vp with
                      | Some v => [(v, snd vp)]
                      | None => []
                      end)
           (combine values probabilities).


(** The elements a value of a parameter dictionary offers. *)
Definition choices {A : Type} (v : SessionTools.value A) : list A :=
  match v with
  | SessionTools.Single a => [a]
  | SessionTools.Iterable items => items
  end.

End SpecMore.
(** ** Facts about the run-time model *)

Section RuntimeFacts.

Lemma Rltb_true (x y : R) : Rltb x y = true <-> x < y.
Proof. unfold Rltb; destruct (Rlt_dec x y); split; intros; try discriminate; tauto. Qed.

Lemma Rltb_false (x y : R) : Rltb x y = false <-> y <= x.
Proof.
  unfold Rltb; destruct (Rlt_dec x y); split; intros; try discriminate; try lra;
    reflexivity.
Qed.

Lemma Reqb_true (x y : R) : Reqb x y = true <-> x = y.
Proof. unfold Reqb; destruct (Req_dec_T x y); split; intros; try discriminate; tauto. Qed.

Lemma Reqb_false (x y : R) : Reqb x y = false <-> x <> y.
Proof. unfold Reqb; destruct (Req_dec_T x y); split; intros; try discriminate; tauto. Qed.

Lemma np_div_Fin (a b : R) : b <> 0 -> np_div (Fin a) (Fin b) = Fin (a / b).
Proof. intros Hb; simpl. apply Reqb_false in Hb. now rewrite Hb. Qed.

Lemma np_div_zero_zero : np_div (Fin 0) (Fin 0) = NaN.
Proof. simpl. assert (H : Reqb 0 0 = true) by now apply Reqb_true. now rewrite H. Qed.

(** [np_add] is a commutative monoid with unit [Fin 0]. *)
Lemma np_add_comm (x y : npfloat) : np_add x y = np_add y x.
Proof. destruct x, y; simpl; try reflexivity. f_equal; lra. Qed.

Lemma np_add_assoc (x y z : npfloat) :
  np_add x (np_add y z) = np_add (np_add x y) z.
Proof. destruct x, y, z; simpl; try reflexivity. f_equal; lra. Qed.

Lemma np_add_0_l (x : npfloat) : np_add (Fin 0) x = x.
Proof. destruct x; simpl; try reflexivity. f_equal; lra. Qed.

Lemma np_add_0_r (x : npfloat) : np_add x (Fin 0) = x.
Proof. rewrite np_add_comm; apply np_add_0_l. Qed.

(** The builtin [sum] of a non-empty float array is the float sum of its
    items; of an empty one it is the [int] 0. *)
Lemma fold_py_add (xs : ndarray) (acc : npfloat) :
  fold_left (fun a x => py_add a (PyFloat x)) xs (PyFloat acc)
  = PyFloat (np_add acc (Spec.np_Sigma (fun x => x) xs)).
Proof.
  revert acc; induction xs as [|x xs IH]; intros acc; simpl.
  - now rewrite np_add_0_r.
  - rewrite IH. now rewrite np_add_assoc.
Qed.

Lemma builtin_sum_nil : builtin_sum [] = PyInt 0.
Proof. reflexivity. Qed.

Lemma builtin_sum_cons (x : npfloat) (xs : ndarray) :
  builtin_sum (x :: xs) = PyFloat (Spec.np_Sigma (fun y => y) (x :: xs)).
Proof.
  unfold builtin_sum. cbn [fold_left].
  change (py_add (PyInt 0) (PyFloat x)) with (PyFloat (np_add (Fin 0) x)).
  now rewrite fold_py_add, np_add_0_l.
Qed.

Lemma np_Sigma_map {A B : Type} (g : A -> B) (f : B -> npfloat) (l : list A) :
  Spec.np_Sigma f (map g l) = Spec.np_Sigma (fun a => f (g a)) l.
Proof. induction l as [|a l IH]; simpl; [reflexivity | now rewrite IH]. Qed.

Lemma np_Sigma_ext {A : Type} (f g : A -> npfloat) (l : list A) :
  (forall a, In a l -> f a = g a) -> Spec.np_Sigma f l = Spec.np_Sigma g l.
Proof.
  induction l as [|a l IH]; simpl; intros H; [reflexivity|].
  rewrite (H a) by now left. rewrite IH; [reflexivity|]. intros; apply H; now right.
Qed.

Lemma np_Sigma_Fin {A : Type} (f : A -> R) (l : list A) :
  Spec.np_Sigma (fun a => Fin (f a)) l = Fin (Spec.Sigma f l).
Proof. induction l as [|a l IH]; simpl; [reflexivity | now rewrite IH]. Qed.

Lemma np_Sigma_NaN {A : Type} (l : list A) :
  l <> [] -> Spec.np_Sigma (fun _ => NaN) l = NaN.
Proof. destruct l; [congruence | reflexivity]. Qed.

Lemma Sigma_nonneg {A : Type} (f : A -> R) (l : list A) :
  (forall a, In a l -> 0 <= f a) -> 0 <= Spec.Sigma f l.
Proof.
  induction l as [|a l IH]; simpl; intros H; [lra|].
  assert (0 <= f a) by (apply H; now left).
  assert (0 <= Spec.Sigma f l) by (apply IH; intros; apply H; now right). lra.
Qed.

Lemma Sigma_ext {A : Type} (f g : A -> R) (l : list A) :
  (forall a, In a l -> f a = g a) -> Spec.Sigma f l = Spec.Sigma g l.
Proof.
  induction l as [|a l IH]; simpl; intros H; [reflexivity|].
  rewrite (H a) by now left. rewrite IH; [reflexivity|]. intros; apply H; now right.
Qed.

(** A sum of non-negative terms is zero only if every term is. *)
Lemma Sigma_zero_all {A : Type} (f : A -> R) (l : list A) :
  (forall a, In a l -> 0 <= f a) -> Spec.Sigma f l = 0 ->
  forall a, In a l -> f a = 0.
Proof.
  induction l as [|b l IH]; simpl; intros Hpos Hz a Ha; [contradiction|].
  assert (0 <= f b) by (apply Hpos; now left).
  assert (0 <= Spec.Sigma f l) by (apply Sigma_nonneg; intros; apply Hpos; now right).
  destruct Ha as [->|Ha]; [lra|].
  apply IH; auto. lra.
Qed.

(** [max] and [min] of a non-empty array of finite values. *)
Lemma fold_max_Fin (rest : list R) (x : R) :
  exists r, fold_left (fun m y => if np_gtb y m then y else m) (map Fin rest) (Fin x) = Fin r
            /\ In r (x :: rest) /\ Forall (fun y => y <= r) (x :: rest).
Proof.
  revert x; induction rest as [|y rest IH]; intros x; simpl.
  - exists x; repeat split; auto. constructor; [lra | constructor].
  - unfold np_gtb; simpl. destruct (Rltb x y) eqn:E.
    + apply Rltb_true in E. destruct (IH y) as (r & Hr & Hin & Hall).
      exists r; split; [exact Hr|]. split.
      * right; exact Hin.
      * inversion Hall; subst. constructor; [lra | now constructor].
    + apply Rltb_false in E. destruct (IH x) as (r & Hr & Hin & Hall).
      exists r; split; [exact Hr|]. inversion Hall; subst. split.
      * destruct Hin as [Hin|Hin]; [now left | now right; right].
      * constructor; [lra|]. constructor; [lra | assumption].
Qed.

Lemma fold_min_Fin (rest : list R) (x : R) :
  exists r, fold_left (fun m y => if np_ltb y m then y else m) (map Fin rest) (Fin x) = Fin r
            /\ In r (x :: rest) /\ Forall (fun y => r <= y) (x :: rest).
Proof.
  revert x; induction rest as [|y rest IH]; intros x; simpl.
  - exists x; repeat split; auto. constructor; [lra | constructor].
  - destruct (Rltb y x) eqn:E.
    + apply Rltb_true in E. destruct (IH y) as (r & Hr & Hin & Hall).
      exists r; split; [exact Hr|]. split.
      * right; exact Hin.
      * inversion Hall; subst. constructor; [lra | now constructor].
    + apply Rltb_false in E. destruct (IH x) as (r & Hr & Hin & Hall).
      exists r; split; [exact Hr|]. inversion Hall; subst. split.
      * destruct Hin as [Hin|Hin]; [now left | now right; right].
      * constructor; [lra|]. constructor; [lra | assumption].
Qed.

Lemma builtin_max_Fin (xs : list R) :
  xs <> [] ->
  exists r, builtin_max (np_copy xs) = Return (Fin r)
            /\ In r xs /\ Forall (fun y => y <= r) xs.
Proof.
  destruct xs as [|x rest]; [congruence|]. intros _.
  destruct (fold_max_Fin rest x) as (r & Hr & H). exists r. split; [|exact H].
  unfold np_copy, builtin_max; cbn [map]. now rewrite Hr.
Qed.

Lemma builtin_min_Fin (xs : list R) :
  xs <> [] ->
  exists r, builtin_min (np_copy xs) = Return (Fin r)
            /\ In r xs /\ Forall (fun y => r <= y) xs.
Proof.
  destruct xs as [|x rest]; [congruence|]. intros _.
  destruct (fold_min_Fin rest x) as (r & Hr & H). exists r. split; [|exact H].
  unfold np_copy, builtin_min; cbn [map]. now rewrite Hr.
Qed.

End RuntimeFacts.

(** ** compute_chi2: masks, the degenerate test and the two fits *)

Section Chi2Facts.

Import Psum.

Lemma TOLERANCE_pos : 0 < TOLERANCE.
Proof. unfold TOLERANCE; lra. Qed.

Lemma arr_gt_copy (a : list R) (c : R) :
  arr_gt (np_copy a) (Fin c) = map (fun x => Rltb c x) a.
Proof. unfold arr_gt, np_copy. rewrite map_map. reflexivity. Qed.

Lemma mask_index_copy (a : list R) (mask : list bool) :
  mask_index (np_copy a) mask = np_copy (mask_index a mask).
Proof.
  unfold mask_index, np_copy. revert mask.
  induction a as [|x a IH]; intros [|b mask]; simpl; try reflexivity.
  destruct b; simpl; now rewrite IH.
Qed.

Lemma combine_map_same {A B C : Type} (g : A -> B) (h : A -> C) (l : list A) :
  combine (map g l) (map h l) = map (fun a => (g a, h a)) l.
Proof. induction l as [|a l IH]; simpl; [reflexivity | now rewrite IH]. Qed.

(** The errors selected by the mask [obs_fluxes > TOLERANCE]. *)
Lemma In_errors_above (obs_fluxes obs_errors : list R) (e : R) :
  In e (mask_index obs_errors (map (fun o => Rltb TOLERANCE o) obs_fluxes))
  <-> exists o, In (o, e) (combine obs_fluxes obs_errors) /\ TOLERANCE < o.
Proof.
  unfold mask_index. revert obs_errors.
  induction obs_fluxes as [|o os IH]; intros [|e' es]; simpl;
    try (split; [contradiction | intros (? & [] & _)]).
  destruct (Rltb TOLERANCE o) eqn:E; simpl; rewrite IH.
  - apply Rltb_true in E. split.
    + intros [<-|(o' & Hin & Hlt)]; [exists o; auto | exists o'; auto].
    + intros (o' & [Heq|Hin] & Hlt); [inversion Heq; now left | right; now exists o'].
  - apply Rltb_false in E. split.
    + intros (o' & Hin & Hlt); exists o'; auto.
    + intros (o' & [Heq|Hin] & Hlt); [inversion Heq; subst; lra | now exists o'].
Qed.

(** The three masked arrays are the three columns of the constrained
    filters: the restriction is done in lockstep. *)
Lemma lockstep (model_fluxes obs_fluxes obs_errors : list R) :
  length model_fluxes = length obs_fluxes ->
  length obs_fluxes = length obs_errors ->
  let keep := map (fun e => Rltb TOLERANCE e) obs_errors in
  let fs := Spec.constrained (Spec.filters model_fluxes obs_fluxes obs_errors) in
  mask_index model_fluxes keep = map Spec.model fs
  /\ mask_index obs_fluxes keep = map Spec.obs fs
  /\ mask_index obs_errors keep = map Spec.error fs.
Proof.
  unfold mask_index, Spec.constrained, Spec.filters.
  revert obs_fluxes obs_errors.
  induction model_fluxes as [|m ms IH]; intros [|o os] [|e es]; simpl;
    intros H1 H2; try discriminate; [repeat split|].
  injection H1 as H1; injection H2 as H2.
  destruct (IH os es H1 H2) as (Hm & Ho & He).
  destruct (Rltb TOLERANCE e); simpl; rewrite Hm, Ho, He; repeat split.
Qed.

Lemma constrained_error (fs : list Spec.filter_data) (f : Spec.filter_data) :
  In f (Spec.constrained fs) -> TOLERANCE < Spec.error f.
Proof.
  unfold Spec.constrained. rewrite filter_In. intros [_ H]. now apply Rltb_true.
Qed.

(** *** The degenerate test *)

Lemma degenerate_max (obs_fluxes obs_errors : list R) :
  Spec.max_below_tolerance obs_fluxes ->
  degenerate (np_copy obs_fluxes) (np_copy obs_errors) = Return true.
Proof.
  intros [Hne Hall]. unfold degenerate.
  destruct (builtin_max_Fin obs_fluxes Hne) as (r & -> & Hin & _). simpl.
  rewrite Forall_forall in Hall. apply Hall in Hin.
  apply Rltb_true in Hin. now rewrite Hin.
Qed.

Lemma max_not_below (obs_fluxes : list R) :
  Exists (fun o => TOLERANCE <= o) obs_fluxes ->
  exists r, builtin_max (np_copy obs_fluxes) = Return (Fin r)
            /\ Rltb r TOLERANCE = false.
Proof.
  intros Hex. apply Exists_exists in Hex as (o & Hin & Ho).
  assert (Hne : obs_fluxes <> []) by (intros ->; contradiction).
  destruct (builtin_max_Fin obs_fluxes Hne) as (r & Hr & _ & Hall).
  exists r; split; [exact Hr|]. apply Rltb_false.
  rewrite Forall_forall in Hall. specialize (Hall o Hin). lra.
Qed.

Lemma degenerate_error (obs_fluxes obs_errors : list R) :
  Spec.min_error_below_tolerance obs_fluxes obs_errors ->
  degenerate (np_copy obs_fluxes) (np_copy obs_errors) = Return true.
Proof.
  intros Hex. apply Exists_exists in Hex as ([o e] & Hin & Ho & He); simpl in *.
  unfold degenerate.
  destruct (max_not_below obs_fluxes) as (r & -> & Hr).
  { apply Exists_exists. exists o; split; [|lra]. now apply in_combine_l in Hin. }
  cbn [bind np_ltb]. rewrite Hr.
  rewrite arr_gt_copy, mask_index_copy.
  assert (Hsel : In e (mask_index obs_errors (map (fun o => Rltb TOLERANCE o) obs_fluxes)))
    by (apply In_errors_above; now exists o).
  assert (Hne : mask_index obs_errors (map (fun o => Rltb TOLERANCE o) obs_fluxes) <> [])
    by (intros Heq; rewrite Heq in Hsel; contradiction).
  destruct (builtin_min_Fin _ Hne) as (mn & -> & _ & Hall). cbn [bind np_ltb].
  rewrite Forall_forall in Hall. specialize (Hall e Hsel).
  f_equal. apply Rltb_true. lra.
Qed.

Lemma degenerate_false (obs_fluxes obs_errors : list R) :
  length obs_fluxes = length obs_errors ->
  Spec.some_flux_above_tolerance obs_fluxes ->
  Spec.errors_at_least_tolerance obs_fluxes obs_errors ->
  degenerate (np_copy obs_fluxes) (np_copy obs_errors) = Return false.
Proof.
  intros Hlen Hex Hall. unfold degenerate.
  apply Exists_exists in Hex as (o & Hin & Ho).
  destruct (max_not_below obs_fluxes) as (r & -> & Hr).
  { apply Exists_exists. exists o; split; [assumption | lra]. }
  cbn [bind np_ltb]. rewrite Hr.
  rewrite arr_gt_copy, mask_index_copy.
  destruct (In_nth_error _ _ Hin) as (i & Hi).
  assert (Hie : exists e, nth_error obs_errors i = Some e).
  { destruct (nth_error obs_errors i) eqn:E; [eauto|].
    apply nth_error_None in E. assert (i < length obs_fluxes)%nat
      by (apply nth_error_Some; congruence). lia. }
  destruct Hie as (e & Hie).
  assert (Hpair : In (o, e) (combine obs_fluxes obs_errors)).
  { clear - Hi Hie. revert obs_errors i Hi Hie.
    induction obs_fluxes as [|x xs IH]; intros [|y ys] [|i]; simpl; intros Hi Hie;
      try discriminate.
    - left; congruence.
    - right; eauto. }
  assert (Hsel : In e (mask_index obs_errors (map (fun o => Rltb TOLERANCE o) obs_fluxes)))
    by (apply In_errors_above; now exists o).
  assert (Hne : mask_index obs_errors (map (fun o => Rltb TOLERANCE o) obs_fluxes) <> [])
    by (intros Heq; rewrite Heq in Hsel; contradiction).
  destruct (builtin_min_Fin _ Hne) as (mn & -> & Hmn & _). cbn [bind np_ltb].
  f_equal. apply Rltb_false.
  apply In_errors_above in Hmn as (o' & Hin' & Ho').
  unfold Spec.errors_at_least_tolerance in Hall. rewrite Forall_forall in Hall.
  exact (Hall (o', mn) Hin' Ho').
Qed.

(** The test itself raises when the largest observed flux is the tolerance
    exactly: no flux is then selected by [obs_fluxes > TOLERANCE]. *)
Lemma degenerate_raises (obs_fluxes obs_errors : list R) :
  Spec.max_at_least_tolerance obs_fluxes ->
  Forall (fun o => o <= TOLERANCE) obs_fluxes ->
  degenerate (np_copy obs_fluxes) (np_copy obs_errors)
  = Raise (ValueError "min() arg is an empty sequence").
Proof.
  intros Hex Hall. unfold degenerate.
  destruct (max_not_below obs_fluxes Hex) as (r & -> & Hr).
  cbn [bind np_ltb]. rewrite Hr.
  rewrite arr_gt_copy, mask_index_copy.
  assert (Hnil : mask_index obs_errors (map (fun o => Rltb TOLERANCE o) obs_fluxes) = []).
  { destruct (mask_index _ _) as [|e l] eqn:E; [reflexivity|].
    assert (Hin : In e (mask_index obs_errors (map (fun o => Rltb TOLERANCE o) obs_fluxes)))
      by (rewrite E; now left).
    apply In_errors_above in Hin as (o & Hin & Ho).
    apply in_combine_l in Hin. rewrite Forall_forall in Hall.
    specialize (Hall o Hin). lra. }
  rewrite Hnil. reflexivity.
Qed.

Lemma degenerate_empty (obs_errors : list R) :
  degenerate (np_copy []) (np_copy obs_errors)
  = Raise (ValueError "max() arg is an empty sequence").
Proof. reflexivity. Qed.

Lemma error_large_enough_dec (p : R * R) :
  {TOLERANCE < fst p -> TOLERANCE <= snd p}
  + {~ (TOLERANCE < fst p -> TOLERANCE <= snd p)}.
Proof.
  destruct (Rlt_dec TOLERANCE (fst p)), (Rle_dec TOLERANCE (snd p));
    [left | right | left | left]; tauto.
Qed.

(** The test is false exactly on the observations that are not degenerate. *)
Lemma degenerate_false_iff (obs_fluxes obs_errors : list R) :
  length obs_fluxes = length obs_errors ->
  degenerate (np_copy obs_fluxes) (np_copy obs_errors) = Return false
  <-> Spec.non_degenerate obs_fluxes obs_errors.
Proof.
  intros Hlen. split; [|intros [Hf He]; now apply degenerate_false].
  intros Hdeg.
  destruct (Exists_dec (fun o => TOLERANCE < o) obs_fluxes
              (fun o => Rlt_dec TOLERANCE o)) as [Hex | Hnex].
  - split; [exact Hex|].
    destruct (Forall_dec (fun p : R * R => TOLERANCE < fst p -> TOLERANCE <= snd p)
                error_large_enough_dec
                (combine obs_fluxes obs_errors)) as [Hall | Hnall]; [exact Hall|].
    exfalso. apply neg_Forall_Exists_neg in Hnall.
    + rewrite degenerate_error in Hdeg; [discriminate|].
      unfold Spec.min_error_below_tolerance.
      eapply Exists_impl; [|exact Hnall]. intros [o e] Hp; simpl in *.
      destruct (Rlt_dec TOLERANCE o); [|exfalso; apply Hp; tauto].
      split; [assumption|]. destruct (Rle_dec TOLERANCE e); [tauto | lra].
    + intros p. destruct (Rlt_dec TOLERANCE (fst p)), (Rle_dec TOLERANCE (snd p));
        tauto.
  - exfalso.
    assert (Hall : Forall (fun o => o <= TOLERANCE) obs_fluxes).
    { apply Forall_forall. intros o Hin.
      destruct (Rle_dec o TOLERANCE); [assumption|].
      exfalso; apply Hnex. apply Exists_exists. exists o; split; [assumption | lra]. }
    destruct obs_fluxes as [|o os]; [rewrite degenerate_empty in Hdeg; discriminate|].
    destruct (Exists_dec (fun o => TOLERANCE <= o) (o :: os)
                (fun o => Rle_dec TOLERANCE o)) as [Hge | Hnge].
    + rewrite degenerate_raises in Hdeg by assumption. discriminate.
    + rewrite degenerate_max in Hdeg; [discriminate|].
      split; [discriminate|]. apply Forall_forall. intros x Hin.
      destruct (Rlt_dec x TOLERANCE); [assumption|].
      exfalso; apply Hnge. apply Exists_exists. exists x; split; [assumption | lra].
Qed.

(** *** The fit over the constrained filters *)

Lemma builtin_sum_nonempty (xs : ndarray) :
  xs <> [] -> builtin_sum xs = PyFloat (Spec.np_Sigma (fun y => y) xs).
Proof. destruct xs; [congruence | intros _; apply builtin_sum_cons]. Qed.

Lemma zip_same {A : Type} (op : npfloat -> npfloat -> npfloat)
      (g h : A -> npfloat) (l : list A) :
  map (fun p => op (fst p) (snd p)) (combine (map g l) (map h l))
  = map (fun a => op (g a) (h a)) l.
Proof. rewrite combine_map_same, map_map. reflexivity. Qed.

Lemma builtin_sum_map {A : Type} (g : A -> npfloat) (l : list A) :
  l <> [] -> builtin_sum (map g l) = PyFloat (Spec.np_Sigma g l).
Proof.
  intros Hne. rewrite builtin_sum_nonempty.
  - now rewrite np_Sigma_map.
  - destruct l; [congruence | discriminate].
Qed.

(** What [compute_chi2] does once the lengths agree. *)
Lemma compute_chi2_steps (model_fluxes obs_fluxes obs_errors : list R) :
  length model_fluxes = length obs_fluxes ->
  length obs_fluxes = length obs_errors ->
  let fs := Spec.constrained (Spec.filters model_fluxes obs_fluxes obs_errors) in
  compute_chi2 model_fluxes obs_fluxes obs_errors =
  unfit <- degenerate (np_copy obs_fluxes) (np_copy obs_errors) ;;
  if unfit then Return (Fin 99, Fin 1, Fin 0)
  else match fs with
       | [] => Raise (ZeroDivisionError "division by zero")
       | [f] => Return (Fin 0,
                        np_div (Fin (Spec.Sigma Spec.obs fs))
                               (Fin (Spec.Sigma Spec.model fs)),
                        Fin 1)
       | _ => Return (Spec.reduced_chi2 fs, Spec.normalization_factor fs,
                      Spec.probability fs)
       end.
Proof.
  intros H1 H2 fs. unfold compute_chi2.
  rewrite H1, H2, !Nat.eqb_refl. cbn [negb orb].
  destruct (degenerate _ _) as [[|]|e]; cbn [bind]; try reflexivity.
  rewrite arr_gt_copy, !mask_index_copy.
  destruct (lockstep model_fluxes obs_fluxes obs_errors H1 H2) as (-> & -> & ->).
  fold fs. unfold np_copy. rewrite !map_map, !length_map.
  destruct fs as [|f [|f' fs']] eqn:Efs.
  - reflexivity.
  - cbn. rewrite !Rplus_0_r, !Rplus_0_l. reflexivity.
  - assert (Hne : fs <> []) by (rewrite Efs; discriminate).
    rewrite <- Efs.
    assert (Hdof : ((Z.of_nat (length fs) - 1 =? 0) = false)%Z).
    { rewrite Efs. cbn [length]. apply Z.eqb_neq. lia. }
    rewrite Hdof.
    unfold arr_mul. rewrite !zip_same, !(builtin_sum_map _ fs Hne).
    cbn [np_mul]. rewrite !np_Sigma_Fin.
    cbn [py_truediv bind to_float].
    unfold scalar_mul, arr_square, arr_div, arr_sub.
    repeat (rewrite ?map_map, ?combine_map_same); cbn [fst snd].
    rewrite (builtin_sum_map _ fs Hne).
    cbn [py_truediv bind to_float py_neg].
    unfold builtin_min2, Spec.reduced_chi2, Spec.probability, Spec.np_min,
      Spec.degrees_of_freedom, Spec.chi2, Spec.normalization_factor.
    cbn [to_float].
    match goal with |- context [np_ltb ?a ?b] => destruct (np_ltb a b) end;
      reflexivity.
Qed.

(** *** A finite fit, and the fit to a model that is zero everywhere *)

Lemma fit_finite (fs : list Spec.filter_data) :
  (forall f, In f fs -> Spec.error f <> 0) ->
  Spec.Sigma (fun f => Spec.model f * Spec.model f) fs <> 0 ->
  Spec.normalization_factor fs = Fin (Spec.normalization_factor_R fs)
  /\ Spec.chi2 fs = Fin (Spec.chi2_R fs).
Proof.
  intros Herr Hden.
  assert (Hnf : Spec.normalization_factor fs = Fin (Spec.normalization_factor_R fs))
    by (unfold Spec.normalization_factor; now rewrite np_div_Fin).
  split; [exact Hnf|].
  unfold Spec.chi2, Spec.chi2_R. rewrite Hnf, <- np_Sigma_Fin.
  apply np_Sigma_ext. intros f Hf. cbn [np_mul np_sub].
  rewrite np_div_Fin by now apply Herr. reflexivity.
Qed.

Lemma chi2_R_nonneg (fs : list Spec.filter_data) : 0 <= Spec.chi2_R fs.
Proof. apply Sigma_nonneg. intros; apply Rle_0_sqr. Qed.

Lemma np_min_Fin (a b : R) : Spec.np_min (Fin a) (Fin b) = Fin (Rmin a b).
Proof.
  unfold Spec.np_min, Rmin; cbn [np_ltb].
  destruct (Rltb b a) eqn:E; destruct (Rle_dec a b); try reflexivity.
  - apply Rltb_true in E; lra.
  - apply Rltb_false in E; lra.
Qed.

Lemma fit_finite_results (fs : list Spec.filter_data) :
  (forall f, In f fs -> Spec.error f <> 0) ->
  Spec.Sigma (fun f => Spec.model f * Spec.model f) fs <> 0 ->
  Spec.degrees_of_freedom fs <> 0%Z ->
  Spec.reduced_chi2 fs
  = Fin (Rmin (Spec.chi2_R fs / IZR (Spec.degrees_of_freedom fs)) 99)
  /\ Spec.probability fs = Fin (exp (- Spec.chi2_R fs / 2)).
Proof.
  intros Herr Hden Hdof. destruct (fit_finite fs Herr Hden) as [_ Hchi].
  unfold Spec.reduced_chi2, Spec.probability. rewrite Hchi. cbn [np_neg].
  rewrite !np_div_Fin; [| lra | now apply not_0_IZR].
  rewrite np_min_Fin. split; reflexivity.
Qed.

(** With all the constrained model fluxes zero the least-squares scale is
    [0/0]: every result of the general case is NaN. *)
Lemma fit_zero_model (fs : list Spec.filter_data) :
  fs <> [] ->
  Spec.Sigma (fun f => Spec.model f * Spec.model f) fs = 0 ->
  Spec.normalization_factor fs = NaN /\ Spec.reduced_chi2 fs = NaN
  /\ Spec.probability fs = NaN.
Proof.
  intros Hne Hz.
  assert (Hm : forall f, In f fs -> Spec.model f = 0).
  { intros f Hf.
    assert (H := Sigma_zero_all (fun f => Spec.model f * Spec.model f) fs
                   (fun a _ => Rle_0_sqr (Spec.model a)) Hz f Hf).
    simpl in H. nra. }
  assert (Hnum : Spec.Sigma (fun f => Spec.obs f * Spec.model f) fs = 0).
  { rewrite (Sigma_ext _ (fun _ => 0)).
    - clear. induction fs; simpl; lra.
    - intros f Hf. rewrite (Hm f Hf). lra. }
  assert (Hnf : Spec.normalization_factor fs = NaN).
  { unfold Spec.normalization_factor. rewrite Hz, Hnum. apply np_div_zero_zero. }
  assert (Hchi : Spec.chi2 fs = NaN).
  { unfold Spec.chi2. rewrite Hnf. cbn. now apply np_Sigma_NaN. }
  unfold Spec.reduced_chi2, Spec.probability. rewrite Hchi. auto.
Qed.

(** The sentinel of an observation that cannot be fitted. *)
Lemma degenerate_sentinel_general (model_fluxes obs_fluxes obs_errors : list R) :
  length model_fluxes = length obs_fluxes ->
  length obs_fluxes = length obs_errors ->
  degenerate (np_copy obs_fluxes) (np_copy obs_errors) = Return true ->
  compute_chi2 model_fluxes obs_fluxes obs_errors = Return (Fin 99, Fin 1, Fin 0).
Proof.
  intros H1 H2 Hdeg. rewrite compute_chi2_steps by assumption. now rewrite Hdeg.
Qed.

(** An error above the tolerance leaves at least one constrained filter. *)
Lemma mask_index_self {A : Type} (f : A -> bool) (a : list A) :
  mask_index a (map f a) = filter f a.
Proof.
  unfold mask_index. induction a as [|x a IH]; simpl; [reflexivity|].
  destruct (f x); simpl; now rewrite IH.
Qed.

Lemma constrained_nonempty (model_fluxes obs_fluxes obs_errors : list R) :
  length model_fluxes = length obs_fluxes ->
  length obs_fluxes = length obs_errors ->
  Exists (fun e => TOLERANCE < e) obs_errors ->
  Spec.constrained (Spec.filters model_fluxes obs_fluxes obs_errors) <> [].
Proof.
  intros H1 H2 Hex Hnil.
  destruct (lockstep model_fluxes obs_fluxes obs_errors H1 H2) as (_ & _ & He).
  rewrite Hnil, mask_index_self in He. cbn [map] in He.
  apply Exists_exists in Hex as (e & Hin & He').
  assert (Hf : In e (filter (fun e => Rltb TOLERANCE e) obs_errors))
    by (apply filter_In; split; [assumption | now apply Rltb_true]).
  rewrite He in Hf. contradiction.
Qed.

Lemma exp_nonpos_le_1 (x : R) : x <= 0 -> exp x <= 1.
Proof.
  intros [Hlt | ->].
  - rewrite <- exp_0. left. now apply exp_increasing.
  - rewrite exp_0. lra.
Qed.

End Chi2Facts.

(** ** w_mean_sigma and adjust_errors: sums, copies and the heap *)

Section StatsFacts.

Import Psum.

Lemma fold_np_add (xs : ndarray) (acc : npfloat) :
  fold_left np_add xs acc = np_add acc (Spec.np_Sigma (fun x => x) xs).
Proof.
  revert acc; induction xs as [|x xs IH]; intros acc; simpl.
  - now rewrite np_add_0_r.
  - rewrite IH. now rewrite np_add_assoc.
Qed.

Lemma np_sum_Sigma {A : Type} (f : A -> R) (l : list A) :
  np_sum (map (fun a => Fin (f a)) l) = Fin (Spec.Sigma f l).
Proof.
  unfold np_sum. rewrite fold_np_add, np_add_0_l, np_Sigma_map.
  apply np_Sigma_Fin.
Qed.

Lemma combine_map_both {A B C D : Type} (f : A -> C) (g : B -> D)
      (l : list A) (l' : list B) :
  combine (map f l) (map g l') = map (fun p => (f (fst p), g (snd p))) (combine l l').
Proof.
  revert l'; induction l as [|a l IH]; intros [|b l']; simpl; try reflexivity.
  now rewrite IH.
Qed.

Lemma Sigma_snd_combine (vs ws : list R) :
  length vs = length ws ->
  Spec.Sigma snd (combine vs ws) = Spec.Sigma (fun w => w) ws.
Proof.
  revert ws; induction vs as [|v vs IH]; intros [|w ws]; simpl; intros H;
    try discriminate; [reflexivity|].
  injection H as H. now rewrite IH.
Qed.

Lemma Sigma_combine_swap {A B : Type} (f : B * A -> R) (l : list A) (l' : list B) :
  Spec.Sigma f (combine l' l)
  = Spec.Sigma (fun p => f (snd p, fst p)) (combine l l').
Proof.
  revert l'; induction l as [|a l IH]; intros [|b l']; simpl; try reflexivity.
  now rewrite IH.
Qed.

Lemma np_sum_copy (ws : list R) :
  np_sum (np_copy ws) = Fin (Spec.Sigma (fun w => w) ws).
Proof. unfold np_copy. apply np_sum_Sigma. Qed.

(** The weighted average of finite values. *)
Lemma np_average_copy (vs ws : list R) :
  length vs = length ws ->
  np_average (np_copy vs) (np_copy ws)
  = if Reqb (Spec.Sigma snd (combine vs ws)) 0
    then Raise (ZeroDivisionError "Weights sum to zero, can't be normalized")
    else Return (Fin (Spec.weighted_mean (combine vs ws))).
Proof.
  intros Hlen. unfold np_average.
  rewrite np_sum_copy. unfold np_copy at 1 2. rewrite !length_map, Hlen, Nat.eqb_refl.
  cbn [negb np_eqb]. rewrite <- (Sigma_snd_combine vs ws Hlen).
  destruct (Reqb _ 0) eqn:E; [reflexivity|].
  unfold arr_mul, np_copy. rewrite combine_map_both, map_map. cbn [fst snd np_mul].
  rewrite np_sum_Sigma. apply Reqb_false in E. rewrite np_div_Fin by assumption.
  unfold Spec.weighted_mean. do 3 f_equal.
  apply Sigma_ext. intros; lra.
Qed.

(** What [w_mean_sigma] does on arrays of one length. *)
Lemma w_mean_sigma_steps (vs ws : list R) :
  length vs = length ws ->
  Spec.Sigma snd (combine vs ws) <> 0 ->
  let vw := combine vs ws in
  w_mean_sigma vs ws
  = Return (Fin (Spec.weighted_mean vw),
            np_sqrt (Fin (Spec.Sigma (fun p => snd p * Rsqr (fst p - Spec.weighted_mean vw)) vw
                          / Spec.Sigma snd vw))).
Proof.
  intros Hlen Hsum vw. unfold w_mean_sigma.
  rewrite np_average_copy by assumption.
  apply Reqb_false in Hsum. rewrite Hsum. cbn [bind].
  fold vw. set (mean := Spec.weighted_mean vw).
  unfold np_dot, arr_square, arr_sub_scalar, np_copy.
  rewrite !length_map, Hlen, Nat.eqb_refl. cbn [bind].
  unfold arr_mul. rewrite !map_map, combine_map_both, map_map.
  cbn [fst snd np_sub np_square np_mul].
  rewrite np_sum_Sigma.
  change (map Fin ws) with (np_copy ws). rewrite np_sum_copy.
  rewrite <- (Sigma_snd_combine vs ws Hlen). fold vw.
  apply Reqb_false in Hsum. rewrite np_div_Fin by assumption.
  rewrite Sigma_combine_swap. fold vw. cbn [fst snd].
  repeat f_equal.
Qed.

(** *** The heap of arrays *)

Lemma update_app_last (h : heap) (a b : ndarray) :
  update (h ++ [a]) (length h) b = h ++ [b].
Proof. induction h as [|c h IH]; simpl; [reflexivity | now rewrite IH]. Qed.

Lemma nth_error_app_last (h : heap) (a : ndarray) :
  nth_error (h ++ [a]) (length h) = Some a.
Proof. rewrite nth_error_app2, Nat.sub_diag by lia. reflexivity. Qed.

Lemma map_combine_swap {A B C : Type} (f : B * A -> C) (l : list A) (l' : list B) :
  map f (combine l' l) = map (fun p => f (snd p, fst p)) (combine l l').
Proof.
  revert l'; induction l as [|a l IH]; intros [|b l']; simpl; try reflexivity.
  now rewrite IH.
Qed.

(** The masked assignment scales the errors below the tolerance, each one
    in its place, and leaves the others. *)
Lemma mask_assign_scaled (d : R) (es : list R) :
  mask_assign (np_copy es) (arr_lt (np_copy es) (Fin TOLERANCE))
              (scalar_mul (Fin d)
                          (mask_index (np_copy es)
                                      (arr_lt (np_copy es) (Fin TOLERANCE))))
  = np_copy (map (fun e => if Rltb e TOLERANCE then d * e else e) es).
Proof.
  unfold np_copy, arr_lt, scalar_mul, mask_index. rewrite !map_map. cbn [np_ltb].
  induction es as [|e es IH]; [reflexivity|].
  cbn [map combine filter fst snd mask_assign].
  destruct (Rltb e TOLERANCE); cbn [map combine filter fst snd mask_assign];
    (f_equal; exact IH).
Qed.

(** What [adjust_errors] does to the heap. *)
Lemma adjust_errors_steps (h : heap) (flux error : ref) (fs es : list R) (d s : R) :
  nth_error h flux = Some (np_copy fs) ->
  nth_error h error = Some (np_copy es) ->
  adjust_errors flux error d s h
  = if (length fs =? length es)%nat
    then Return (S (length h),
                 h ++ [np_copy (map (fun e => if Rltb e TOLERANCE then d * e else e) es)]
                   ++ [np_copy (Spec.adjusted_errors d s fs es)])
    else Raise (ValueError "The flux and error arrays must have the same length.").
Proof.
  intros Hflux Herror. unfold adjust_errors, bindM, read. rewrite Hflux, Herror.
  unfold np_copy at 1 2. rewrite !length_map.
  destruct (length fs =? length es)%nat eqn:Hlen; [|reflexivity].
  cbn [negb]. unfold alloc at 1, write.
  rewrite !nth_error_app_last. cbv beta iota.
  rewrite mask_assign_scaled, update_app_last, nth_error_app_last.
  assert (Hlt : (flux < length h)%nat) by (apply nth_error_Some; congruence).
  rewrite nth_error_app1, Hflux by assumption.
  unfold alloc. rewrite length_app, Nat.add_comm. cbn [length Nat.add].
  rewrite <- app_assoc. do 3 f_equal.
  unfold arr_sqrt, arr_add, arr_square, arr_mul_scalar, np_copy, Spec.adjusted_errors.
  rewrite !map_map. cbn [np_square np_mul]. rewrite combine_map_both, !map_map.
  cbn [fst snd np_add]. rewrite map_combine_swap. cbn [fst snd].
  do 2 f_equal. apply map_ext. intros [f e]. unfold Spec.adjusted_error. cbn [fst snd np_sqrt].
  match goal with |- context [Rltb ?v 0] => assert (Hv : Rltb v 0 = false) end.
  { apply Rltb_false. nra. }
  rewrite Hv. reflexivity.
Qed.

End StatsFacts.

(** ** gen_pdf: rounding and the pooled sample *)

Section PdfFacts.

Import PdfUtils.

(** [np_around] gives an integer nearest to its argument. *)
Lemma np_around_nearest (x : R) : Rabs (x - IZR (np_around x)) <= 1 / 2.
Proof.
  unfold np_around. pose proof (Zfloor_bound x) as [Hlo Hhi].
  destruct (Rltb (x - IZR (Zfloor x)) (1 / 2)) eqn:E1.
  - apply Rltb_true in E1. apply Rabs_le. lra.
  - apply Rltb_false in E1.
    destruct (Rltb (1 / 2) (x - IZR (Zfloor x))) eqn:E2.
    + apply Rltb_true in E2. rewrite plus_IZR. apply Rabs_le. lra.
    + apply Rltb_false in E2. destruct (Z.even (Zfloor x)).
      * apply Rabs_le. lra.
      * rewrite plus_IZR. apply Rabs_le. lra.
Qed.

Lemma combine_values_pooled (values probabilities : list R)
      (before : list Z) (combined_values : list R) :
  length values = length probabilities ->
  combine_values (map Some values) (length before)
                 (before ++ map Spec.integer_weight probabilities) combined_values
  = Return (combined_values ++ Spec.pooled_sample values probabilities).
Proof.
  revert probabilities before combined_values.
  induction values as [|v vs IH]; intros [|p ps] before acc Hlen;
    try discriminate; cbn [map combine_values].
  - unfold Spec.pooled_sample. cbn. now rewrite app_nil_r.
  - injection Hlen as Hlen.
    rewrite nth_error_app2, Nat.sub_diag by lia. cbn [nth_error].
    replace (S (length before)) with (length (before ++ [Spec.integer_weight p]))
      by (rewrite length_app; simpl; lia).
    replace (before ++ Spec.integer_weight p :: map Spec.integer_weight ps)
      with ((before ++ [Spec.integer_weight p]) ++ map Spec.integer_weight ps)
      by (rewrite <- app_assoc; reflexivity).
    rewrite IH by assumption.
    unfold Spec.pooled_sample. cbn [combine filter fst snd].
    destruct (Spec.integer_weight p =? 0)%Z; cbn [negb flat_map fst snd].
    + reflexivity.
    + now rewrite app_assoc.
Qed.

End PdfFacts.

(** ** bin_evenly: sorting, quantiles and digitization *)

Section BinnerFacts.

Import Psum.

Lemma Rleb_true (x y : R) : Rleb x y = true <-> x <= y.
Proof. unfold Rleb; destruct (Rle_dec x y); split; intros; try discriminate; tauto. Qed.

Lemma Rleb_false (x y : R) : Rleb x y = false <-> y < x.
Proof.
  unfold Rleb; destruct (Rle_dec x y); split; intros; try discriminate; try lra;
    reflexivity.
Qed.

(** *** [np_sort] sorts *)

Lemma insert_sorted_perm (x : R) (l : list R) :
  Permutation (insert_sorted x l) (x :: l).
Proof.
  induction l as [|y l IH]; simpl; [reflexivity|].
  destruct (Rleb x y); [reflexivity|].
  rewrite IH. apply perm_swap.
Qed.

Lemma np_sort_perm (l : list R) : Permutation (np_sort l) l.
Proof.
  induction l as [|x l IH]; simpl; [reflexivity|].
  rewrite insert_sorted_perm. now constructor.
Qed.

Lemma np_sort_length (l : list R) : length (np_sort l) = length l.
Proof. apply Permutation_length, np_sort_perm. Qed.

Lemma insert_sorted_Sorted (x : R) (l : list R) :
  Sorted Rle l -> Sorted Rle (insert_sorted x l).
Proof.
  induction l as [|y l IH]; simpl; intros Hs.
  - repeat constructor.
  - destruct (Rleb x y) eqn:E.
    + apply Rleb_true in E. constructor; [assumption | now constructor].
    + apply Rleb_false in E. inversion Hs as [|? ? Hs' Hhd]; subst.
      constructor; [now apply IH|].
      destruct l as [|z l]; simpl.
      * constructor; lra.
      * destruct (Rleb x z); constructor; [lra|].
        inversion Hhd; subst; assumption.
Qed.

Lemma np_sort_sorted (l : list R) : StronglySorted Rle (np_sort l).
Proof.
  apply Sorted_StronglySorted; [intros x y z; apply Rle_trans|].
  induction l as [|x l IH]; simpl; [constructor | now apply insert_sorted_Sorted].
Qed.

Lemma sorted_nth (l : list R) :
  StronglySorted Rle l ->
  forall i j, (i <= j < length l)%nat -> nth i l 0 <= nth j l 0.
Proof.
  induction 1 as [|x l Hs IH Hall]; intros i j Hij; simpl in Hij; [lia|].
  destruct i as [|i], j as [|j]; simpl; try lia; try lra.
  - rewrite Forall_forall in Hall. apply Hall, nth_In. lia.
  - apply IH. lia.
Qed.


(** *** The quantiles of a sorted sample of two items or more *)

Section Quantiles.

Variable x : list R.
Hypothesis x_sorted : StronglySorted Rle x.
Hypothesis x_two : (2 <= length x)%nat.

Let N := INR (length x).

Let aleph (p : R) : R := N * p + (0.4 + p * (1 - 0.4 - 0.4)).

Let k (p : R) : Z := Zfloor (clip (aleph p) 1 (N - 1)).

Lemma N_two : 2 <= N.
Proof. unfold N. replace 2 with (INR 2) by (simpl; lra). now apply le_INR. Qed.

Lemma clip_bounds (a lo hi : R) : lo <= hi -> lo <= clip a lo hi <= hi.
Proof.
  intros H. unfold clip. split.
  - apply Rmin_glb; [apply Rmax_r | assumption].
  - apply Rmin_r.
Qed.


Lemma k_range (p : R) : (1 <= k p <= Z.of_nat (length x) - 1)%Z.
Proof.
  pose proof N_two as HN.
  destruct (clip_bounds (aleph p) 1 (N - 1)) as [Hlo Hhi]; [lra|].
  split.
  - apply Zfloor_lub. exact Hlo.
  - pose proof (Zfloor_bound (clip (aleph p) 1 (N - 1))) as [Hfl _].
    fold (k p) in Hfl.
    assert (H : IZR (k p) <= IZR (Z.of_nat (length x) - 1)).
    { rewrite minus_IZR, <- INR_IZR_INZ. fold N. lra. }
    now apply le_IZR.
Qed.


Lemma quantile_at_unfold (p : R) :
  quantile_at x 0.4 0.4 p
  = (1 - clip (aleph p - IZR (k p)) 0 1) * nth (Z.to_nat (k p - 1)) x 0
    + clip (aleph p - IZR (k p)) 0 1 * nth (Z.to_nat (k p)) x 0.
Proof. reflexivity. Qed.

(** A quantile lies between the two neighbours it interpolates. *)
Lemma quantile_at_between (p : R) :
  nth (Z.to_nat (k p - 1)) x 0 <= quantile_at x 0.4 0.4 p
  <= nth (Z.to_nat (k p)) x 0.
Proof.
  rewrite quantile_at_unfold.
  destruct (clip_bounds (aleph p - IZR (k p)) 0 1) as [Hg0 Hg1]; [lra|].
  pose proof (k_range p) as Hk.
  assert (Hx : nth (Z.to_nat (k p - 1)) x 0 <= nth (Z.to_nat (k p)) x 0)
    by (apply sorted_nth; [assumption | lia]).
  split; nra.
Qed.

Lemma quantile_at_bounds (p : R) :
  nth 0 x 0 <= quantile_at x 0.4 0.4 p <= nth (length x - 1) x 0.
Proof.
  destruct (quantile_at_between p) as [Hlo Hhi]. pose proof (k_range p) as Hk.
  split.
  - eapply Rle_trans; [|exact Hlo]. apply sorted_nth; [assumption | lia].
  - eapply Rle_trans; [exact Hhi|]. apply sorted_nth; [assumption | lia].
Qed.


Lemma quantile_at_0 : quantile_at x 0.4 0.4 0 = nth 0 x 0.
Proof.
  pose proof N_two as HN. rewrite quantile_at_unfold.
  assert (Hk : k 0 = 1%Z).
  { unfold k. apply Zfloor_eq. unfold clip, aleph.
    rewrite Rmax_right by lra. rewrite Rmin_left by lra. lra. }
  rewrite Hk. unfold clip, aleph.
  rewrite (Rmax_right _ 0) by lra. rewrite Rmin_left by lra.
  simpl. lra.
Qed.


End Quantiles.

(** *** The quantiles of any non-empty sample *)

Lemma mquantiles_quantile (values prob : list R) :
  values <> [] ->
  mquantiles values prob 0.4 0.4 = map (fun p => Some (Spec.quantile values p)) prob.
Proof.
  intros Hne. unfold mquantiles, Spec.quantile.
  assert (Hlen : length (np_sort values) <> 0%nat)
    by (rewrite np_sort_length; destruct values; [congruence | discriminate]).
  destruct (length (np_sort values)) as [|[|n]]; [congruence | reflexivity | reflexivity].
Qed.

Lemma quantile_bounds (values : list R) (p : R) :
  values <> [] ->
  nth 0 (np_sort values) 0 <= Spec.quantile values p
  <= nth (length values - 1) (np_sort values) 0.
Proof.
  intros Hne. unfold Spec.quantile.
  pose proof (np_sort_length values) as Hlen.
  destruct (length (np_sort values)) as [|[|n]] eqn:E.
  - destruct values; [congruence | discriminate].
  - rewrite <- Hlen. simpl. lra.
  - rewrite <- Hlen, <- E. apply quantile_at_bounds; [apply np_sort_sorted | lia].
Qed.


Lemma quantile_0 (values : list R) :
  values <> [] -> Spec.quantile values 0 = nth 0 (np_sort values) 0.
Proof.
  intros Hne. unfold Spec.quantile.
  pose proof (np_sort_length values) as Hlen.
  destruct (length (np_sort values)) as [|[|n]] eqn:E.
  - destruct values; [congruence | discriminate].
  - reflexivity.
  - apply quantile_at_0. lia.
Qed.




(** *** Evenly spaced fractions *)





(** *** Digitization *)








(** *** What [bin_evenly] does on a non-empty sample *)





(** *** The last boundary, with 1 added in float64 *)


Lemma float_add_one_small (x : R) : Rabs x < 2 ^ 53 -> float_add_one x = x + 1.
Proof.
  intros H. unfold float_add_one. apply Rltb_true in H. now rewrite H.
Qed.





End BinnerFacts.

(** ** Evaluation on concrete inputs *)

(** Decide the comparisons of concrete reals that an evaluation meets. *)
Ltac eval_cmp :=
  repeat match goal with
    | |- context [Rltb ?a ?b] =>
        first [ replace (Rltb a b) with true
                  by (symmetry; apply Rltb_true; unfold Psum.TOLERANCE; lra)
              | replace (Rltb a b) with false
                  by (symmetry; apply Rltb_false; unfold Psum.TOLERANCE; lra) ]
    | |- context [Rleb ?a ?b] =>
        first [ replace (Rleb a b) with true
                  by (symmetry; apply Rleb_true; unfold Psum.TOLERANCE; lra)
              | replace (Rleb a b) with false
                  by (symmetry; apply Rleb_false; unfold Psum.TOLERANCE; lra) ]
    | |- context [Reqb ?a ?b] =>
        first [ replace (Reqb a b) with true
                  by (symmetry; apply Reqb_true; unfold Psum.TOLERANCE; lra)
              | replace (Reqb a b) with false
                  by (symmetry; apply Reqb_false; unfold Psum.TOLERANCE; lra) ]
    end.

Ltac eval_chi2 :=
  unfold Psum.compute_chi2, Psum.degenerate, builtin_max, builtin_min, mask_index, arr_gt,
    np_copy, np_gtb;
  repeat (cbn [length Nat.eqb negb orb map combine filter fst snd bind fold_left
                 np_ltb]; eval_cmp).

(** Check a property of every filter of concrete arrays. *)
Ltac all_filters :=
  unfold Spec.errors_at_least_tolerance; cbn [combine];
  repeat (apply Forall_cons; [cbn [fst snd]; unfold Psum.TOLERANCE; intros; lra|]);
  apply Forall_nil.


(** ** bin_evenly on the values 1..10 *)

Section BinnerExample.

Import Psum Examples.






End BinnerExample.
(** ** Sums over a sequence *)

Section SumFacts.

Lemma Sigma_plus {A : Type} (f g : A -> R) (l : list A) :
  Spec.Sigma (fun a => f a + g a) l = Spec.Sigma f l + Spec.Sigma g l.
Proof. induction l as [|a l IH]; simpl; [lra | rewrite IH; lra]. Qed.

Lemma Sigma_scal {A : Type} (c : R) (f : A -> R) (l : list A) :
  Spec.Sigma (fun a => c * f a) l = c * Spec.Sigma f l.
Proof. induction l as [|a l IH]; simpl; [lra | rewrite IH; lra]. Qed.

Lemma Sigma_zero {A : Type} (l : list A) : Spec.Sigma (fun _ => 0) l = 0.
Proof. induction l as [|a l IH]; simpl; lra. Qed.

Lemma Sigma_map {A B : Type} (g : A -> B) (f : B -> R) (l : list A) :
  Spec.Sigma f (map g l) = Spec.Sigma (fun a => f (g a)) l.
Proof. induction l as [|a l IH]; simpl; [reflexivity | now rewrite IH]. Qed.


Lemma Sigma_const {A : Type} (c : R) (f : A -> R) (l : list A) :
  Spec.Sigma (fun a => f a * c) l = Spec.Sigma f l * c.
Proof. induction l as [|a l IH]; simpl; [lra | rewrite IH; lra]. Qed.

End SumFacts.

(** ** Weighted means and the digits of bin_evenly *)

Section MoreFacts.

Import Psum.




End MoreFacts.

(** ** The cases of the degenerate test *)

Section Chi2Outcomes.

Import Psum.

(** The observed fluxes and their errors fall in exactly one of five
    cases. *)
Lemma degenerate_cases (obs_fluxes obs_errors : list R) :
  obs_fluxes = []
  \/ Spec.max_below_tolerance obs_fluxes
  \/ (Spec.max_at_least_tolerance obs_fluxes
      /\ Forall (fun o => o <= TOLERANCE) obs_fluxes)
  \/ (Spec.some_flux_above_tolerance obs_fluxes
      /\ Spec.min_error_below_tolerance obs_fluxes obs_errors)
  \/ Spec.non_degenerate obs_fluxes obs_errors.
Proof.
  destruct obs_fluxes as [|o os]; [now left | right].
  destruct (Exists_dec (fun o => TOLERANCE < o) (o :: os)
              (fun o => Rlt_dec TOLERANCE o)) as [Hex | Hnex].
  - right; right.
    destruct (Forall_dec (fun p : R * R => TOLERANCE < fst p -> TOLERANCE <= snd p)
                error_large_enough_dec (combine (o :: os) obs_errors))
      as [Hall | Hnall].
    + right. now split.
    + left. split; [exact Hex|].
      apply neg_Forall_Exists_neg in Hnall.
      * unfold Spec.min_error_below_tolerance.
        eapply Exists_impl; [|exact Hnall]. intros [f e] Hp; simpl in *.
        destruct (Rlt_dec TOLERANCE f); [|exfalso; apply Hp; tauto].
        split; [assumption|]. destruct (Rle_dec TOLERANCE e); [tauto | lra].
      * intros p. destruct (Rlt_dec TOLERANCE (fst p)), (Rle_dec TOLERANCE (snd p));
          tauto.
  - assert (Hall : Forall (fun x => x <= TOLERANCE) (o :: os)).
    { apply Forall_forall. intros x Hin.
      destruct (Rle_dec x TOLERANCE); [assumption|].
      exfalso; apply Hnex. apply Exists_exists. exists x; split; [assumption | lra]. }
    destruct (Exists_dec (fun o => TOLERANCE <= o) (o :: os)
                (fun o => Rle_dec TOLERANCE o)) as [Hge | Hnge].
    + right; left. now split.
    + left. split; [discriminate|]. apply Forall_forall. intros x Hin.
      destruct (Rlt_dec x TOLERANCE); [assumption|].
      exfalso; apply Hnge. apply Exists_exists. exists x; split; [assumption | lra].
Qed.

End Chi2Outcomes.


(** ** The Flux Comparator: what the specification states *)

Module FluxComparator.

Import Psum.

(** C2 (degenerate sentinel).  With arrays of one length, when the largest
    observed flux is below the tolerance, or some flux above the tolerance
    has an error below it, [compute_chi2] returns exactly (99, 1, 0); so it
    does for obs = [0,0,0] with any three model fluxes and errors. *)
Theorem degenerate_sentinel :
  (forall model_fluxes obs_fluxes obs_errors,
      length model_fluxes = length obs_fluxes ->
      length obs_fluxes = length obs_errors ->
      Spec.max_below_tolerance obs_fluxes
      \/ Spec.min_error_below_tolerance obs_fluxes obs_errors ->
      compute_chi2 model_fluxes obs_fluxes obs_errors
      = Return (Fin 99, Fin 1, Fin 0))
  /\ (forall m1 m2 m3 e1 e2 e3,
         compute_chi2 [m1; m2; m3] [0; 0; 0] [e1; e2; e3]
         = Return (Fin 99, Fin 1, Fin 0)).
Proof.
  assert (General : forall model_fluxes obs_fluxes obs_errors,
      length model_fluxes = length obs_fluxes ->
      length obs_fluxes = length obs_errors ->
      Spec.max_below_tolerance obs_fluxes
      \/ Spec.min_error_below_tolerance obs_fluxes obs_errors ->
      compute_chi2 model_fluxes obs_fluxes obs_errors
      = Return (Fin 99, Fin 1, Fin 0)).
  { intros m o e H1 H2 Hdeg. apply degenerate_sentinel_general; try assumption.
    destruct Hdeg as [Hmax | Herr].
    - now apply degenerate_max.
    - now apply degenerate_error. }
  split; [exact General|].
  intros. apply General; try reflexivity.
  left. split; [discriminate|].
  repeat constructor; unfold TOLERANCE; lra.
Qed.

Lemma degenerate_sentinel_witness :
  compute_chi2 [3; 1] [5; 2] [1; 0] = Return (Fin 99, Fin 1, Fin 0).
Proof.
  apply (proj1 degenerate_sentinel); try reflexivity.
  right. unfold Spec.min_error_below_tolerance. apply Exists_cons_tl, Exists_cons_hd.
  simpl; unfold TOLERANCE; lra.
Defined.

(** C3 as stated fails on the edge of C1: with the only observed flux
    equal to the tolerance, the largest flux is at least the tolerance and
    no flux above it has an error below it, so the observation is not
    degenerate as the claims word it, and exactly one filter has an error
    above the tolerance; yet [compute_chi2] raises instead of returning
    (0, sum(obs)/sum(model), 1). *)
Lemma single_filter_fit_counterexample :
  length [1] = length [TOLERANCE]
  /\ length [TOLERANCE] = length [1]
  /\ Spec.max_at_least_tolerance [TOLERANCE]
  /\ Spec.errors_at_least_tolerance [TOLERANCE] [1]
  /\ length (Spec.constrained (Spec.filters [1] [TOLERANCE] [1])) = 1%nat
  /\ compute_chi2 [1] [TOLERANCE] [1]
     = Raise (ValueError "min() arg is an empty sequence")
  /\ ~ returns (compute_chi2 [1] [TOLERANCE] [1]).
Proof.
  assert (Hraise : compute_chi2 [1] [TOLERANCE] [1]
                   = Raise (ValueError "min() arg is an empty sequence")).
  { rewrite compute_chi2_steps by reflexivity.
    rewrite degenerate_raises; [reflexivity | apply Exists_cons_hd; lra |].
    repeat constructor; lra. }
  repeat split.
  - apply Exists_cons_hd; lra.
  - all_filters.
  - unfold Spec.constrained, Spec.filters.
    cbn [combine map filter fst snd Spec.error]. eval_cmp. reflexivity.
  - exact Hraise.
  - intros [t Ht]. rewrite Hraise in Ht. discriminate.
Qed.

(** C3 (no degree of freedom), amended.  With arrays of one length that are
    not degenerate (some observed flux is strictly above the tolerance, and
    no flux above it has an error below it), when exactly one filter has an
    error above the tolerance, [compute_chi2] returns reduced_chi2 = 0,
    normalization_factor = sum(obs)/sum(model) over that filter and
    probability = 1; model = [2.0], obs = [4.0], error = [0.5] gives
    (0, 2.0, 1). *)
Theorem single_filter_fit :
  (forall model_fluxes obs_fluxes obs_errors,
      length model_fluxes = length obs_fluxes ->
      length obs_fluxes = length obs_errors ->
      Spec.non_degenerate obs_fluxes obs_errors ->
      length (Spec.constrained
                (Spec.filters model_fluxes obs_fluxes obs_errors)) = 1%nat ->
      compute_chi2 model_fluxes obs_fluxes obs_errors
      = Return (Fin 0,
                np_div (Fin (Spec.Sigma Spec.obs
                               (Spec.constrained
                                  (Spec.filters model_fluxes obs_fluxes obs_errors))))
                       (Fin (Spec.Sigma Spec.model
                               (Spec.constrained
                                  (Spec.filters model_fluxes obs_fluxes obs_errors)))),
                Fin 1))
  /\ compute_chi2 [2] [4] [0.5] = Return (Fin 0, Fin 2, Fin 1).
Proof.
  split.
  - intros m o e H1 H2 [Hflux Herr] Hone. rewrite compute_chi2_steps by assumption.
    rewrite degenerate_false by assumption. cbn [bind].
    destruct (Spec.constrained (Spec.filters m o e)) as [|f [|f' fs]];
      try discriminate. reflexivity.
  - rewrite compute_chi2_steps by reflexivity.
    rewrite degenerate_false;
      [| reflexivity
       | apply Exists_cons_hd; unfold TOLERANCE; lra
       | all_filters ].
    unfold Spec.constrained, Spec.filters.
    cbn [bind combine map filter fst snd Spec.error]. eval_cmp.
    cbn [Spec.Sigma fold_right Spec.obs Spec.model].
    rewrite np_div_Fin by lra.
    replace ((4 + 0) / (2 + 0)) with 2 by lra. reflexivity.
Qed.

Lemma single_filter_fit_witness :
  compute_chi2 [3; 5] [6; 0] [1; 0]
  = Return (Fin 0,
            np_div (Fin (Spec.Sigma Spec.obs
                           (Spec.constrained (Spec.filters [3; 5] [6; 0] [1; 0]))))
                   (Fin (Spec.Sigma Spec.model
                           (Spec.constrained (Spec.filters [3; 5] [6; 0] [1; 0])))),
            Fin 1).
Proof.
  apply (proj1 single_filter_fit); try reflexivity.
  - split; [ apply Exists_cons_hd; unfold TOLERANCE; lra
           | all_filters ].
  - unfold Spec.constrained, Spec.filters.
    cbn [combine map filter fst snd Spec.error]. eval_cmp. reflexivity.
Defined.

(** Evaluate the constrained filters of concrete arrays. *)
Ltac eval_constrained :=
  unfold Spec.constrained, Spec.filters;
  cbn [combine map filter fst snd Spec.error]; eval_cmp;
  cbn [combine map filter fst snd Spec.error].

(** C1 as stated fails on an edge: with the largest observed flux equal to
    the tolerance no flux is above it, so every error among the fluxes above
    tolerance is vacuously large enough and two filters are constrained, yet
    the degenerate test raises instead of returning a fit. *)
Lemma general_case_counterexample :
  length [1; 1] = length [TOLERANCE; TOLERANCE]
  /\ length [TOLERANCE; TOLERANCE] = length [1; 1]
  /\ Spec.max_at_least_tolerance [TOLERANCE; TOLERANCE]
  /\ Spec.errors_at_least_tolerance [TOLERANCE; TOLERANCE] [1; 1]
  /\ Z.lt 0 (Spec.degrees_of_freedom
               (Spec.constrained
                  (Spec.filters [1; 1] [TOLERANCE; TOLERANCE] [1; 1])))
  /\ compute_chi2 [1; 1] [TOLERANCE; TOLERANCE] [1; 1]
     = Raise (ValueError "min() arg is an empty sequence").
Proof.
  repeat split.
  - apply Exists_cons_hd; lra.
  - all_filters.
  - eval_constrained. reflexivity.
  - rewrite compute_chi2_steps by reflexivity.
    rewrite degenerate_raises; [reflexivity | apply Exists_cons_hd; lra |].
    repeat constructor; lra.
Qed.

(** C1 (general case), amended.  With arrays of one length that are not
    degenerate (some observed flux is strictly above the tolerance and every
    error among the fluxes above tolerance is at least the tolerance), when
    the filters whose error exceeds the tolerance, restricted in lockstep,
    leave a positive number of degrees of freedom, [compute_chi2] returns
    normalization_factor = Σ(obs·model)/Σ(model²),
    reduced_chi2 = min(chi2/degrees_of_freedom, 99) with
    chi2 = Σ((obs − normalization_factor·model)/error)², and
    probability = exp(−chi2/2) from the uncapped chi2.  When Σ(model²) is
    not zero the three are the finite real numbers of these formulas. *)
Theorem general_case (model_fluxes obs_fluxes obs_errors : list R) :
  length model_fluxes = length obs_fluxes ->
  length obs_fluxes = length obs_errors ->
  Spec.non_degenerate obs_fluxes obs_errors ->
  (0 < Spec.degrees_of_freedom
         (Spec.constrained
            (Spec.filters model_fluxes obs_fluxes obs_errors)))%Z ->
  let fs := Spec.constrained (Spec.filters model_fluxes obs_fluxes obs_errors) in
  compute_chi2 model_fluxes obs_fluxes obs_errors
  = Return (Spec.reduced_chi2 fs, Spec.normalization_factor fs, Spec.probability fs)
  /\ (Spec.Sigma (fun f => Spec.model f * Spec.model f) fs <> 0 ->
      compute_chi2 model_fluxes obs_fluxes obs_errors
      = Return (Fin (Rmin (Spec.chi2_R fs / IZR (Spec.degrees_of_freedom fs)) 99),
                Fin (Spec.normalization_factor_R fs),
                Fin (exp (- Spec.chi2_R fs / 2)))).
Proof.
  intros H1 H2 [Hflux Herr] Hdof fs.
  assert (Hret : compute_chi2 model_fluxes obs_fluxes obs_errors
                 = Return (Spec.reduced_chi2 fs, Spec.normalization_factor fs,
                           Spec.probability fs)).
  { rewrite compute_chi2_steps by assumption.
    rewrite degenerate_false by assumption. cbn [bind]. fold fs. fold fs in Hdof.
    unfold Spec.degrees_of_freedom in Hdof.
    destruct fs as [|f [|f' fs']]; cbn [length] in Hdof; try lia. reflexivity. }
  split; [exact Hret|].
  intros Hden. rewrite Hret.
  assert (Hne0 : forall f, In f fs -> Spec.error f <> 0).
  { intros f Hf. apply constrained_error in Hf. pose proof TOLERANCE_pos. lra. }
  destruct (fit_finite fs Hne0 Hden) as [-> _].
  destruct (fit_finite_results fs Hne0 Hden) as [-> ->]; [fold fs in Hdof; lia|].
  reflexivity.
Qed.

Lemma general_case_witness :
  Spec.non_degenerate [2; 4] [1; 1]
  /\ compute_chi2 [1; 2] [2; 4] [1; 1] = Return (Fin 0, Fin 2, Fin 1).
Proof.
  assert (Hnd : Spec.non_degenerate [2; 4] [1; 1]).
  { split; [apply Exists_cons_hd; unfold TOLERANCE; lra | all_filters]. }
  split; [exact Hnd|].
  assert (Hfs : Spec.constrained (Spec.filters [1; 2] [2; 4] [1; 1])
                = [Spec.Filter 1 2 1; Spec.Filter 2 4 1]) by (eval_constrained; reflexivity).
  assert (Hdof : Z.lt 0 (Spec.degrees_of_freedom
                           (Spec.constrained (Spec.filters [1; 2] [2; 4] [1; 1]))))
    by (rewrite Hfs; reflexivity).
  destruct (general_case [1; 2] [2; 4] [1; 1] eq_refl eq_refl Hnd Hdof) as [_ Hfin].
  rewrite Hfin.
  - rewrite Hfs.
    assert (Hnf : Spec.normalization_factor_R [Spec.Filter 1 2 1; Spec.Filter 2 4 1] = 2)
      by (unfold Spec.normalization_factor_R; cbn; lra).
    assert (Hchi : Spec.chi2_R [Spec.Filter 1 2 1; Spec.Filter 2 4 1] = 0)
      by (unfold Spec.chi2_R; rewrite Hnf; cbn; unfold Rsqr; lra).
    rewrite Hnf, Hchi.
    change (Spec.degrees_of_freedom [Spec.Filter 1 2 1; Spec.Filter 2 4 1]) with 1%Z.
    replace (0 / 1) with 0 by lra.
    replace (- 0 / 2) with 0 by lra. rewrite exp_0.
    rewrite Rmin_left by lra. reflexivity.
  - rewrite Hfs. cbn. lra.
Defined.

(** C4 as stated fails twice.  An error above the tolerance and a flux
    above the tolerance do not exclude the degenerate case, whose
    probability is 0, outside (0, 1]; nor a model that is zero on every
    filter, for which the three results are NaN and lie in no interval. *)
Lemma fit_ranges_counterexample :
  (length [1; 1] = length [1; 1]
   /\ Exists (fun e => TOLERANCE < e) [1; 0]
   /\ Exists (fun o => TOLERANCE < o) [1; 1]
   /\ compute_chi2 [1; 1] [1; 1] [1; 0] = Return (Fin 99, Fin 1, Fin 0)
   /\ ~ (exists r nf p,
            compute_chi2 [1; 1] [1; 1] [1; 0] = Return (Fin r, nf, Fin p)
            /\ 0 <= r <= 99 /\ 0 < p <= 1))
  /\ (length [0; 0] = length [1; 1]
      /\ Exists (fun e => TOLERANCE < e) [1; 1]
      /\ Exists (fun o => TOLERANCE < o) [1; 1]
      /\ compute_chi2 [0; 0] [1; 1] [1; 1] = Return (NaN, NaN, NaN)
      /\ ~ (exists r nf p,
               compute_chi2 [0; 0] [1; 1] [1; 1] = Return (Fin r, nf, Fin p))).
Proof.
  assert (Hval : compute_chi2 [1; 1] [1; 1] [1; 0] = Return (Fin 99, Fin 1, Fin 0)).
  { apply degenerate_sentinel_general; try reflexivity.
    apply degenerate_error.
    apply Exists_cons_tl, Exists_cons_hd. simpl; unfold TOLERANCE; lra. }
  assert (Hnan : compute_chi2 [0; 0] [1; 1] [1; 1] = Return (NaN, NaN, NaN)).
  { rewrite compute_chi2_steps by reflexivity.
    rewrite degenerate_false;
      [| reflexivity | apply Exists_cons_hd; unfold TOLERANCE; lra | all_filters ].
    cbn [bind].
    assert (Hfs : Spec.constrained (Spec.filters [0; 0] [1; 1] [1; 1])
                  = [Spec.Filter 0 1 1; Spec.Filter 0 1 1])
      by (eval_constrained; reflexivity).
    rewrite Hfs.
    destruct (fit_zero_model [Spec.Filter 0 1 1; Spec.Filter 0 1 1])
      as (-> & -> & ->); [discriminate | cbn; lra | reflexivity]. }
  split.
  - repeat split; try (apply Exists_cons_hd; unfold TOLERANCE; lra); [exact Hval|].
    intros (r & nf & p & Heq & _ & Hp). rewrite Hval in Heq.
    injection Heq as _ _ Hp0. lra.
  - repeat split; try (apply Exists_cons_hd; unfold TOLERANCE; lra); [exact Hnan|].
    intros (r & nf & p & Heq). rewrite Hnan in Heq. discriminate.
Qed.

(** C4 (ranges of the results), amended.  With arrays of one length that
    hold an error above the tolerance and an observed flux above the
    tolerance, in which, when the observation is not degenerate and two or
    more filters have an error above the tolerance, the model fluxes of
    these filters are not all zero (the fit would be NaN), [compute_chi2]
    returns reduced_chi2 in [0, 99] and probability in the closed interval
    [0, 1]; the degenerate case is within it, with the probability 0 of the
    sentinel (99, 1, 0). *)
Theorem fit_ranges (model_fluxes obs_fluxes obs_errors : list R) :
  length model_fluxes = length obs_fluxes ->
  length obs_fluxes = length obs_errors ->
  Exists (fun e => TOLERANCE < e) obs_errors ->
  Exists (fun o => TOLERANCE < o) obs_fluxes ->
  (Spec.non_degenerate obs_fluxes obs_errors ->
   (0 < Spec.degrees_of_freedom
          (Spec.constrained
             (Spec.filters model_fluxes obs_fluxes obs_errors)))%Z ->
   Exists (fun f => Spec.model f <> 0)
          (Spec.constrained
             (Spec.filters model_fluxes obs_fluxes obs_errors))) ->
  (exists r nf p,
      compute_chi2 model_fluxes obs_fluxes obs_errors = Return (Fin r, nf, Fin p)
      /\ 0 <= r <= 99 /\ 0 <= p <= 1)
  /\ (Spec.min_error_below_tolerance obs_fluxes obs_errors ->
      compute_chi2 model_fluxes obs_fluxes obs_errors
      = Return (Fin 99, Fin 1, Fin 0)).
Proof.
  intros H1 H2 Herr Hflux Hmodel.
  assert (Hsentinel : Spec.min_error_below_tolerance obs_fluxes obs_errors ->
                      compute_chi2 model_fluxes obs_fluxes obs_errors
                      = Return (Fin 99, Fin 1, Fin 0)).
  { intros Hlow. apply degenerate_sentinel_general; try assumption.
    now apply degenerate_error. }
  split; [|exact Hsentinel].
  destruct (degenerate_cases obs_fluxes obs_errors)
    as [Hnil | [[_ Hbelow] | [[_ Hall] | [[_ Hlow] | Hnd]]]].
  - subst. inversion Hflux.
  - exfalso. apply Exists_exists in Hflux as (o & Ho & Hlt).
    rewrite Forall_forall in Hbelow. specialize (Hbelow o Ho). lra.
  - exfalso. apply Exists_exists in Hflux as (o & Ho & Hlt).
    rewrite Forall_forall in Hall. specialize (Hall o Ho). lra.
  - rewrite (Hsentinel Hlow). exists 99, (Fin 1), 0. split; [reflexivity | lra].
  - specialize (Hmodel Hnd). destruct Hnd as [Hf Hall].
    pose proof (constrained_nonempty _ _ _ H1 H2 Herr) as Hne.
    rewrite compute_chi2_steps by assumption.
    rewrite degenerate_false by assumption. cbn [bind].
    set (fs := Spec.constrained (Spec.filters model_fluxes obs_fluxes obs_errors)) in *.
    destruct fs as [|f [|f' fs']] eqn:Efs; [congruence | |].
    + eexists 0, _, 1. split; [reflexivity | lra].
    + rewrite <- Efs in *.
      assert (Hdof : (0 < Spec.degrees_of_freedom fs)%Z)
        by (rewrite Efs; unfold Spec.degrees_of_freedom; cbn [length]; lia).
      assert (Hden : Spec.Sigma (fun f => Spec.model f * Spec.model f) fs <> 0).
      { intros Hz. specialize (Hmodel Hdof).
        apply Exists_exists in Hmodel as (g & Hg & Hg0).
        assert (H := Sigma_zero_all (fun f => Spec.model f * Spec.model f) fs
                       (fun a _ => Rle_0_sqr (Spec.model a)) Hz g Hg).
        simpl in H. apply Hg0. nra. }
      assert (Hne0 : forall f, In f fs -> Spec.error f <> 0).
      { intros g Hg. apply constrained_error in Hg. pose proof TOLERANCE_pos. lra. }
      destruct (fit_finite_results fs Hne0 Hden) as [-> ->]; [lia|].
      eexists _, _, _. split; [reflexivity|].
      pose proof (chi2_R_nonneg fs) as Hchi.
      assert (Hd : 0 < IZR (Spec.degrees_of_freedom fs)) by now apply IZR_lt.
      split; split.
      * apply Rmin_glb; [|lra]. apply Rmult_le_pos; [exact Hchi|].
        left. now apply Rinv_0_lt_compat.
      * apply Rmin_r.
      * left. apply exp_pos.
      * apply exp_nonpos_le_1. lra.
Qed.

Lemma fit_ranges_witness :
  (exists r nf p,
      compute_chi2 [1; 2] [2; 5] [1; 0] = Return (Fin r, nf, Fin p)
      /\ 0 <= r <= 99 /\ 0 <= p <= 1)
  /\ (Spec.min_error_below_tolerance [2; 5] [1; 0] ->
      compute_chi2 [1; 2] [2; 5] [1; 0] = Return (Fin 99, Fin 1, Fin 0)).
Proof.
  apply fit_ranges; try reflexivity.
  - apply Exists_cons_hd; unfold TOLERANCE; lra.
  - apply Exists_cons_hd; unfold TOLERANCE; lra.
  - intros _ _. eval_constrained. apply Exists_cons_hd. cbn; lra.
Defined.

(** C10 (the degenerate test is total).  The code breaks it: with the
    largest observed flux equal to the tolerance, the arrays are non-empty,
    of one length, some observed flux is at or above the tolerance, and the
    evaluation of the test raises the [ValueError] of [min] over an empty
    selection, which is not the length-mismatch error. *)
Theorem degenerate_test_raises_at_tolerance :
  length [1] = length [TOLERANCE]
  /\ length [TOLERANCE] = length [1]
  /\ Spec.max_at_least_tolerance [TOLERANCE]
  /\ degenerate (np_copy [TOLERANCE]) (np_copy [1])
     = Raise (ValueError "min() arg is an empty sequence")
  /\ compute_chi2 [1] [TOLERANCE] [1]
     = Raise (ValueError "min() arg is an empty sequence")
  /\ ValueError "min() arg is an empty sequence" <> length_mismatch3.
Proof.
  assert (Hmax : Spec.max_at_least_tolerance [TOLERANCE])
    by (apply Exists_cons_hd; lra).
  assert (Hall : Forall (fun o => o <= TOLERANCE) [TOLERANCE])
    by (repeat constructor; lra).
  repeat split; try exact Hmax.
  - now apply degenerate_raises.
  - rewrite compute_chi2_steps by reflexivity.
    now rewrite degenerate_raises.
  - discriminate.
Qed.

(** Past the degenerate test one more input raises: when no error exceeds
    the tolerance the two sums are the [int] 0 and their quotient raises. *)
Lemma no_constrained_filter_raises :
  compute_chi2 [1] [1] [TOLERANCE] = Raise (ZeroDivisionError "division by zero").
Proof.
  rewrite compute_chi2_steps by reflexivity.
  rewrite degenerate_false;
    [| reflexivity | apply Exists_cons_hd; unfold TOLERANCE; lra | all_filters ].
  eval_constrained. reflexivity.
Qed.

End FluxComparator.

(** ** Weighted Statistics: what the specification states *)

Module WeightedStatistics.

Import Psum.

(** C6 (weighted mean and standard deviation).  For values and
    non-negative weights of one length with Σw > 0, [w_mean_sigma] returns
    weighted_mean = Σ(w·v)/Σw and weighted_std = sqrt(Σ(w·(v−mean)²)/Σw);
    values = [1,2,3] with weights = [1,1,1] give mean 2 and std
    sqrt(2/3). *)
Theorem weighted_mean_and_std :
  (forall values weights,
      length values = length weights ->
      Forall (fun w => 0 <= w) weights ->
      0 < Spec.Sigma snd (combine values weights) ->
      w_mean_sigma values weights
      = Return (Fin (Spec.weighted_mean (combine values weights)),
                Fin (Spec.weighted_std (combine values weights))))
  /\ w_mean_sigma [1; 2; 3] [1; 1; 1] = Return (Fin 2, Fin (sqrt (2 / 3))).
Proof.
  assert (General : forall values weights,
      length values = length weights ->
      Forall (fun w => 0 <= w) weights ->
      0 < Spec.Sigma snd (combine values weights) ->
      w_mean_sigma values weights
      = Return (Fin (Spec.weighted_mean (combine values weights)),
                Fin (Spec.weighted_std (combine values weights)))).
  { intros vs ws Hlen Hpos Hsum.
    rewrite w_mean_sigma_steps by (assumption || lra).
    cbn [np_sqrt].
    match goal with |- context [Rltb ?v 0] => assert (Hv : Rltb v 0 = false) end.
    { apply Rltb_false. apply Rmult_le_pos.
      - apply Sigma_nonneg. intros [v w] Hin. cbn [fst snd].
        apply Rmult_le_pos; [|apply Rle_0_sqr].
        rewrite Forall_forall in Hpos. apply Hpos. now apply in_combine_r in Hin.
      - left. now apply Rinv_0_lt_compat. }
    rewrite Hv. reflexivity. }
  split; [exact General|].
  rewrite General.
  - unfold Spec.weighted_std.
    assert (Hmean : Spec.weighted_mean (combine [1; 2; 3] [1; 1; 1]) = 2)
      by (unfold Spec.weighted_mean; cbn; lra).
    rewrite Hmean. do 4 f_equal. cbn. unfold Rsqr. lra.
  - reflexivity.
  - repeat constructor; lra.
  - cbn. lra.
Qed.

Lemma weighted_mean_and_std_witness :
  w_mean_sigma [4; 8] [1; 3]
  = Return (Fin (Spec.weighted_mean (combine [4; 8] [1; 3])),
            Fin (Spec.weighted_std (combine [4; 8] [1; 3]))).
Proof.
  apply (proj1 weighted_mean_and_std).
  - reflexivity.
  - repeat constructor; lra.
  - cbn. lra.
Defined.

(** C7 (zero total weight).  When the weights sum to zero, and so when
    they are all zero, [w_mean_sigma] raises: the ZeroDivisionError of
    [numpy.average] for weights as many as the values, its TypeError
    otherwise; it never returns a NaN. *)
Theorem zero_total_weight_raises :
  (forall values weights,
      Spec.Sigma (fun w => w) weights = 0 ->
      raises (w_mean_sigma values weights)
      /\ (length values = length weights ->
          w_mean_sigma values weights
          = Raise (ZeroDivisionError "Weights sum to zero, can't be normalized")))
  /\ (forall values weights,
         Forall (fun w => w = 0) weights ->
         raises (w_mean_sigma values weights)).
Proof.
  assert (General : forall values weights,
      Spec.Sigma (fun w => w) weights = 0 ->
      raises (w_mean_sigma values weights)
      /\ (length values = length weights ->
          w_mean_sigma values weights
          = Raise (ZeroDivisionError "Weights sum to zero, can't be normalized"))).
  { intros vs ws Hz.
    assert (Heq : length vs = length ws ->
                  w_mean_sigma vs ws
                  = Raise (ZeroDivisionError "Weights sum to zero, can't be normalized")).
    { intros Hlen. unfold w_mean_sigma. rewrite np_average_copy by assumption.
      rewrite (Sigma_snd_combine vs ws Hlen), Hz.
      assert (H0 : Reqb 0 0 = true) by now apply Reqb_true.
      now rewrite H0. }
    split; [|exact Heq].
    destruct (Nat.eq_dec (length vs) (length ws)) as [Hlen | Hlen].
    - eexists. now apply Heq.
    - unfold w_mean_sigma, np_average, np_copy. rewrite !length_map.
      apply Nat.eqb_neq in Hlen. rewrite Hlen. cbn. eexists; reflexivity. }
  split; [exact General|].
  intros vs ws Hall. apply General.
  induction Hall as [|w ws Hw _ IH]; simpl; [reflexivity | lra].
Qed.

Lemma zero_total_weight_raises_witness :
  raises (w_mean_sigma [1; 2; 3] [0; 0; 0])
  /\ w_mean_sigma [1; 2] [1; -1]
     = Raise (ZeroDivisionError "Weights sum to zero, can't be normalized").
Proof.
  split.
  - apply (proj2 zero_total_weight_raises). repeat constructor.
  - apply (proj1 zero_total_weight_raises); [cbn; lra | reflexivity].
Defined.

End WeightedStatistics.

(** ** Error Adjuster: what the specification states *)

Module ErrorAdjuster.

Import Psum.

(** C5 (Error Adjuster).  Called with the default factors on a flux array
    and an error array, [adjust_errors] raises the length-mismatch error
    when the two differ in length; otherwise it returns a new array, as
    long as the inputs, in which each raw error below the tolerance has
    first become 0.1 times that same error and every error e has then
    become sqrt(e² + (flux · 0.1)²); every array the caller holds, the two
    arguments among them, is left as it was. *)
Theorem error_adjuster (h : heap) (flux error : ref) (fluxes errors : list R) :
  nth_error h flux = Some (np_copy fluxes) ->
  nth_error h error = Some (np_copy errors) ->
  (length fluxes <> length errors ->
   adjust_errors flux error default_error_default systematic_deviation_default h
   = Raise (ValueError "The flux and error arrays must have the same length."))
  /\ (length fluxes = length errors ->
      exists adjusted h',
        adjust_errors flux error default_error_default systematic_deviation_default h
        = Return (adjusted, h')
        /\ nth_error h' adjusted
           = Some (np_copy (Spec.adjusted_errors 0.1 0.1 fluxes errors))
        /\ length (Spec.adjusted_errors 0.1 0.1 fluxes errors) = length errors
        /\ (forall i f e,
               nth_error fluxes i = Some f -> nth_error errors i = Some e ->
               nth_error (Spec.adjusted_errors 0.1 0.1 fluxes errors) i
               = Some (sqrt (Rsqr (if Rltb e TOLERANCE then 0.1 * e else e)
                             + Rsqr (f * 0.1))))
        /\ (forall r, (r < length h)%nat -> nth_error h' r = nth_error h r)).
Proof.
  intros Hflux Herror.
  rewrite (adjust_errors_steps h flux error fluxes errors _ _ Hflux Herror).
  split; intros Hlen.
  - apply Nat.eqb_neq in Hlen. now rewrite Hlen.
  - rewrite Hlen, Nat.eqb_refl. eexists _, _. split; [reflexivity|].
    repeat split.
    + rewrite app_assoc.
      replace (S (length h))
        with (length (h ++ [np_copy (map (fun e => if Rltb e TOLERANCE
                                                   then default_error_default * e
                                                   else e) errors)]))
        by (rewrite length_app; simpl; lia).
      apply nth_error_app_last.
    + unfold Spec.adjusted_errors. rewrite length_map, length_combine. lia.
    + intros i f e Hf He. unfold Spec.adjusted_errors.
      rewrite nth_error_map.
      assert (Hc : nth_error (combine fluxes errors) i = Some (f, e)).
      { clear - Hf He. revert errors i Hf He.
        induction fluxes as [|x xs IH]; intros [|y ys] [|i]; simpl; intros Hf He;
          try discriminate; [congruence | eauto]. }
      rewrite Hc. reflexivity.
    + intros r Hr. now rewrite nth_error_app1.
Qed.

Lemma error_adjuster_witness :
  exists adjusted h',
    adjust_errors 0%nat 1%nat default_error_default systematic_deviation_default
                  [np_copy [10; 20]; np_copy [3; 0]]
    = Return (adjusted, h')
    /\ nth_error h' adjusted
       = Some (np_copy (Spec.adjusted_errors 0.1 0.1 [10; 20] [3; 0]))
    /\ nth_error h' 0%nat = Some (np_copy [10; 20])
    /\ nth_error h' 1%nat = Some (np_copy [3; 0]).
Proof.
  destruct (error_adjuster [np_copy [10; 20]; np_copy [3; 0]] 0%nat 1%nat
                           [10; 20] [3; 0] eq_refl eq_refl) as [_ Hok].
  destruct (Hok eq_refl) as (adjusted & h' & Hrun & Hres & _ & _ & Hkeep).
  exists adjusted, h'. repeat split; try assumption.
  - rewrite Hkeep by (simpl; lia). reflexivity.
  - rewrite Hkeep by (simpl; lia). reflexivity.
Defined.

(** An error of exactly zero stays zero before the systematic term is
    added: the default error factor scales, it does not substitute. *)
Lemma zero_error_is_scaled (f : R) :
  Spec.adjusted_error 0.1 0.1 (f, 0) = sqrt (Rsqr (f * 0.1)).
Proof.
  unfold Spec.adjusted_error; cbn [fst snd].
  assert (H : Rltb 0 TOLERANCE = true) by (apply Rltb_true, TOLERANCE_pos).
  rewrite H. f_equal. unfold Rsqr. lra.
Qed.

End ErrorAdjuster.

(** ** Kernel-density PDF: what the specification states *)

Module KernelDensity.

Import PdfUtils.

Section Policy.

Variable gaussian_kde : list R -> list R -> result (list R).

(** C9 (kernel-density policy).  [gen_pdf] pools each value replicated
    round(probability × 100) times, a value whose rounded weight is 0 left
    out, the rounded weight being an integer nearest to probability × 100;
    when the density fit over the pooled sample fails numerically (a
    LinAlgError or a ValueError) it returns None instead of raising, and
    otherwise the fitted density; in [save_pdf] a variable whose PDF is None
    is reported by a printed line and the loop goes on with the variables
    that remain. *)
Theorem kernel_density_policy :
  (forall values probabilities grid,
      length values = length probabilities ->
      combine_values (map Some values) 0
                     (map (fun p => np_around (100 * p)) probabilities) []
      = Return (Spec.pooled_sample values probabilities)
      /\ Forall (fun p => Rabs (100 * p - IZR (Spec.integer_weight p)) <= 1 / 2)
                probabilities
      /\ (Spec.fails_numerically
            (gaussian_kde (Spec.pooled_sample values probabilities) grid) ->
          gen_pdf gaussian_kde (map Some values) probabilities grid = Return None)
      /\ (forall density,
             gaussian_kde (Spec.pooled_sample values probabilities) grid
             = Return density ->
             gen_pdf gaussian_kde (map Some values) probabilities grid
             = Return (Some density)))
  /\ (forall obsid var_index var_name rest model_variables likelihood values lo hi,
         nth_error model_variables var_index = Some values ->
         length values = length likelihood ->
         arr_min values = Return lo ->
         arr_max values = Return hi ->
         Spec.fails_numerically
           (gaussian_kde (Spec.pooled_sample values likelihood)
                         (np_linspace lo hi PDF_NB_POINTS)) ->
         save_pdf_from gaussian_kde obsid var_index (var_name :: rest)
                       model_variables likelihood
         = outs <- save_pdf_from gaussian_kde obsid (S var_index) rest
                                  model_variables likelihood ;;
           Return (Printed (cannot_compute obsid var_name) :: outs)).
Proof.
  assert (Hpool : forall values probabilities,
             length values = length probabilities ->
             combine_values (map Some values) 0
                            (map (fun p => np_around (100 * p)) probabilities) []
             = Return (Spec.pooled_sample values probabilities)).
  { intros vs ps Hlen.
    exact (combine_values_pooled vs ps [] [] Hlen). }
  assert (Hnone : forall values probabilities grid,
             length values = length probabilities ->
             Spec.fails_numerically
               (gaussian_kde (Spec.pooled_sample values probabilities) grid) ->
             gen_pdf gaussian_kde (map Some values) probabilities grid = Return None).
  { intros vs ps grid Hlen (msg & [Hfail | Hfail]); unfold gen_pdf;
      rewrite Hpool by assumption; cbn [bind]; now rewrite Hfail. }
  split.
  - intros vs ps grid Hlen. repeat split.
    + now apply Hpool.
    + apply Forall_forall. intros p _. apply np_around_nearest.
    + now apply Hnone.
    + intros density Hfit. unfold gen_pdf. rewrite Hpool by assumption.
      cbn [bind]. now rewrite Hfit.
  - intros obsid i name rest cols lik vs lo hi Hcol Hlen Hlo Hhi Hfail.
    cbn [save_pdf_from]. unfold save_one_pdf.
    rewrite Hcol, Hlo, Hhi. cbn [bind].
    rewrite Hnone by assumption. cbn [bind]. reflexivity.
Qed.

End Policy.

Import Examples.

Lemma kernel_density_policy_witness :
  gen_pdf toy_kde [Some 5; Some 7] [0.004; 0.011] [5; 7] = Return None
  /\ save_pdf toy_kde "obs1" ["sfr"%string] [[5; 7]] [0.004; 0.011]
     = Return [Printed (cannot_compute "obs1" "sfr")].
Proof.
  assert (Hw0 : Spec.integer_weight 0.004 = 0%Z).
  { unfold Spec.integer_weight, np_around.
    assert (Hf : Zfloor (100 * 0.004) = 0%Z) by (apply Zfloor_eq; simpl; lra).
    rewrite Hf. simpl IZR.
    assert (H : Rltb (100 * 0.004 - 0) (1 / 2) = true) by (apply Rltb_true; lra).
    now rewrite H. }
  assert (Hw1 : Spec.integer_weight 0.011 = 1%Z).
  { unfold Spec.integer_weight, np_around.
    assert (Hf : Zfloor (100 * 0.011) = 1%Z) by (apply Zfloor_eq; simpl; lra).
    rewrite Hf. simpl IZR.
    assert (H : Rltb (100 * 0.011 - 1) (1 / 2) = true) by (apply Rltb_true; lra).
    now rewrite H. }
  assert (Hpooled : Spec.pooled_sample [5; 7] [0.004; 0.011] = [7]).
  { unfold Spec.pooled_sample. cbn [combine filter fst snd].
    rewrite Hw0, Hw1. cbn [Z.eqb negb flat_map fst snd]. rewrite Hw1. reflexivity. }
  assert (Hfail : forall grid,
             Spec.fails_numerically
               (toy_kde (Spec.pooled_sample [5; 7] [0.004; 0.011]) grid)).
  { intros grid. rewrite Hpooled. exists "singular matrix"%string. now left. }
  destruct (kernel_density_policy toy_kde) as [Hgen Hsave].
  split.
  - destruct (Hgen [5; 7] [0.004; 0.011] [5; 7] eq_refl) as (_ & _ & Hnone & _).
    apply Hnone, Hfail.
  - unfold save_pdf.
    rewrite (Hsave "obs1"%string 0%nat "sfr"%string [] [[5; 7]] [0.004; 0.011]
                   [5; 7] _ _ eq_refl eq_refl eq_refl eq_refl (Hfail _)).
    reflexivity.
Defined.

End KernelDensity.

(** ** Binner: what the specification states *)

Module Binner.

Import Psum.




End Binner.

(** ** More on compute_chi2 *)

Module FluxComparatorMore.

Import Psum.

(** X1.  [compute_chi2] returns a triple exactly when the three arrays have
    one length and either the observation is degenerate (largest flux below
    the tolerance, or a flux above it with an error below it) or it is not
    degenerate and some error exceeds the tolerance; on every other input it
    raises. *)
Theorem compute_chi2_returns_iff (model_fluxes obs_fluxes obs_errors : list R) :
  returns (compute_chi2 model_fluxes obs_fluxes obs_errors)
  <-> length model_fluxes = length obs_fluxes
      /\ length obs_fluxes = length obs_errors
      /\ (Spec.max_below_tolerance obs_fluxes
          \/ Spec.min_error_below_tolerance obs_fluxes obs_errors
          \/ (Spec.non_degenerate obs_fluxes obs_errors
              /\ Exists (fun e => TOLERANCE < e) obs_errors)).
Proof.
  split.
  - intros [t Ht].
    destruct (Nat.eq_dec (length model_fluxes) (length obs_fluxes)) as [H1 | H1];
      [|unfold compute_chi2 in Ht; apply Nat.eqb_neq in H1; rewrite H1 in Ht;
        discriminate].
    destruct (Nat.eq_dec (length obs_fluxes) (length obs_errors)) as [H2 | H2];
      [|unfold compute_chi2 in Ht; apply Nat.eqb_neq in H2; rewrite H2 in Ht;
        rewrite orb_true_r in Ht; discriminate].
    split; [assumption|]. split; [assumption|].
    rewrite compute_chi2_steps in Ht by assumption.
    destruct (degenerate_cases obs_fluxes obs_errors)
      as [Hnil | [Hmax | [[Hge Hall] | [[_ Herr] | Hnd]]]].
    + subst. rewrite degenerate_empty in Ht. discriminate.
    + now left.
    + rewrite degenerate_raises in Ht by assumption. discriminate.
    + right; now left.
    + right; right. split; [assumption|].
      destruct Hnd as [Hf He]. rewrite degenerate_false in Ht by assumption.
      cbn [bind] in Ht.
      destruct (Spec.constrained (Spec.filters model_fluxes obs_fluxes obs_errors))
        as [|f fs] eqn:Efs; [discriminate|].
      destruct (lockstep model_fluxes obs_fluxes obs_errors H1 H2) as (_ & _ & Hm).
      rewrite Efs, mask_index_self in Hm.
      assert (Hin : In (Spec.error f) (filter (fun e => Rltb TOLERANCE e) obs_errors))
        by (rewrite Hm; now left).
      apply filter_In in Hin as [Hin Hlt]. apply Rltb_true in Hlt.
      apply Exists_exists. eauto.
  - intros (H1 & H2 & [Hmax | [Herr | [[Hf He] Hex]]]).
    + eexists. apply degenerate_sentinel_general; try assumption.
      now apply degenerate_max.
    + eexists. apply degenerate_sentinel_general; try assumption.
      now apply degenerate_error.
    + rewrite compute_chi2_steps by assumption.
      rewrite degenerate_false by assumption. cbn [bind].
      pose proof (constrained_nonempty _ _ _ H1 H2 Hex) as Hne.
      destruct (Spec.constrained (Spec.filters model_fluxes obs_fluxes obs_errors))
        as [|f [|f' fs]]; [congruence | eexists; reflexivity | eexists; reflexivity].
Qed.

(** X2.  The only exceptions of [compute_chi2]: the length mismatch, [max]
    of no flux at all, [min] of an empty selection when the largest flux is
    the tolerance exactly, and the division of two empty sums when the
    observation is not degenerate and no error exceeds the tolerance. *)
Theorem compute_chi2_exceptions (model_fluxes obs_fluxes obs_errors : list R) :
  match compute_chi2 model_fluxes obs_fluxes obs_errors with
  | Return _ => True
  | Raise e =>
      (e = length_mismatch3
       /\ (length model_fluxes <> length obs_fluxes
           \/ length obs_fluxes <> length obs_errors))
      \/ ((exists msg, e = ValueError msg) /\ obs_fluxes = [])
      \/ ((exists msg, e = ValueError msg)
          /\ Spec.max_at_least_tolerance obs_fluxes
          /\ Forall (fun o => o <= TOLERANCE) obs_fluxes)
      \/ ((exists msg, e = ZeroDivisionError msg)
          /\ Spec.non_degenerate obs_fluxes obs_errors
          /\ Forall (fun err => err <= TOLERANCE) obs_errors)
  end.
Proof.
  destruct (compute_chi2 model_fluxes obs_fluxes obs_errors) as [t | e] eqn:Hr;
    [exact I|].
  destruct (Nat.eq_dec (length model_fluxes) (length obs_fluxes)) as [H1 | H1];
    [|left; unfold compute_chi2 in Hr; pose proof H1 as H1';
      apply Nat.eqb_neq in H1'; rewrite H1' in Hr; injection Hr as <-; auto].
  destruct (Nat.eq_dec (length obs_fluxes) (length obs_errors)) as [H2 | H2];
    [|left; unfold compute_chi2 in Hr; pose proof H2 as H2';
      apply Nat.eqb_neq in H2'; rewrite H2', orb_true_r in Hr;
      injection Hr as <-; auto].
  right. rewrite compute_chi2_steps in Hr by assumption.
  destruct (degenerate_cases obs_fluxes obs_errors)
    as [Hnil | [Hmax | [[Hge Hall] | [[_ Herr] | Hnd]]]].
  - subst. rewrite degenerate_empty in Hr. injection Hr as <-.
    left. split; [eexists; reflexivity | reflexivity].
  - rewrite degenerate_max in Hr by assumption. discriminate.
  - rewrite degenerate_raises in Hr by assumption. injection Hr as <-.
    right; left. split; [eexists; reflexivity | auto].
  - rewrite degenerate_error in Hr by assumption. discriminate.
  - destruct Hnd as [Hf He]. rewrite degenerate_false in Hr by assumption.
    cbn [bind] in Hr.
    destruct (Spec.constrained (Spec.filters model_fluxes obs_fluxes obs_errors))
      as [|f [|f' fs]] eqn:Efs; try discriminate.
    injection Hr as <-. right; right. split; [eexists; reflexivity|].
    split; [now split|].
    apply Forall_forall. intros err Hin.
    destruct (Rle_dec err TOLERANCE); [assumption|]. exfalso.
    apply (constrained_nonempty _ _ _ H1 H2); [|exact Efs].
    apply Exists_exists. exists err. split; [assumption | lra].
Qed.

(** What a finite fit over two filters or more returns. *)
Lemma compute_chi2_finite (model_fluxes obs_fluxes obs_errors : list R) :
  length model_fluxes = length obs_fluxes ->
  length obs_fluxes = length obs_errors ->
  Spec.non_degenerate obs_fluxes obs_errors ->
  let fs := Spec.constrained (Spec.filters model_fluxes obs_fluxes obs_errors) in
  (2 <= length fs)%nat ->
  Spec.Sigma (fun f => Spec.model f * Spec.model f) fs <> 0 ->
  compute_chi2 model_fluxes obs_fluxes obs_errors
  = Return (Fin (Rmin (Spec.chi2_R fs / IZR (Spec.degrees_of_freedom fs)) 99),
            Fin (Spec.normalization_factor_R fs),
            Fin (exp (- Spec.chi2_R fs / 2))).
Proof.
  intros H1 H2 [Hf He] fs Hlen Hden.
  rewrite compute_chi2_steps by assumption.
  rewrite degenerate_false by assumption. cbn [bind]. fold fs.
  assert (Hne0 : forall f, In f fs -> Spec.error f <> 0).
  { intros f Hin. apply constrained_error in Hin. pose proof TOLERANCE_pos. lra. }
  assert (Hdof : Spec.degrees_of_freedom fs <> 0%Z)
    by (unfold Spec.degrees_of_freedom; lia).
  destruct (fit_finite fs Hne0 Hden) as [Hnf _].
  destruct (fit_finite_results fs Hne0 Hden Hdof) as [Hr Hp].
  rewrite <- Hnf, <- Hr, <- Hp.
  destruct fs as [|f [|f' fs']]; simpl in Hlen; try lia. reflexivity.
Qed.

(** X3.  A model that is the observation up to a scale is fitted exactly:
    when obs = k·model on the filters whose error exceeds the tolerance, two
    of them or more and the model not zero on all, [compute_chi2] returns
    reduced_chi2 = 0, normalization_factor = k and probability = 1. *)
Theorem perfect_fit (model_fluxes obs_fluxes obs_errors : list R) (k : R) :
  length model_fluxes = length obs_fluxes ->
  length obs_fluxes = length obs_errors ->
  Spec.non_degenerate obs_fluxes obs_errors ->
  let fs := Spec.constrained (Spec.filters model_fluxes obs_fluxes obs_errors) in
  (2 <= length fs)%nat ->
  Exists (fun f => Spec.model f <> 0) fs ->
  Forall (fun f => Spec.obs f = k * Spec.model f) fs ->
  compute_chi2 model_fluxes obs_fluxes obs_errors = Return (Fin 0, Fin k, Fin 1).
Proof.
  intros H1 H2 Hnd fs Hlen Hex Hfit.
  assert (Hden : Spec.Sigma (fun f => Spec.model f * Spec.model f) fs <> 0).
  { intros Hz. apply Exists_exists in Hex as (g & Hg & Hg0).
    assert (H := Sigma_zero_all (fun f => Spec.model f * Spec.model f) fs
                   (fun a _ => Rle_0_sqr (Spec.model a)) Hz g Hg).
    simpl in H. apply Hg0. nra. }
  unfold fs in *. rewrite compute_chi2_finite by assumption. fold fs in Hden, Hfit |- *.
  rewrite Forall_forall in Hfit.
  assert (Hnf : Spec.normalization_factor_R fs = k).
  { unfold Spec.normalization_factor_R.
    rewrite (Sigma_ext _ (fun f => k * (Spec.model f * Spec.model f)))
      by (intros f Hf; rewrite (Hfit f Hf); ring).
    rewrite Sigma_scal. field. exact Hden. }
  assert (Hchi : Spec.chi2_R fs = 0).
  { unfold Spec.chi2_R. rewrite Hnf.
    rewrite (Sigma_ext _ (fun _ => 0)); [apply Sigma_zero|].
    intros f Hf. rewrite (Hfit f Hf). unfold Rsqr, Rdiv. ring. }
  rewrite Hnf, Hchi. unfold Rdiv. rewrite Rmult_0_l, Ropp_0, Rmult_0_l, exp_0.
  rewrite Rmin_left by lra. reflexivity.
Qed.

Lemma perfect_fit_witness :
  compute_chi2 [1; 2; 5] [3; 6; 15] [1; 2; 1] = Return (Fin 0, Fin 3, Fin 1).
Proof.
  apply perfect_fit; try reflexivity.
  - split; [apply Exists_cons_hd; unfold TOLERANCE; lra | all_filters].
  - FluxComparator.eval_constrained. simpl. lia.
  - FluxComparator.eval_constrained. apply Exists_cons_hd. simpl. lra.
  - FluxComparator.eval_constrained. repeat constructor; simpl; lra.
Defined.

Lemma filters_scale_model (c : R) (model_fluxes obs_fluxes obs_errors : list R) :
  Spec.constrained (Spec.filters (map (Rmult c) model_fluxes) obs_fluxes obs_errors)
  = map (SpecMore.scale_model c)
        (Spec.constrained (Spec.filters model_fluxes obs_fluxes obs_errors)).
Proof.
  unfold Spec.constrained, Spec.filters. revert obs_fluxes obs_errors.
  induction model_fluxes as [|m ms IH]; intros [|o os] [|e es]; simpl; try reflexivity.
  destruct (Rltb TOLERANCE e); simpl; now rewrite IH.
Qed.

(** X4.  Rescaling the model rescales the fit and nothing else: with the
    model fluxes multiplied by c <> 0, a finite fit over two constrained
    filters or more returns the same reduced_chi2 and probability and the
    normalization factor divided by c. *)
Theorem model_scale_invariance (model_fluxes obs_fluxes obs_errors : list R) (c : R) :
  length model_fluxes = length obs_fluxes ->
  length obs_fluxes = length obs_errors ->
  Spec.non_degenerate obs_fluxes obs_errors ->
  let fs := Spec.constrained (Spec.filters model_fluxes obs_fluxes obs_errors) in
  (2 <= length fs)%nat ->
  Exists (fun f => Spec.model f <> 0) fs ->
  c <> 0 ->
  exists r nf p,
    compute_chi2 model_fluxes obs_fluxes obs_errors = Return (Fin r, Fin nf, Fin p)
    /\ compute_chi2 (map (Rmult c) model_fluxes) obs_fluxes obs_errors
       = Return (Fin r, Fin (nf / c), Fin p).
Proof.
  intros H1 H2 Hnd fs Hlen Hex Hc.
  assert (Hden : Spec.Sigma (fun f => Spec.model f * Spec.model f) fs <> 0).
  { intros Hz. apply Exists_exists in Hex as (g & Hg & Hg0).
    assert (H := Sigma_zero_all (fun f => Spec.model f * Spec.model f) fs
                   (fun a _ => Rle_0_sqr (Spec.model a)) Hz g Hg).
    simpl in H. apply Hg0. nra. }
  eexists _, _, _. split; [unfold fs in *; now apply compute_chi2_finite|].
  fold fs.
  assert (Hfs' : Spec.constrained
                   (Spec.filters (map (Rmult c) model_fluxes) obs_fluxes obs_errors)
                 = map (SpecMore.scale_model c) fs) by apply filters_scale_model.
  assert (Hden' : Spec.Sigma (fun f => Spec.model f * Spec.model f)
                             (map (SpecMore.scale_model c) fs)
                  = c * c * Spec.Sigma (fun f => Spec.model f * Spec.model f) fs).
  { rewrite Sigma_map, <- Sigma_scal. apply Sigma_ext. intros f _. simpl. ring. }
  assert (Hnf' : Spec.normalization_factor_R (map (SpecMore.scale_model c) fs)
                 = Spec.normalization_factor_R fs / c).
  { unfold Spec.normalization_factor_R. rewrite Hden'.
    rewrite Sigma_map.
    rewrite (Sigma_ext _ (fun f => c * (Spec.obs f * Spec.model f)))
      by (intros f _; simpl; ring).
    rewrite Sigma_scal. field. split; assumption. }
  assert (Hchi' : Spec.chi2_R (map (SpecMore.scale_model c) fs) = Spec.chi2_R fs).
  { unfold Spec.chi2_R at 1. rewrite Hnf', Sigma_map. unfold Spec.chi2_R.
    apply Sigma_ext. intros f _. simpl. f_equal. f_equal. field. assumption. }
  rewrite compute_chi2_finite; try assumption.
  - rewrite Hfs', Hnf', Hchi'. unfold Spec.degrees_of_freedom.
    rewrite length_map. reflexivity.
  - now rewrite length_map.
  - rewrite Hfs', length_map. exact Hlen.
  - rewrite Hfs', Hden'. apply Rmult_integral_contrapositive_currified; [|assumption].
    apply Rmult_integral_contrapositive_currified; assumption.
Qed.

Lemma model_scale_invariance_witness :
  exists r nf p,
    compute_chi2 [1; 2] [2; 5] [1; 1] = Return (Fin r, Fin nf, Fin p)
    /\ compute_chi2 (map (Rmult 10) [1; 2]) [2; 5] [1; 1]
       = Return (Fin r, Fin (nf / 10), Fin p).
Proof.
  apply model_scale_invariance; try reflexivity.
  - split; [apply Exists_cons_hd; unfold TOLERANCE; lra | all_filters].
  - FluxComparator.eval_constrained. simpl. lia.
  - FluxComparator.eval_constrained. apply Exists_cons_hd. simpl. lra.
  - lra.
Defined.

(** X5.  The normalization factor of a finite fit is the least-squares
    scale of the model onto the observation, the errors left out: no other
    scale a gives a smaller Σ(obs − a·model)² over the filters whose error
    exceeds the tolerance. *)
Theorem normalization_is_least_squares (model_fluxes obs_fluxes obs_errors : list R) :
  length model_fluxes = length obs_fluxes ->
  length obs_fluxes = length obs_errors ->
  Spec.non_degenerate obs_fluxes obs_errors ->
  let fs := Spec.constrained (Spec.filters model_fluxes obs_fluxes obs_errors) in
  (2 <= length fs)%nat ->
  Exists (fun f => Spec.model f <> 0) fs ->
  exists r nf p,
    compute_chi2 model_fluxes obs_fluxes obs_errors = Return (Fin r, Fin nf, Fin p)
    /\ forall a,
         Spec.Sigma (fun f => Rsqr (Spec.obs f - nf * Spec.model f)) fs
         <= Spec.Sigma (fun f => Rsqr (Spec.obs f - a * Spec.model f)) fs.
Proof.
  intros H1 H2 Hnd fs Hlen Hex.
  assert (Hden : Spec.Sigma (fun f => Spec.model f * Spec.model f) fs <> 0).
  { intros Hz. apply Exists_exists in Hex as (g & Hg & Hg0).
    assert (H := Sigma_zero_all (fun f => Spec.model f * Spec.model f) fs
                   (fun a _ => Rle_0_sqr (Spec.model a)) Hz g Hg).
    simpl in H. apply Hg0. nra. }
  eexists _, _, _. split; [unfold fs in *; now apply compute_chi2_finite|].
  fold fs. intros a.
  set (Soo := Spec.Sigma (fun f => Spec.obs f * Spec.obs f) fs).
  set (Som := Spec.Sigma (fun f => Spec.obs f * Spec.model f) fs).
  set (Smm := Spec.Sigma (fun f => Spec.model f * Spec.model f) fs) in *.
  assert (Hexpand : forall b,
             Spec.Sigma (fun f => Rsqr (Spec.obs f - b * Spec.model f)) fs
             = Soo + (- 2 * b) * Som + (b * b) * Smm).
  { intros b. unfold Soo, Som, Smm.
    rewrite <- !Sigma_scal, <- !Sigma_plus. apply Sigma_ext. intros f _.
    unfold Rsqr. ring. }
  rewrite !Hexpand. unfold Spec.normalization_factor_R. fold Som Smm.
  assert (Hpos : 0 < Smm).
  { assert (0 <= Smm) by (apply Sigma_nonneg; intros; apply Rle_0_sqr). lra. }
  assert (Heq : Soo + - 2 * a * Som + a * a * Smm
                - (Soo + - 2 * (Som / Smm) * Som + Som / Smm * (Som / Smm) * Smm)
                = Smm * Rsqr (a - Som / Smm)).
  { unfold Rsqr. field. lra. }
  assert (0 <= Smm * Rsqr (a - Som / Smm))
    by (apply Rmult_le_pos; [lra | apply Rle_0_sqr]).
  lra.
Qed.

Lemma normalization_is_least_squares_witness :
  exists r nf p,
    compute_chi2 [1; 2] [2; 5] [1; 1] = Return (Fin r, Fin nf, Fin p)
    /\ forall a,
         Spec.Sigma (fun f => Rsqr (Spec.obs f - nf * Spec.model f))
                    (Spec.constrained (Spec.filters [1; 2] [2; 5] [1; 1]))
         <= Spec.Sigma (fun f => Rsqr (Spec.obs f - a * Spec.model f))
                       (Spec.constrained (Spec.filters [1; 2] [2; 5] [1; 1])).
Proof.
  apply normalization_is_least_squares; try reflexivity.
  - split; [apply Exists_cons_hd; unfold TOLERANCE; lra | all_filters].
  - FluxComparator.eval_constrained. simpl. lia.
  - FluxComparator.eval_constrained. apply Exists_cons_hd. simpl. lra.
Defined.

End FluxComparatorMore.

(** ** More on adjust_errors *)

Module ErrorAdjusterMore.

Import Psum.

Lemma adjusted_error_bounds (d s : R) (f e : R) :
  0 <= Spec.adjusted_error d s (f, e)
  /\ Rabs (f * s) <= Spec.adjusted_error d s (f, e)
  /\ (TOLERANCE <= e -> e <= Spec.adjusted_error d s (f, e)).
Proof.
  unfold Spec.adjusted_error; cbn [fst snd].
  set (e' := if Rltb e TOLERANCE then d * e else e).
  assert (H0 : 0 <= Rsqr e' + Rsqr (f * s))
    by (pose proof (Rle_0_sqr e'); pose proof (Rle_0_sqr (f * s)); lra).
  split; [apply sqrt_pos|]. split.
  - rewrite <- sqrt_Rsqr_abs. apply sqrt_le_1_alt.
    pose proof (Rle_0_sqr e'). lra.
  - intros He. pose proof TOLERANCE_pos.
    assert (He' : e' = e).
    { unfold e'. replace (Rltb e TOLERANCE) with false; [reflexivity|].
      symmetry. now apply Rltb_false. }
    rewrite He'. rewrite <- (sqrt_Rsqr e) at 1 by lra.
    apply sqrt_le_1_alt. pose proof (Rle_0_sqr (f * s)). lra.
Qed.

(** X6.  The adjustment only adds: on arrays of one length, whatever the
    two factors, each adjusted error is non-negative, at least the
    systematic term |flux · systematic_deviation| and, for a raw error at or
    above the tolerance, at least that raw error. *)
Theorem adjusted_errors_only_add (h : heap) (flux error : ref)
        (fluxes errors : list R) (default_error systematic_deviation : R) :
  nth_error h flux = Some (np_copy fluxes) ->
  nth_error h error = Some (np_copy errors) ->
  length fluxes = length errors ->
  exists adjusted h' out,
    adjust_errors flux error default_error systematic_deviation h
    = Return (adjusted, h')
    /\ nth_error h' adjusted = Some (np_copy out)
    /\ length out = length errors
    /\ forall i f e a,
         nth_error fluxes i = Some f -> nth_error errors i = Some e ->
         nth_error out i = Some a ->
         0 <= a
         /\ Rabs (f * systematic_deviation) <= a
         /\ (TOLERANCE <= e -> e <= a).
Proof.
  intros Hflux Herror Hlen.
  rewrite (adjust_errors_steps h flux error fluxes errors _ _ Hflux Herror).
  rewrite Hlen, Nat.eqb_refl.
  eexists _, _, (Spec.adjusted_errors default_error systematic_deviation fluxes errors).
  split; [reflexivity|]. split; [|split].
  - rewrite app_assoc.
    replace (S (length h))
      with (length (h ++ [np_copy (map (fun e => if Rltb e TOLERANCE
                                                 then default_error * e
                                                 else e) errors)]))
      by (rewrite length_app; simpl; lia).
    apply nth_error_app_last.
  - unfold Spec.adjusted_errors. rewrite length_map, length_combine. lia.
  - intros i f e a Hf He Ha.
    assert (Hc : nth_error (combine fluxes errors) i = Some (f, e)).
    { clear - Hf He. revert errors i Hf He.
      induction fluxes as [|x xs IH]; intros [|y ys] [|i]; simpl; intros Hf He;
        try discriminate; [congruence | eauto]. }
    unfold Spec.adjusted_errors in Ha. rewrite nth_error_map, Hc in Ha.
    cbn in Ha. injection Ha as <-.
    apply (adjusted_error_bounds default_error systematic_deviation f e).
Qed.

Lemma adjusted_errors_only_add_witness :
  exists adjusted h' out,
    adjust_errors 0%nat 1%nat 0.1 0.5 [np_copy [10; -20]; np_copy [3; 0]]
    = Return (adjusted, h')
    /\ nth_error h' adjusted = Some (np_copy out)
    /\ length out = 2%nat
    /\ forall i f e a,
         nth_error [10; -20] i = Some f -> nth_error [3; 0] i = Some e ->
         nth_error out i = Some a ->
         0 <= a /\ Rabs (f * 0.5) <= a /\ (TOLERANCE <= e -> e <= a).
Proof.
  exact (adjusted_errors_only_add [np_copy [10; -20]; np_copy [3; 0]] 0%nat 1%nat
                                  [10; -20] [3; 0] 0.1 0.5 eq_refl eq_refl eq_refl).
Defined.

(** A fit that is not degenerate and keeps a filter returns. *)
Lemma compute_chi2_returns (model_fluxes obs_fluxes obs_errors : list R) :
  length model_fluxes = length obs_fluxes ->
  length obs_fluxes = length obs_errors ->
  Spec.non_degenerate obs_fluxes obs_errors ->
  Exists (fun e => TOLERANCE < e) obs_errors ->
  returns (compute_chi2 model_fluxes obs_fluxes obs_errors).
Proof.
  intros H1 H2 [Hf He] Hex.
  rewrite compute_chi2_steps by assumption.
  rewrite degenerate_false by assumption. cbn [bind].
  pose proof (constrained_nonempty _ _ _ H1 H2 Hex) as Hne.
  destruct (Spec.constrained (Spec.filters model_fluxes obs_fluxes obs_errors))
    as [|f [|f' fs]]; [congruence | eexists; reflexivity | eexists; reflexivity].
Qed.

(** X7.  Adjusted errors make bright observations fittable: when every
    observed flux is above 1e-11 (ten times the tolerance), the errors
    adjusted with the default factors are all above the tolerance, whatever
    the raw errors, so [compute_chi2] on these fluxes and adjusted errors
    keeps every filter and returns a fit for any model of that length. *)
Theorem adjusted_errors_are_fitted (h : heap) (flux error : ref)
        (model_fluxes fluxes errors : list R) :
  nth_error h flux = Some (np_copy fluxes) ->
  nth_error h error = Some (np_copy errors) ->
  length fluxes = length errors ->
  length model_fluxes = length fluxes ->
  fluxes <> [] ->
  Forall (fun f => 1e-11 < f) fluxes ->
  exists adjusted h' out,
    adjust_errors flux error default_error_default systematic_deviation_default h
    = Return (adjusted, h')
    /\ nth_error h' adjusted = Some (np_copy out)
    /\ Forall (fun e => TOLERANCE < e) out
    /\ length (Spec.constrained (Spec.filters model_fluxes fluxes out))
       = length fluxes
    /\ returns (compute_chi2 model_fluxes fluxes out).
Proof.
  intros Hflux Herror Hlen Hm Hne Hbright.
  rewrite (adjust_errors_steps h flux error fluxes errors _ _ Hflux Herror).
  rewrite Hlen, Nat.eqb_refl.
  set (out := Spec.adjusted_errors default_error_default
                                   systematic_deviation_default fluxes errors).
  assert (Hout : length out = length fluxes)
    by (unfold out, Spec.adjusted_errors; rewrite length_map, length_combine; lia).
  assert (Habove : Forall (fun e => TOLERANCE < e) out).
  { apply Forall_forall. intros a Ha. unfold out, Spec.adjusted_errors in Ha.
    apply in_map_iff in Ha as ([f e] & <- & Hin).
    apply in_combine_l in Hin. rewrite Forall_forall in Hbright.
    specialize (Hbright f Hin).
    destruct (adjusted_error_bounds default_error_default
                                    systematic_deviation_default f e) as (_ & Hsys & _).
    unfold systematic_deviation_default in Hsys at 1.
    rewrite Rabs_right in Hsys by lra. unfold TOLERANCE. lra. }
  exists (S (length h)), (h ++ [np_copy (map (fun e => if Rltb e TOLERANCE
                                                  then default_error_default * e
                                                  else e) errors)] ++ [np_copy out]), out.
  split; [reflexivity|]. split; [|split; [exact Habove|]].
  - rewrite app_assoc.
    replace (S (length h))
      with (length (h ++ [np_copy (map (fun e => if Rltb e TOLERANCE
                                                 then default_error_default * e
                                                 else e) errors)]))
      by (rewrite length_app; simpl; lia).
    apply nth_error_app_last.
  - split.
    + destruct (lockstep model_fluxes fluxes out Hm (eq_sym Hout)) as (_ & _ & He).
      rewrite mask_index_self in He.
      assert (Hall : filter (fun e => Rltb TOLERANCE e) out = out).
      { clear - Habove. induction Habove as [|a l Ha _ IH]; [reflexivity|].
        cbn [filter]. apply Rltb_true in Ha. rewrite Ha. now rewrite IH. }
      rewrite Hall in He.
      rewrite <- (length_map Spec.error), <- He. congruence.
    + apply compute_chi2_returns; try congruence.
      * split.
        -- destruct fluxes as [|f fs]; [congruence|].
           apply Exists_cons_hd. inversion Hbright; subst. unfold TOLERANCE. lra.
        -- apply Forall_forall. intros [f e] Hin Hf. cbn [fst snd] in *.
           apply in_combine_r in Hin. rewrite Forall_forall in Habove.
           specialize (Habove e Hin). lra.
      * destruct out as [|a out']; [destruct fluxes; [congruence | discriminate]|].
        apply Exists_cons_hd. now inversion Habove.
Qed.

Lemma adjusted_errors_are_fitted_witness :
  exists adjusted h' out,
    adjust_errors 0%nat 1%nat default_error_default systematic_deviation_default
                  [np_copy [10; 20]; np_copy [3; 0]]
    = Return (adjusted, h')
    /\ nth_error h' adjusted = Some (np_copy out)
    /\ Forall (fun e => TOLERANCE < e) out
    /\ length (Spec.constrained (Spec.filters [1; 2] [10; 20] out)) = 2%nat
    /\ returns (compute_chi2 [1; 2] [10; 20] out).
Proof.
  apply (adjusted_errors_are_fitted [np_copy [10; 20]; np_copy [3; 0]] 0%nat 1%nat
                                    [1; 2] [10; 20] [3; 0]);
    try reflexivity; [discriminate|].
  repeat constructor; lra.
Defined.

End ErrorAdjusterMore.

(** ** More on w_mean_sigma *)

Module WeightedStatisticsMore.

Import Psum.






Lemma combine_map_r {A B C : Type} (g : B -> C) (l : list A) (l' : list B) :
  combine l (map g l') = map (fun p => (fst p, g (snd p))) (combine l l').
Proof.
  revert l'; induction l as [|a l IH]; intros [|b l']; simpl; try reflexivity.
  now rewrite IH.
Qed.

Lemma combine_map_l {A B C : Type} (g : A -> C) (l : list A) (l' : list B) :
  combine (map g l) l' = map (fun p => (g (fst p), snd p)) (combine l l').
Proof.
  revert l'; induction l as [|a l IH]; intros [|b l']; simpl; try reflexivity.
  now rewrite IH.
Qed.

(** What [w_mean_sigma] does when the lengths differ or the weights sum to
    zero. *)
Lemma w_mean_sigma_raises (vs ws : list R) :
  w_mean_sigma vs ws
  = if negb (length vs =? length ws)%nat
    then Raise (TypeError "Axis must be specified when shapes of a and weights differ.")
    else if Reqb (Spec.Sigma (fun w => w) ws) 0
         then Raise (ZeroDivisionError "Weights sum to zero, can't be normalized")
         else w_mean_sigma vs ws.
Proof.
  destruct (length vs =? length ws)%nat eqn:Hlen; cbn [negb].
  - apply Nat.eqb_eq in Hlen.
    destruct (Reqb _ 0) eqn:Hz; [|reflexivity].
    unfold w_mean_sigma. rewrite np_average_copy by assumption.
    rewrite (Sigma_snd_combine vs ws Hlen), Hz. reflexivity.
  - unfold w_mean_sigma, np_average, np_copy. rewrite !length_map, Hlen. reflexivity.
Qed.

(** X9.  Only the relative weights matter: multiplying every weight by one
    factor c <> 0 changes nothing, neither the mean and standard deviation
    returned nor the exception raised. *)
Theorem w_mean_sigma_weight_scale (values weights : list R) (c : R) :
  c <> 0 ->
  w_mean_sigma values (map (fun w => c * w) weights) = w_mean_sigma values weights.
Proof.
  intros Hc.
  rewrite (w_mean_sigma_raises values weights).
  rewrite (w_mean_sigma_raises values (map (fun w => c * w) weights)).
  rewrite length_map.
  destruct (length values =? length weights)%nat eqn:Hlen; cbn [negb]; [|reflexivity].
  apply Nat.eqb_eq in Hlen.
  rewrite Sigma_map, (Sigma_scal c (fun w => w)).
  destruct (Reqb (Spec.Sigma (fun w => w) weights) 0) eqn:Hz.
  - apply Reqb_true in Hz. rewrite Hz, Rmult_0_r.
    assert (H0 : Reqb 0 0 = true) by now apply Reqb_true.
    now rewrite H0.
  - apply Reqb_false in Hz.
    assert (Hcz : Reqb (c * Spec.Sigma (fun w => w) weights) 0 = false)
      by (apply Reqb_false; nra).
    rewrite Hcz.
    assert (HW : Spec.Sigma snd (combine values weights) <> 0)
      by now rewrite Sigma_snd_combine.
    assert (HW' : Spec.Sigma snd (combine values (map (fun w => c * w) weights))
                  = c * Spec.Sigma snd (combine values weights)).
    { rewrite combine_map_r, Sigma_map. cbn [snd]. apply Sigma_scal. }
    assert (Hmean : Spec.weighted_mean (combine values (map (fun w => c * w) weights))
                    = Spec.weighted_mean (combine values weights)).
    { unfold Spec.weighted_mean. rewrite HW'.
      rewrite combine_map_r, Sigma_map. cbn [fst snd].
      rewrite (Sigma_ext _ (fun p => c * (snd p * fst p))) by (intros; lra).
      rewrite Sigma_scal. field. split; assumption. }
    rewrite (w_mean_sigma_steps values weights Hlen HW).
    rewrite w_mean_sigma_steps;
      [| now rewrite length_map
       | rewrite HW'; now apply Rmult_integral_contrapositive_currified].
    cbv zeta. rewrite Hmean, HW'.
    do 4 f_equal.
    rewrite combine_map_r, Sigma_map. cbn [fst snd].
    rewrite (Sigma_ext _ (fun p => c * (snd p * Rsqr (fst p - Spec.weighted_mean
                                                         (combine values weights)))))
      by (intros; lra).
    rewrite Sigma_scal. field. split; assumption.
Qed.

Lemma w_mean_sigma_weight_scale_witness :
  w_mean_sigma [1; 2; 3] (map (fun w => 100 * w) [0.2; 0.3; 0.5])
  = w_mean_sigma [1; 2; 3] [0.2; 0.3; 0.5].
Proof. apply (w_mean_sigma_weight_scale [1; 2; 3] [0.2; 0.3; 0.5] 100). lra. Defined.

(** X10.  The statistics follow an affine change of the values: when
    [w_mean_sigma] returns the finite pair (mean, std) for some values, it
    returns (a*mean + b, |a|*std) for the values a*v + b with the same
    weights. *)
Theorem w_mean_sigma_affine (values weights : list R) (a b mean std : R) :
  w_mean_sigma values weights = Return (Fin mean, Fin std) ->
  w_mean_sigma (map (fun v => a * v + b) values) weights
  = Return (Fin (a * mean + b), Fin (Rabs a * std)).
Proof.
  intros Hret.
  rewrite w_mean_sigma_raises in Hret.
  destruct (length values =? length weights)%nat eqn:Hlen; cbn [negb] in Hret;
    [|discriminate].
  apply Nat.eqb_eq in Hlen.
  destruct (Reqb (Spec.Sigma (fun w => w) weights) 0) eqn:Hz; [discriminate|].
  apply Reqb_false in Hz.
  assert (HW : Spec.Sigma snd (combine values weights) <> 0)
    by now rewrite Sigma_snd_combine.
  rewrite w_mean_sigma_steps in Hret by assumption. cbv zeta in Hret.
  set (vw := combine values weights) in *.
  set (W := Spec.Sigma snd vw) in *.
  set (V := Spec.Sigma (fun p => snd p * Rsqr (fst p - Spec.weighted_mean vw)) vw) in *.
  cbn [np_sqrt] in Hret.
  destruct (Rltb (V / W) 0) eqn:Hneg; [discriminate|].
  apply Rltb_false in Hneg.
  injection Hret as Hmean Hstd.
  assert (HW' : Spec.Sigma snd (combine (map (fun v => a * v + b) values) weights) = W).
  { rewrite combine_map_l, Sigma_map. reflexivity. }
  assert (Hmean' : Spec.weighted_mean (combine (map (fun v => a * v + b) values) weights)
                   = a * mean + b).
  { unfold Spec.weighted_mean. rewrite HW'.
    rewrite combine_map_l, Sigma_map. cbn [fst snd]. fold vw.
    rewrite (Sigma_ext _ (fun p => a * (snd p * fst p) + b * snd p)) by (intros; lra).
    rewrite Sigma_plus, !Sigma_scal. fold W.
    rewrite <- Hmean. unfold Spec.weighted_mean. fold W. field. exact HW. }
  rewrite w_mean_sigma_steps; [| now rewrite length_map | rewrite HW'; exact HW].
  cbv zeta. rewrite Hmean', HW'.
  rewrite combine_map_l, Sigma_map. cbn [fst snd]. fold vw.
  rewrite (Sigma_ext _ (fun p => Rsqr a * (snd p * Rsqr (fst p - Spec.weighted_mean vw)))).
  2:{ intros p _. rewrite Hmean. unfold Rsqr. lra. }
  rewrite Sigma_scal. fold V.
  replace (Rsqr a * V / W) with (Rsqr a * (V / W)) by (unfold Rdiv; lra).
  cbn [np_sqrt].
  assert (Hq : 0 <= Rsqr a * (V / W)) by (apply Rmult_le_pos; [apply Rle_0_sqr | exact Hneg]).
  apply Rltb_false in Hq. rewrite Hq.
  rewrite sqrt_mult by (apply Rle_0_sqr || exact Hneg).
  rewrite sqrt_Rsqr_abs, Hstd. reflexivity.
Qed.

Lemma w_mean_sigma_affine_witness :
  w_mean_sigma (map (fun v => -3 * v + 5) [1; 2; 3]) [1; 1; 1]
  = Return (Fin (-3 * 2 + 5), Fin (Rabs (-3) * sqrt (2 / 3))).
Proof.
  apply (w_mean_sigma_affine [1; 2; 3] [1; 1; 1] (-3) 5 2 (sqrt (2 / 3))).
  rewrite w_mean_sigma_steps by (reflexivity || (cbn; lra)).
  cbv zeta.
  assert (Hmean : Spec.weighted_mean (combine [1; 2; 3] [1; 1; 1]) = 2)
    by (unfold Spec.weighted_mean; cbn; lra).
  rewrite Hmean.
  replace (Spec.Sigma (fun p => snd p * Rsqr (fst p - 2)) (combine [1; 2; 3] [1; 1; 1])
           / Spec.Sigma snd (combine [1; 2; 3] [1; 1; 1])) with (2 / 3)
    by (cbn; unfold Rsqr; lra).
  cbn [np_sqrt].
  assert (Hq : Rltb (2 / 3) 0 = false) by (apply Rltb_false; lra).
  now rewrite Hq.
Defined.

End WeightedStatisticsMore.

(** ** More on bin_evenly *)

Module BinnerMore.

Import Psum.
Import SpecMore.













(** X13.  With max_bins = 0 a non-empty sample gets the single boundary
    min(values), and the digits are 0 for the values below the float64 sum
    min + 1 and 1 for the others; for a minimum below 2^53 in magnitude the
    sum is min + 1 itself. *)
Theorem zero_bins (values : list R) :
  values <> [] ->
  let lowest := nth 0 (np_sort values) 0 in
  bin_evenly values 0
  = Return ([Some lowest],
            map (fun v => if Rleb (float_add_one lowest) v then 1%Z else 0%Z) values)
  /\ (Rabs lowest < 2 ^ 53 ->
      bin_evenly values 0
      = Return ([Some lowest],
                map (fun v => if Rleb (lowest + 1) v then 1%Z else 0%Z) values)).
Proof.
  intros Hne lowest.
  assert (Hrun : bin_evenly values 0
                 = Return ([Some lowest],
                           map (fun v => if Rleb (float_add_one lowest) v
                                         then 1%Z else 0%Z) values)).
  { unfold bin_evenly.
    replace (Z.of_nat (length values) <? 0)%Z with false
      by (symmetry; apply Z.ltb_ge; lia).
    change (0 + 1 <? 0)%Z with false. change (Z.to_nat (0 + 1)) with 1%nat.
    cbn [np_linspace].
    rewrite mquantiles_quantile by assumption.
    cbn [map ma_data rev app]. rewrite quantile_0 by assumption. fold lowest.
    unfold np_digitize. cbn [nondecreasing bind].
    do 2 f_equal. apply map_ext. intros v.
    unfold searchsorted_right. cbn [filter].
    destruct (Rleb (float_add_one lowest) v); reflexivity. }
  split; [exact Hrun|].
  intros Hsmall. rewrite Hrun, float_add_one_small by assumption. reflexivity.
Qed.

Lemma zero_bins_witness :
  bin_evenly [5; 7; 5.5] 0
  = Return ([Some (nth 0 (np_sort [5; 7; 5.5]) 0)],
            map (fun v => if Rleb (float_add_one (nth 0 (np_sort [5; 7; 5.5]) 0)) v
                          then 1%Z else 0%Z) [5; 7; 5.5])
  /\ (Rabs (nth 0 (np_sort [5; 7; 5.5]) 0) < 2 ^ 53 ->
      bin_evenly [5; 7; 5.5] 0
      = Return ([Some (nth 0 (np_sort [5; 7; 5.5]) 0)],
                map (fun v => if Rleb (nth 0 (np_sort [5; 7; 5.5]) 0 + 1) v
                              then 1%Z else 0%Z) [5; 7; 5.5])).
Proof. apply (zero_bins [5; 7; 5.5]). discriminate. Defined.

End BinnerMore.

(** ** More on gen_pdf and save_pdf *)

Module KernelDensityMore.

Import PdfUtils.
Import SpecMore.

(** A probability counts when it is above 0.005: its weight, 100 times the
    probability rounded, is then 1 at least (0.005 itself is a tie, rounded
    to the even 0). *)
Lemma integer_weight_pos (p : R) :
  (1 <= Spec.integer_weight p)%Z <-> 0.005 < p.
Proof.
  unfold Spec.integer_weight, np_around.
  pose proof (Zfloor_bound (100 * p)) as [Hlo Hhi].
  set (fl := Zfloor (100 * p)) in *.
  assert (Hint : forall z : Z, (1 <= z)%Z <-> 1 <= IZR z)
    by (intros z; split; [apply IZR_le | apply le_IZR]).
  assert (Hint0 : forall z : Z, 0 < IZR z -> 1 <= IZR z).
  { intros z Hz. apply lt_IZR in Hz. apply IZR_le. lia. }
  destruct (Rltb (100 * p - IZR fl) (1 / 2)) eqn:E1.
  - apply Rltb_true in E1. rewrite Hint. split; intros H; [lra|].
    apply Hint0. lra.
  - apply Rltb_false in E1.
    assert (Hup : (1 <= fl + 1)%Z <-> 0 <= IZR fl).
    { split; intros H; [apply IZR_le; lia | apply le_IZR in H; lia]. }
    destruct (Rltb (1 / 2) (100 * p - IZR fl)) eqn:E2.
    + apply Rltb_true in E2. rewrite Hup. split; intros H; [lra|].
      assert (H0 : (0 <= fl)%Z) by (apply Zfloor_lub; simpl; lra).
      now apply IZR_le in H0.
    + apply Rltb_false in E2.
      assert (Hpos : (1 <= fl)%Z -> 0.005 < p)
        by (intros H; apply IZR_le in H; lra).
      assert (Hfl : 0.005 < p -> (1 <= fl)%Z)
        by (intros H; apply Hint, Hint0; lra).
      destruct (Z.even fl) eqn:Ev.
      * split; assumption.
      * split; intros H.
        -- apply Hpos. destruct (Z.eq_dec fl 0) as [H0 | H0]; [|lia].
           rewrite H0 in Ev. discriminate.
        -- specialize (Hfl H). lia.
Qed.

Lemma In_pooled_sample (values probabilities : list R) (v : R) :
  In v (Spec.pooled_sample values probabilities)
  <-> exists p, In (v, p) (combine values probabilities) /\ 0.005 < p.
Proof.
  unfold Spec.pooled_sample. rewrite in_flat_map. split.
  - intros ([u p] & Hin & Hrep). cbn [fst snd] in Hrep.
    apply filter_In in Hin as [Hin _].
    assert (Hlen : Z.to_nat (Spec.integer_weight p) <> 0%nat)
      by (intros E; rewrite E in Hrep; exact Hrep).
    apply repeat_spec in Hrep. subst u.
    exists p. split; [exact Hin|]. apply integer_weight_pos. lia.
  - intros (p & Hin & Hp). apply integer_weight_pos in Hp.
    exists (v, p). split.
    + apply filter_In. split; [exact Hin|]. cbn [snd].
      apply negb_true_iff, Z.eqb_neq. lia.
    + cbn [fst snd].
      destruct (Z.to_nat (Spec.integer_weight p)) as [|n] eqn:E; [lia|].
      now left.
Qed.

Section Fit.

Variable gaussian_kde : list R -> list R -> result (list R).

(** The loop over masked values: a masked value is skipped together with
    its probability. *)
Lemma combine_values_unmasked (values : list (option R)) (probabilities : list R)
      (before : list Z) (combined_values : list R) :
  length values = length probabilities ->
  combine_values values (length before)
                 (before ++ map Spec.integer_weight probabilities) combined_values
  = Return (combined_values
              ++ Spec.pooled_sample (map fst (unmasked values probabilities))
                                    (map snd (unmasked values probabilities))).
Proof.
  revert probabilities before combined_values.
  induction values as [|[v|] vs IH]; intros [|p ps] before acc Hlen;
    try discriminate; cbn [map combine_values].
  - unfold Spec.pooled_sample. cbn. now rewrite app_nil_r.
  - injection Hlen as Hlen.
    rewrite nth_error_app2, Nat.sub_diag by lia. cbn [nth_error].
    replace (S (length before)) with (length (before ++ [Spec.integer_weight p]))
      by (rewrite length_app; simpl; lia).
    replace (before ++ Spec.integer_weight p :: map Spec.integer_weight ps)
      with ((before ++ [Spec.integer_weight p]) ++ map Spec.integer_weight ps)
      by (rewrite <- app_assoc; reflexivity).
    rewrite IH by assumption.
    unfold unmasked. cbn [combine flat_map fst snd app map].
    unfold Spec.pooled_sample. cbn [combine filter fst snd].
    destruct (Spec.integer_weight p =? 0)%Z; cbn [negb flat_map fst snd].
    + reflexivity.
    + now rewrite app_assoc.
  - injection Hlen as Hlen.
    replace (S (length before)) with (length (before ++ [Spec.integer_weight p]))
      by (rewrite length_app; simpl; lia).
    replace (before ++ Spec.integer_weight p :: map Spec.integer_weight ps)
      with ((before ++ [Spec.integer_weight p]) ++ map Spec.integer_weight ps)
      by (rewrite <- app_assoc; reflexivity).
    rewrite IH by assumption. reflexivity.
Qed.

Lemma combine_fst_snd {A B : Type} (l : list (A * B)) :
  combine (map fst l) (map snd l) = l.
Proof. induction l as [|[a b] l IH]; simpl; [reflexivity | now rewrite IH]. Qed.

Lemma In_unmasked (values : list (option R)) (probabilities : list R) (v p : R) :
  In (v, p) (unmasked values probabilities)
  <-> In (Some v, p) (combine values probabilities).
Proof.
  unfold unmasked. rewrite in_flat_map. split.
  - intros ([[u|] q] & Hin & Hone); cbn [fst snd] in Hone; [|contradiction].
    destruct Hone as [Heq | []]. now inversion Heq; subst.
  - intros Hin. exists (Some v, p). split; [exact Hin | now left].
Qed.

(** [gen_pdf] on masked values with as many probabilities: the fit of
    the pooled unmasked values. *)
Lemma gen_pdf_steps (values : list (option R)) (probabilities grid : list R) :
  length values = length probabilities ->
  gen_pdf gaussian_kde values probabilities grid
  = match gaussian_kde (Spec.pooled_sample (map fst (unmasked values probabilities))
                                           (map snd (unmasked values probabilities)))
                       grid with
    | Return density => Return (Some density)
    | Raise (LinAlgError _) | Raise (ValueError _) => Return None
    | Raise e => Raise e
    end.
Proof.
  intros Hlen.
  pose proof (combine_values_unmasked values probabilities [] [] Hlen) as Hloop.
  cbn [length app] in Hloop.
  change (map Spec.integer_weight probabilities)
    with (map (fun p => np_around (100 * p)) probabilities) in Hloop.
  unfold gen_pdf. rewrite Hloop. reflexivity.
Qed.

(** X14.  Which models reach the density fit: for masked values with as
    many probabilities, the sample [gen_pdf] hands to [gaussian_kde] holds
    exactly the unmasked values that some model pairs with a probability
    above 0.005; a model of probability 0.005 or less, or with a masked
    value, adds nothing.  [gen_pdf] then returns the density fitted on that
    sample, None when the fit raises LinAlgError or ValueError, and raises
    what the fit raises otherwise. *)
Theorem gen_pdf_threshold (values : list (option R)) (probabilities grid : list R) :
  length values = length probabilities ->
  exists sample,
    combine_values values 0 (map (fun p => np_around (100 * p)) probabilities) []
    = Return sample
    /\ (forall v, In v sample
                  <-> exists p, In (Some v, p) (combine values probabilities)
                                /\ 0.005 < p)
    /\ gen_pdf gaussian_kde values probabilities grid
       = match gaussian_kde sample grid with
         | Return density => Return (Some density)
         | Raise (LinAlgError _) | Raise (ValueError _) => Return None
         | Raise e => Raise e
         end.
Proof.
  intros Hlen.
  pose proof (combine_values_unmasked values probabilities [] [] Hlen) as Hloop.
  cbn [length app] in Hloop.
  change (map Spec.integer_weight probabilities)
    with (map (fun p => np_around (100 * p)) probabilities) in Hloop.
  eexists. split; [exact Hloop|]. split.
  - intros v. rewrite In_pooled_sample, combine_fst_snd.
    split; intros (p & Hin & Hp); exists p; (split; [|exact Hp]);
      now apply In_unmasked.
  - unfold gen_pdf. rewrite Hloop. reflexivity.
Qed.

(** X15.  Too few probabilities: when some unmasked value lies at an index
    that has no probability, [gen_pdf] raises an IndexError and no fit is
    attempted. *)
Theorem gen_pdf_short_probabilities (values : list (option R))
        (probabilities grid : list R) (i : nat) (v : R) :
  nth_error values i = Some (Some v) ->
  (length probabilities <= i)%nat ->
  exists msg,
    gen_pdf gaussian_kde values probabilities grid = Raise (IndexError msg).
Proof.
  intros Hv Hi. unfold gen_pdf.
  set (weights := map (fun p => np_around (100 * p)) probabilities).
  assert (Hw : (length weights <= 0 + i)%nat) by (unfold weights; rewrite length_map; lia).
  assert (Hloop : forall acc,
             exists msg, combine_values values 0 weights acc = Raise (IndexError msg)).
  { clearbody weights. clear Hi. generalize dependent 0%nat. revert i Hv.
    induction values as [|[u|] vs IH]; intros i Hv idx Hw acc.
    - destruct i; discriminate.
    - cbn [combine_values].
      destruct (nth_error weights idx) as [w|] eqn:E; [|eexists; reflexivity].
      destruct i as [|i].
      + assert (H : nth_error weights idx <> None) by congruence.
        apply nth_error_Some in H. lia.
      + apply (IH i Hv (S idx)). lia.
    - cbn [combine_values]. destruct i as [|i]; [discriminate|].
      apply (IH i Hv (S idx)). lia. }
  destruct (Hloop []) as [msg Hmsg]. exists msg. now rewrite Hmsg.
Qed.

(** The grid of [save_pdf] has PDF_NB_POINTS points. *)
Lemma pdf_grid_length (lo hi : R) :
  length (np_linspace lo hi PDF_NB_POINTS) = PDF_NB_POINTS.
Proof.
  unfold PDF_NB_POINTS, np_linspace. now rewrite length_map, length_seq.
Qed.

(** X16.  [save_pdf] accounts for every variable: when each analysed
    variable has a non-empty column with as many values as the likelihood,
    and the density fit raises nothing but LinAlgError or ValueError, the
    loop runs to its end and leaves, for each variable in order, either the
    printed line that its PDF cannot be computed or the table written to
    the variable's own file, with the grid of 1000 points under the
    variable's name and the density under "probability density". *)
Theorem save_pdf_every_variable (obsid : string) (analysed_variables : list string)
        (model_variables : list (list R)) (likelihood : list R) :
  (forall i var_name,
      nth_error analysed_variables i = Some var_name ->
      exists values, nth_error model_variables i = Some values
                     /\ values <> []
                     /\ length values = length likelihood) ->
  (forall dataset grid e,
      gaussian_kde dataset grid = Raise e ->
      exists msg, e = LinAlgError msg \/ e = ValueError msg) ->
  exists outs,
    save_pdf gaussian_kde obsid analysed_variables model_variables likelihood
    = Return outs
    /\ Forall2 (fun var_name out =>
                  out = Printed (cannot_compute obsid var_name)
                  \/ exists grid density,
                      out = TableWritten (pdf_file obsid var_name)
                                         [(var_name, grid);
                                          ("probability density"%string, density)]
                      /\ length grid = PDF_NB_POINTS)
               analysed_variables outs.
Proof.
  intros Hcols Hkde. unfold save_pdf.
  assert (Hcols' : forall i var_name,
             nth_error analysed_variables i = Some var_name ->
             exists values, nth_error model_variables (0 + i) = Some values
                            /\ values <> []
                            /\ length values = length likelihood)
    by exact Hcols.
  clear Hcols. generalize dependent 0%nat.
  induction analysed_variables as [|var_name rest IH]; intros start Hcols.
  - exists []. split; [reflexivity | constructor].
  - cbn [save_pdf_from].
    destruct (Hcols 0%nat var_name eq_refl) as (values & Hcol & Hne & Hlen).
    rewrite Nat.add_0_r in Hcol.
    destruct (IH (S start)) as (outs & Hrest & Hall).
    { intros i name Hi. replace (S start + i)%nat with (start + S i)%nat by lia.
      exact (Hcols (S i) name Hi). }
    rewrite Hrest.
    unfold save_one_pdf. rewrite Hcol.
    destruct values as [|v0 vs]; [congruence|]. cbn [arr_min arr_max bind].
    set (values := v0 :: vs) in *.
    set (grid := np_linspace _ _ PDF_NB_POINTS).
    rewrite gen_pdf_steps by now rewrite length_map.
    set (sample := Spec.pooled_sample _ _).
    destruct (gaussian_kde sample grid) as [density | e] eqn:Hfit.
    + cbn [bind]. eexists. split; [reflexivity|].
      constructor; [|exact Hall]. right. exists grid, density.
      split; [reflexivity | apply pdf_grid_length].
    + destruct (Hkde _ _ _ Hfit) as (msg & [-> | ->]); cbn [bind];
        (eexists; split; [reflexivity|]; constructor; [now left | exact Hall]).
Qed.

End Fit.

Import Examples.

Lemma gen_pdf_threshold_witness :
  exists sample,
    combine_values [Some 5; None; Some 7] 0
                   (map (fun p => np_around (100 * p)) [0.004; 0.9; 0.011]) []
    = Return sample
    /\ (forall v, In v sample
                  <-> exists p, In (Some v, p)
                                   (combine [Some 5; None; Some 7] [0.004; 0.9; 0.011])
                                /\ 0.005 < p)
    /\ gen_pdf toy_kde [Some 5; None; Some 7] [0.004; 0.9; 0.011] [5; 7]
       = match toy_kde sample [5; 7] with
         | Return density => Return (Some density)
         | Raise (LinAlgError _) | Raise (ValueError _) => Return None
         | Raise e => Raise e
         end.
Proof.
  exact (gen_pdf_threshold toy_kde [Some 5; None; Some 7] [0.004; 0.9; 0.011] [5; 7]
                           eq_refl).
Defined.

Lemma gen_pdf_short_probabilities_witness :
  exists msg,
    gen_pdf toy_kde [None; Some 7] [0.5] [5; 7] = Raise (IndexError msg).
Proof.
  apply (gen_pdf_short_probabilities toy_kde [None; Some 7] [0.5] [5; 7] 1%nat 7).
  - reflexivity.
  - simpl. lia.
Defined.

Lemma toy_kde_raises (dataset grid : list R) (e : exn) :
  toy_kde dataset grid = Raise e ->
  exists msg, e = LinAlgError msg \/ e = ValueError msg.
Proof.
  unfold toy_kde. destruct dataset as [|a [|b l]]; intros H; inversion H; subst.
  - eexists. right. reflexivity.
  - eexists. left. reflexivity.
Qed.

Lemma save_pdf_every_variable_witness :
  exists outs,
    save_pdf toy_kde "obs1" ["sfr"%string; "age"%string] [[5; 7]; [1; 2]] [0.004; 0.011]
    = Return outs
    /\ Forall2 (fun var_name out =>
                  out = Printed (cannot_compute "obs1" var_name)
                  \/ exists grid density,
                      out = TableWritten (pdf_file "obs1" var_name)
                                         [(var_name, grid);
                                          ("probability density"%string, density)]
                      /\ length grid = PDF_NB_POINTS)
               ["sfr"%string; "age"%string] outs.
Proof.
  apply (save_pdf_every_variable toy_kde "obs1" ["sfr"%string; "age"%string]
                                 [[5; 7]; [1; 2]] [0.004; 0.011]).
  - intros [|[|i]] name Hi; try (destruct i; discriminate);
      eexists; (split; [reflexivity | split; [discriminate | reflexivity]]).
  - apply toy_kde_raises.
Defined.

End KernelDensityMore.

(** ** The binned PDF of Module.process *)

Module BinnedPdf.

Import Psum.
Import PsumProcess.
Import SpecMore.


















End BinnedPdf.

(** ** The smooth quenching of the star formation history *)

Module Quenching.

Import SfhQuenchSmooth.

(** The history after the ramp is set, for a quenching age within the
    history. *)
Lemma process_steps (self : parameters) (sfr : list R) :
  (1 <= quenching_age self <= Z.of_nat (length sfr))%Z ->
  0 < quenching_factor self ->
  let age := Z.to_nat (quenching_age self) in
  let start := (length sfr - age)%nat in
  exists sfr0,
    nth_error sfr start = Some sfr0
    /\ let quenched :=
         firstn start sfr
           ++ map (fun x => sfr0 + (sfr0 * (1 - quenching_factor self) - sfr0) * x)
                  (np_linspace 0 1 age) in
       process self sfr
       = Return (Some (if normalise self
                       then (map (fun x => np_div x (Fin (Spec.Sigma (fun x => x) quenched
                                                          * 1e6)))
                                 (np_copy quenched), Fin 1)
                       else (np_copy quenched,
                             Fin (Spec.Sigma (fun x => x) quenched * 1e6)))).
Proof.
  intros Hage Hfactor age start.
  assert (Hstart : (start < length sfr)%nat) by (unfold start, age; lia).
  destruct (nth_error sfr start) as [sfr0|] eqn:E;
    [|apply nth_error_None in E; lia].
  exists sfr0. split; [reflexivity|]. intros quenched.
  unfold process.
  replace (Z.of_nat (length sfr) <? quenching_age self)%Z with false
    by (symmetry; apply Z.ltb_ge; lia).
  replace (0 <? quenching_age self)%Z with true by (symmetry; apply Z.ltb_lt; lia).
  apply Rltb_true in Hfactor. rewrite Hfactor. cbn [andb].
  fold age. fold start. rewrite E. fold quenched.
  rewrite np_sum_copy. cbn [np_mul].
  destruct (normalise self); reflexivity.
Qed.

Lemma linspace_length (num : nat) : length (np_linspace 0 1 num) = num.
Proof.
  destruct num as [|[|n]]; try reflexivity.
  unfold np_linspace. now rewrite length_map, length_seq.
Qed.

Lemma linspace_nth (num j : nat) :
  (2 <= num)%nat -> (j < num)%nat ->
  nth_error (np_linspace 0 1 num) j = Some (INR j / INR (num - 1)).
Proof.
  intros Hnum Hj. destruct num as [|[|n]]; try lia.
  unfold np_linspace. rewrite nth_error_map, nth_error_seq.
  replace (j <? S (S n))%nat with true by (symmetry; apply Nat.ltb_lt; lia).
  cbn [option_map Nat.add]. f_equal.
  replace (S (S n) - 1)%nat with (S n) by lia. unfold Rdiv. lra.
Qed.

(** X19.  The ramp of the quenching: for a quenching age of 2 at least and
    at most the length of the history, and a quenching factor above 0,
    without normalisation, the history keeps its length and every rate up
    to the step where the quenching starts, that step included; from there
    the rates go linearly from that rate sfr0 down to sfr0 * (1 - factor)
    at the last step, and the integrated star formation is the sum of the
    new rates times 1e6. *)
Theorem quenching_ramp (self : parameters) (sfr : list R) :
  (2 <= quenching_age self <= Z.of_nat (length sfr))%Z ->
  0 < quenching_factor self ->
  normalise self = false ->
  let age := Z.to_nat (quenching_age self) in
  let start := (length sfr - age)%nat in
  exists sfr0 quenched,
    nth_error sfr start = Some sfr0
    /\ process self sfr
       = Return (Some (np_copy quenched,
                       Fin (Spec.Sigma (fun x => x) quenched * 1e6)))
    /\ length quenched = length sfr
    /\ (forall i, (i <= start)%nat -> nth_error quenched i = nth_error sfr i)
    /\ (forall j, (j < age)%nat ->
                  nth_error quenched (start + j)
                  = Some (sfr0 * (1 - quenching_factor self * (INR j / INR (age - 1)))))
    /\ nth_error quenched (length sfr - 1)
       = Some (sfr0 * (1 - quenching_factor self)).
Proof.
  intros Hage Hfactor Hnorm age start.
  destruct (process_steps self sfr ltac:(lia) Hfactor) as (sfr0 & Hsfr0 & Hrun).
  fold age in Hsfr0, Hrun. fold start in Hsfr0, Hrun. cbv zeta in Hrun.
  rewrite Hnorm in Hrun.
  set (quenched := firstn start sfr ++ _) in Hrun.
  assert (Hstart : (start + age = length sfr)%nat) by (unfold start, age; lia).
  assert (Hfirst : length (firstn start sfr) = start)
    by (rewrite length_firstn; lia).
  assert (Hramp : forall j, (j < age)%nat ->
             nth_error quenched (start + j)
             = Some (sfr0 * (1 - quenching_factor self * (INR j / INR (age - 1))))).
  { intros j Hj. unfold quenched.
    rewrite nth_error_app2 by lia. rewrite Hfirst.
    replace (start + j - start)%nat with j by lia.
    rewrite nth_error_map, linspace_nth by (unfold age; lia).
    cbn [option_map]. f_equal. lra. }
  exists sfr0, quenched. repeat split.
  - exact Hsfr0.
  - exact Hrun.
  - unfold quenched. rewrite length_app, length_map, linspace_length. lia.
  - intros i Hi. destruct (Nat.eq_dec i start) as [-> | Hneq].
    + rewrite Hsfr0. replace start with (start + 0)%nat at 1 by lia.
      rewrite Hramp by (unfold age; lia). f_equal. simpl INR. unfold Rdiv. lra.
    + unfold quenched. rewrite nth_error_app1 by lia.
      rewrite nth_error_firstn.
      replace (i <? start)%nat with true by (symmetry; apply Nat.ltb_lt; lia).
      reflexivity.
  - exact Hramp.
  - replace (length sfr - 1)%nat with (start + (age - 1))%nat by (unfold age in *; lia).
    rewrite Hramp by (unfold age; lia). f_equal.
    rewrite Rdiv_diag; [lra|]. apply not_0_INR. unfold age. lia.
Qed.

Lemma quenching_ramp_witness :
  exists sfr0 quenched,
    nth_error [5; 4; 4; 4] 1 = Some sfr0
    /\ process (Parameters 3 0.5 false) [5; 4; 4; 4]
       = Return (Some (np_copy quenched,
                       Fin (Spec.Sigma (fun x => x) quenched * 1e6)))
    /\ length quenched = 4%nat
    /\ (forall i, (i <= 1)%nat -> nth_error quenched i = nth_error [5; 4; 4; 4] i)
    /\ (forall j, (j < 3)%nat ->
                  nth_error quenched (1 + j)
                  = Some (sfr0 * (1 - 0.5 * (INR j / INR 2))))
    /\ nth_error quenched 3 = Some (sfr0 * (1 - 0.5)).
Proof.
  apply (quenching_ramp (Parameters 3 0.5 false) [5; 4; 4; 4]).
  - simpl. lia.
  - simpl. lra.
  - reflexivity.
Defined.

(** X20.  A quenching age of 1 quenches nothing: the only step of the ramp
    is the step where the quenching starts, which keeps its rate, so the
    history comes out as it went in, whatever the quenching factor above
    0. *)
Theorem quenching_age_one (self : parameters) (sfr : list R) :
  quenching_age self = 1%Z ->
  sfr <> [] ->
  0 < quenching_factor self ->
  normalise self = false ->
  process self sfr
  = Return (Some (np_copy sfr, Fin (Spec.Sigma (fun x => x) sfr * 1e6))).
Proof.
  intros Hage Hne Hfactor Hnorm.
  assert (Hlen : (1 <= length sfr)%nat)
    by (destruct sfr; [congruence | simpl; lia]).
  destruct (process_steps self sfr ltac:(lia) Hfactor) as (sfr0 & Hsfr0 & Hrun).
  cbv zeta in Hrun. rewrite Hnorm, Hage in Hrun. rewrite Hage in Hsfr0.
  change (Z.to_nat 1) with 1%nat in *. cbn [np_linspace map] in Hrun.
  assert (Hsame : firstn (length sfr - 1) sfr
                    ++ [sfr0 + (sfr0 * (1 - quenching_factor self) - sfr0) * 0]
                  = sfr).
  { rewrite <- (firstn_skipn (length sfr - 1) sfr) at 3. f_equal.
    apply nth_error_split in Hsfr0 as (front & back & Hsplit & Hfront).
    rewrite Hsplit at 2. rewrite <- Hfront at 1.
    rewrite skipn_app, skipn_all, Nat.sub_diag. cbn [skipn app].
    assert (back = []).
    { rewrite Hsplit, length_app in Hfront. simpl in Hfront.
      destruct back; [reflexivity | simpl in Hfront; lia]. }
    subst back. f_equal. lra. }
  rewrite Hsame in Hrun. exact Hrun.
Qed.

Lemma quenching_age_one_witness :
  process (Parameters 1 1 false) [5; 4; 3]
  = Return (Some (np_copy [5; 4; 3], Fin (Spec.Sigma (fun x => x) [5; 4; 3] * 1e6))).
Proof.
  apply (quenching_age_one (Parameters 1 1 false) [5; 4; 3]).
  - reflexivity.
  - discriminate.
  - simpl. lra.
  - reflexivity.
Defined.

(** X21.  Every outcome of [process]: it raises exactly when the quenching
    age is greater than the length of the history; it leaves the history
    and its integral alone exactly when, the age being within the history,
    the age or the factor is not above 0, whatever [normalise] says; and
    otherwise it sets a history of the same length. *)
Theorem quenching_outcomes (self : parameters) (sfr : list R) :
  match process self sfr with
  | Raise e =>
      (Z.of_nat (length sfr) < quenching_age self)%Z
      /\ exists msg, e = OtherError "Exception" msg
  | Return None =>
      (quenching_age self <= Z.of_nat (length sfr))%Z
      /\ ((quenching_age self <= 0)%Z \/ quenching_factor self <= 0)
  | Return (Some (sfh, _)) =>
      (0 < quenching_age self <= Z.of_nat (length sfr))%Z
      /\ 0 < quenching_factor self
      /\ length sfh = length sfr
  end.
Proof.
  destruct (Z.ltb_spec (Z.of_nat (length sfr)) (quenching_age self)) as [Hbig | Hfit].
  - unfold process.
    replace (Z.of_nat (length sfr) <? quenching_age self)%Z with true
      by (symmetry; apply Z.ltb_lt; lia).
    split; [assumption | eexists; reflexivity].
  - destruct (Z.ltb_spec 0 (quenching_age self)) as [Hpos | Hzero].
    + destruct (Rlt_le_dec 0 (quenching_factor self)) as [Hfactor | Hfactor].
      * destruct (process_steps self sfr ltac:(lia) Hfactor) as (sfr0 & _ & Hrun).
        cbv zeta in Hrun. rewrite Hrun.
        assert (Hlen : length (firstn (length sfr - Z.to_nat (quenching_age self)) sfr
                               ++ map (fun x => sfr0 + (sfr0 * (1 - quenching_factor self)
                                                        - sfr0) * x)
                                      (np_linspace 0 1 (Z.to_nat (quenching_age self))))
                       = length sfr).
        { rewrite length_app, length_map, linspace_length, length_firstn. lia. }
        destruct (normalise self); unfold np_copy; rewrite ?length_map, Hlen;
          repeat split; (lia || assumption).
      * unfold process.
        replace (Z.of_nat (length sfr) <? quenching_age self)%Z with false
          by (symmetry; apply Z.ltb_ge; lia).
        apply Rltb_false in Hfactor. rewrite Hfactor, andb_false_r.
        apply Rltb_false in Hfactor. split; [lia | now right].
    + unfold process.
      replace (Z.of_nat (length sfr) <? quenching_age self)%Z with false
        by (symmetry; apply Z.ltb_ge; lia).
      replace (0 <? quenching_age self)%Z with false
        by (symmetry; apply Z.ltb_ge; lia).
      cbn [andb]. split; [lia | left; lia].
Qed.

(** X22.  Normalisation to one solar mass: for a history of non-negative
    rates with a positive rate where the quenching starts, a quenching age
    within the history and a factor in (0, 1], [process] with [normalise]
    sets a history of finite non-negative rates whose sum times 1e6 is 1,
    and reports 1 as the integrated star formation. *)
Theorem quenching_normalised (self : parameters) (sfr : list R) (sfr0 : R) :
  (1 <= quenching_age self <= Z.of_nat (length sfr))%Z ->
  0 < quenching_factor self <= 1 ->
  normalise self = true ->
  Forall (fun x => 0 <= x) sfr ->
  nth_error sfr (length sfr - Z.to_nat (quenching_age self)) = Some sfr0 ->
  0 < sfr0 ->
  exists normalised,
    process self sfr = Return (Some (np_copy normalised, Fin 1))
    /\ length normalised = length sfr
    /\ Forall (fun x => 0 <= x) normalised
    /\ Spec.Sigma (fun x => x) normalised * 1e6 = 1.
Proof.
  intros Hage [Hfactor Hone] Hnorm Hpos Hstart Hsfr0.
  destruct (process_steps self sfr Hage Hfactor) as (sfr0' & Hsfr0' & Hrun).
  rewrite Hstart in Hsfr0'. injection Hsfr0' as <-.
  cbv zeta in Hrun. rewrite Hnorm in Hrun.
  set (age := Z.to_nat (quenching_age self)) in *.
  set (start := (length sfr - age)%nat) in *.
  set (quenched := firstn start sfr ++ _) in Hrun.
  assert (Hlin : forall x, In x (np_linspace 0 1 age) -> 0 <= x <= 1).
  { intros x Hx. destruct age as [|[|n]] eqn:Eage; [contradiction | |].
    - destruct Hx as [<- | []]. lra.
    - unfold np_linspace in Hx. apply in_map_iff in Hx as (i & <- & Hi).
      apply in_seq in Hi.
      assert (Hn : 0 < INR (S n)) by (apply lt_0_INR; lia).
      assert (Hi' : 0 <= INR i <= INR (S n))
        by (split; [apply pos_INR | apply le_INR; lia]).
      replace (0 + INR i * ((1 - 0) / INR (S n))) with (INR i / INR (S n))
        by (unfold Rdiv; lra).
      split.
      + apply Rmult_le_pos; [lra | left; now apply Rinv_0_lt_compat].
      + apply Rmult_le_reg_r with (INR (S n)); [lra|].
        unfold Rdiv. rewrite Rmult_assoc, Rinv_l by lra. lra. }
  assert (Hq : Forall (fun x => 0 <= x) quenched).
  { unfold quenched. apply Forall_app. split.
    - apply Forall_forall. intros x Hx. rewrite Forall_forall in Hpos.
      apply Hpos. rewrite <- (firstn_skipn start sfr). apply in_or_app. now left.
    - apply Forall_forall. intros y Hy. apply in_map_iff in Hy as (x & <- & Hx).
      specialize (Hlin x Hx).
      replace (sfr0 + (sfr0 * (1 - quenching_factor self) - sfr0) * x)
        with (sfr0 * (1 - quenching_factor self * x)) by ring.
      apply Rmult_le_pos; [lra|].
      assert (quenching_factor self * x <= 1 * 1)
        by (apply Rmult_le_compat; lra).
      lra. }
  assert (Hin : In sfr0 quenched).
  { unfold quenched. apply in_or_app. right. apply in_map_iff.
    exists 0. split; [lra|].
    assert (Hage1 : (1 <= age)%nat) by (unfold age; lia).
    destruct age as [|[|n]]; [lia | now left |].
    unfold np_linspace. apply in_map_iff. exists 0%nat. split.
    - simpl INR. lra.
    - apply in_seq. lia. }
  assert (Htotal : 0 < Spec.Sigma (fun x => x) quenched).
  { clear - Hq Hin Hsfr0. induction quenched as [|x l IH]; [contradiction|].
    inversion Hq as [|? ? Hx Hl]; subst. cbn.
    assert (0 <= Spec.Sigma (fun x => x) l) by (apply Sigma_nonneg; intros a Ha;
      rewrite Forall_forall in Hl; now apply Hl).
    unfold Spec.Sigma in *. destruct Hin as [-> | Hin]; [lra|].
    specialize (IH Hl Hin). lra. }
  set (total := Spec.Sigma (fun x => x) quenched * 1e6) in *.
  assert (Ht : 0 < total) by (unfold total; lra).
  exists (map (fun x => x / total) quenched).
  split; [|split; [|split]].
  - rewrite Hrun. unfold np_copy. rewrite !map_map.
    rewrite (map_ext (fun x => np_div (Fin x) (Fin total)) (fun x => Fin (x / total)));
      [reflexivity|].
    intros x. apply np_div_Fin. lra.
  - rewrite length_map. unfold quenched.
    rewrite length_app, length_map, length_firstn.
    assert (Hl : length (np_linspace 0 1 age) = age).
    { destruct age as [|[|n]]; try reflexivity.
      unfold np_linspace. now rewrite length_map, length_seq. }
    rewrite Hl. unfold start, age. lia.
  - apply Forall_forall. intros y Hy. apply in_map_iff in Hy as (x & <- & Hx).
    rewrite Forall_forall in Hq. specialize (Hq x Hx).
    apply Rmult_le_pos; [assumption | left; now apply Rinv_0_lt_compat].
  - rewrite Sigma_map. unfold Rdiv. rewrite Sigma_const.
    unfold total. field. lra.
Qed.

Lemma quenching_normalised_witness :
  exists normalised,
    process (Parameters 2 0.5 true) [5; 4; 4] = Return (Some (np_copy normalised, Fin 1))
    /\ length normalised = 3%nat
    /\ Forall (fun x => 0 <= x) normalised
    /\ Spec.Sigma (fun x => x) normalised * 1e6 = 1.
Proof.
  apply (quenching_normalised (Parameters 2 0.5 true) [5; 4; 4] 4).
  - simpl. lia.
  - simpl. lra.
  - reflexivity.
  - repeat constructor; lra.
  - reflexivity.
  - lra.
Defined.

End Quenching.

(** ** The counter of models *)

Module CounterFacts.

Import Counter.
Local Open Scope Z_scope.

Lemma c_int_small (z : Z) : -2 ^ 31 <= z < 2 ^ 31 -> c_int z = z.
Proof. intros H. unfold c_int. rewrite Z.mod_small; lia. Qed.

(** The multiples of [fi] counted up to [p + 1]. *)
Lemma div_succ (fi p : Z) :
  0 < fi ->
  fi * ((p + 1) / fi)
  = fi * (p / fi) + (if (p + 1) mod fi =? 0 then fi else 0).
Proof.
  intros Hfi.
  pose proof (Z.div_mod p fi ltac:(lia)) as Hp.
  pose proof (Z.mod_pos_bound p fi Hfi) as Hr.
  destruct (Z.eqb_spec ((p + 1) mod fi) 0) as [E | E].
  - assert (Hq : (p + 1) / fi = p / fi + 1).
    { symmetry. apply (Z.div_unique_pos (p + 1) fi (p / fi + 1) 0); [lia|].
      assert (Hm : p mod fi = fi - 1).
      { pose proof (Z.div_mod (p + 1) fi ltac:(lia)) as Hp1. rewrite E in Hp1.
        assert (fi * ((p + 1) / fi - p / fi) = p mod fi + 1) by lia.
        assert (0 < (p + 1) / fi - p / fi) by nia.
        assert ((p + 1) / fi - p / fi < 2) by nia.
        nia. }
      lia. }
    rewrite Hq. lia.
  - assert (Hq : (p + 1) / fi = p / fi).
    { symmetry. apply (Z.div_unique_pos (p + 1) fi (p / fi) (p mod fi + 1)); [|lia].
      split; [lia|].
      destruct (Z.eq_dec (p mod fi + 1) fi) as [Hfull | Hfull]; [|lia].
      exfalso. apply E.
      replace (p + 1) with (fi * (p / fi + 1)) by lia.
      rewrite Z.mul_comm. apply Z.mod_mul. lia. }
    rewrite Hq. lia.
Qed.

Lemma div_lag (fi p : Z) : 0 < fi -> p - (fi - 1) <= fi * (p / fi) <= p.
Proof.
  intros Hfi.
  pose proof (Z.div_mod p fi ltac:(lia)) as Hp.
  pose proof (Z.mod_pos_bound p fi Hfi) as Hr. lia.
Qed.

(** One call of [inc] for well-formed frequencies. *)
Lemma inc_steps (nm fi fp p g : Z) :
  0 < fi -> fp <> 0 ->
  inc (Build nm fi fp p) g
  = Return (Build nm fi fp (p + 1),
            (if (p + 1) mod fi =? 0 then c_int (g + fi) else g),
            (if (p + 1) mod fi =? 0
             then if c_int (g + fi) mod fp =? 0
                  then [Pprint (c_int (g + fi)) (c_int (g + fi) =? nm)]
                  else []
             else [])).
Proof.
  intros Hfi Hfp. unfold inc, py_mod.
  cbn [nmodels freq_inc freq_print proc_counter].
  replace (fi =? 0) with false by (symmetry; apply Z.eqb_neq; lia).
  replace (fp =? 0) with false by (symmetry; apply Z.eqb_neq; lia).
  cbn [bind].
  destruct ((p + 1) mod fi =? 0); [|reflexivity].
  cbn [bind]. unfold pprint. cbn [nmodels].
  destruct (c_int (g + fi) mod fp =? 0); reflexivity.
Qed.

Lemma init_steps (nm fi fp : Z) :
  fi <> 0 -> fp mod fi = 0 ->
  init nm fi fp = Return (Build nm fi fp 0, 0).
Proof.
  intros Hfi Hmul. unfold init, py_mod.
  replace (fi =? 0) with false by (symmetry; apply Z.eqb_neq; lia).
  cbn [bind]. rewrite Hmul. reflexivity.
Qed.

(** The counts at which one process prints. *)
Lemma incs_steps (nm fi fp : Z) (k : nat) (p : Z) (printed : list event) :
  0 < fi -> 0 < fp -> fp mod fi = 0 ->
  0 <= p -> p + Z.of_nat k < 2 ^ 31 ->
  incs k (Build nm fi fp p) (fi * (p / fi)) printed
  = Return (Build nm fi fp (p + Z.of_nat k),
            fi * ((p + Z.of_nat k) / fi),
            printed
              ++ map (fun n => Pprint n (n =? nm))
                     (filter (fun n => n mod fp =? 0)
                             (map (fun i => p + Z.of_nat i) (seq 1 k)))).
Proof.
  intros Hfi Hfp Hmul. revert p printed.
  induction k as [|k IH]; intros p printed Hp Hk.
  - cbn [incs seq map filter]. rewrite Z.add_0_r, app_nil_r. reflexivity.
  - cbn [incs]. rewrite inc_steps by lia. cbn [bind fst snd].
    pose proof (div_succ fi p Hfi) as Hdiv.
    pose proof (div_lag fi p Hfi) as Hlag.
    pose proof (div_lag fi (p + 1) Hfi) as Hlag1.
    assert (Hnext : (if (p + 1) mod fi =? 0 then c_int (fi * (p / fi) + fi)
                     else fi * (p / fi))
                    = fi * ((p + 1) / fi)).
    { destruct ((p + 1) mod fi =? 0); [rewrite c_int_small|]; lia. }
    rewrite Hnext, IH by lia.
    replace (p + 1 + Z.of_nat k) with (p + Z.of_nat (S k)) by lia.
    do 2 f_equal.
    assert (Hprint : (if (p + 1) mod fi =? 0
                      then if c_int (fi * (p / fi) + fi) mod fp =? 0
                           then [Pprint (c_int (fi * (p / fi) + fi))
                                        (c_int (fi * (p / fi) + fi) =? nm)]
                           else []
                      else [])
                     = map (fun n => Pprint n (n =? nm))
                           (filter (fun n => n mod fp =? 0) [p + 1])).
    { cbn [filter map].
      destruct (Z.eqb_spec ((p + 1) mod fi) 0) as [E | E].
      - assert (Hg : c_int (fi * (p / fi) + fi) = p + 1).
        { rewrite c_int_small by lia.
          pose proof (Z.div_mod (p + 1) fi ltac:(lia)). lia. }
        rewrite Hg. destruct ((p + 1) mod fp =? 0); reflexivity.
      - destruct (Z.eqb_spec ((p + 1) mod fp) 0) as [E' | E']; [|reflexivity].
        exfalso. apply E.
        apply Z.mod_divide in Hmul; [|lia]. apply Z.mod_divide in E'; [|lia].
        apply Z.mod_divide; [lia|]. eapply Z.divide_trans; eassumption. }
    rewrite Hprint, <- app_assoc, <- map_app, <- filter_app. do 3 f_equal.
    cbn [seq map app]. f_equal.
    rewrite <- (seq_shift k 1), map_map.
    apply map_ext. intros i. lia.
Qed.

(** The sum of the counters of the processes, and of the multiples of the
    increment frequency they hold. *)
Lemma sum_replace (f : counter -> Z) (processes : list counter) (pid : nat)
      (old new : counter) :
  nth_error processes pid = Some old ->
  fold_right Z.add 0 (map f (firstn pid processes ++ new :: skipn (S pid) processes))
  = fold_right Z.add 0 (map f processes) - f old + f new.
Proof.
  revert pid. induction processes as [|c l IH]; intros [|pid] H; try discriminate.
  - injection H as ->. cbn. lia.
  - cbn [nth_error] in H. specialize (IH pid H).
    change (firstn (S pid) (c :: l)) with (c :: firstn pid l).
    change (skipn (S (S pid)) (c :: l)) with (skipn (S pid) l).
    cbn [app map fold_right]. lia.
Qed.

Lemma sum_bounds (fi : Z) (processes : list counter) :
  0 < fi ->
  fold_right Z.add 0 (map proc_counter processes)
  - Z.of_nat (length processes) * (fi - 1)
  <= fi * fold_right Z.add 0 (map (fun c => proc_counter c / fi) processes)
  <= fold_right Z.add 0 (map proc_counter processes).
Proof.
  intros Hfi. induction processes as [|c l IH].
  - cbn. lia.
  - cbn [map fold_right length]. pose proof (div_lag fi (proc_counter c) Hfi). lia.
Qed.

(** X23.  One process counts right: a counter made with an increment
    frequency and a printing frequency above 0, the second a multiple of the
    first, after k calls of [inc] (k below 2^31) holds k in its own counter
    and the largest multiple of the increment frequency up to k in the
    global one, and has printed the multiples of the printing frequency up
    to k, each once and in order, the line of [nmodels] ended by a
    newline. *)
Theorem single_process_count (nmodels freq_inc freq_print : Z) (k : nat) :
  0 < freq_inc -> 0 < freq_print -> freq_print mod freq_inc = 0 ->
  Z.of_nat k < 2 ^ 31 ->
  exists self,
    init nmodels freq_inc freq_print = Return (self, 0)
    /\ incs k self 0 []
       = Return (Build nmodels freq_inc freq_print (Z.of_nat k),
                 freq_inc * (Z.of_nat k / freq_inc),
                 map (fun n => Pprint n (n =? nmodels))
                     (filter (fun n => n mod freq_print =? 0)
                             (map Z.of_nat (seq 1 k)))).
Proof.
  intros Hfi Hfp Hmul Hk.
  eexists. split; [apply init_steps; [lia | assumption]|].
  pose proof (incs_steps nmodels freq_inc freq_print k 0 [] Hfi Hfp Hmul
                         ltac:(lia) ltac:(lia)) as Hrun.
  rewrite Z.div_0_l, Z.mul_0_r in Hrun by lia.
  rewrite Hrun. cbn [app Z.add]. reflexivity.
Qed.

Lemma single_process_count_witness :
  exists self,
    init 6 2 4 = Return (self, 0)
    /\ incs 6 self 0 []
       = Return (Build 6 2 4 (Z.of_nat 6),
                 2 * (Z.of_nat 6 / 2),
                 map (fun n => Pprint n (n =? 6))
                     (filter (fun n => n mod 4 =? 0) (map Z.of_nat (seq 1 6)))).
Proof.
  apply (single_process_count 6 2 4 6); try lia. reflexivity.
Defined.

(** X24.  A printing frequency of 0 gets past [__init__] and fails
    later: the counter is made, the calls of [inc] before the first global
    increment return with nothing printed, and the call that makes the first
    global increment raises ZeroDivisionError. *)
Theorem zero_print_frequency (nmodels freq_inc : Z) :
  0 < freq_inc ->
  exists self,
    init nmodels freq_inc 0 = Return (self, 0)
    /\ incs (Z.to_nat freq_inc - 1) self 0 []
       = Return (Build nmodels freq_inc 0 (freq_inc - 1), 0, [])
    /\ exists msg,
        inc (Build nmodels freq_inc 0 (freq_inc - 1)) 0 = Raise (ZeroDivisionError msg).
Proof.
  intros Hfi. eexists. split; [apply init_steps; [lia | apply Z.mod_0_l; lia]|].
  split.
  - assert (Hquiet : forall (k : nat) p,
               0 <= p -> p + Z.of_nat k < freq_inc ->
               incs k (Build nmodels freq_inc 0 p) 0 []
               = Return (Build nmodels freq_inc 0 (p + Z.of_nat k), 0, [])).
    { induction k as [|k IH]; intros p Hp Hk.
      - cbn [incs]. now rewrite Z.add_0_r.
      - cbn [incs]. unfold inc, py_mod.
        cbn [Counter.nmodels Counter.freq_inc Counter.freq_print Counter.proc_counter].
        replace (freq_inc =? 0) with false by (symmetry; apply Z.eqb_neq; lia).
        cbn [bind]. rewrite Z.mod_small by lia.
        replace (p + 1 =? 0) with false by (symmetry; apply Z.eqb_neq; lia).
        cbn [bind fst snd app]. rewrite IH by lia.
        do 4 f_equal. lia. }
    rewrite Hquiet by lia. do 4 f_equal. lia.
  - eexists. unfold inc, py_mod.
    cbn [Counter.nmodels Counter.freq_inc Counter.freq_print Counter.proc_counter].
    replace (freq_inc =? 0) with false by (symmetry; apply Z.eqb_neq; lia).
    cbn [bind]. replace (freq_inc - 1 + 1) with freq_inc by lia.
    rewrite Z.mod_same by lia. reflexivity.
Qed.

Lemma zero_print_frequency_witness :
  exists self,
    init 10 3 0 = Return (self, 0)
    /\ incs (Z.to_nat 3 - 1) self 0 [] = Return (Build 10 3 0 (3 - 1), 0, [])
    /\ exists msg, inc (Build 10 3 0 (3 - 1)) 0 = Raise (ZeroDivisionError msg).
Proof. apply (zero_print_frequency 10 3). lia. Defined.

(** X25.  Several processes, one global counter: whatever the order in
    which the processes call [inc] (fewer than 2^31 calls in all), every
    call returns, the counters of the processes add up to the number of
    calls, and the global counter is the sum over the processes of the
    largest multiple of the increment frequency each has reached; it never
    exceeds the number of calls and lags behind it by less than the
    increment frequency per process. *)
Theorem shared_count (nmodels freq_inc freq_print : Z) (n_processes : nat)
        (schedule : list nat) :
  0 < freq_inc -> 0 < freq_print -> freq_print mod freq_inc = 0 ->
  Forall (fun pid => (pid < n_processes)%nat) schedule ->
  Z.of_nat (length schedule) < 2 ^ 31 ->
  exists self processes global_counter,
    init nmodels freq_inc freq_print = Return (self, 0)
    /\ schedule_incs schedule (repeat self n_processes) 0
       = Return (processes, global_counter)
    /\ length processes = n_processes
    /\ fold_right Z.add 0 (map proc_counter processes) = Z.of_nat (length schedule)
    /\ global_counter
       = freq_inc * fold_right Z.add 0 (map (fun c => proc_counter c / freq_inc)
                                            processes)
    /\ Z.of_nat (length schedule) - Z.of_nat n_processes * (freq_inc - 1)
       <= global_counter <= Z.of_nat (length schedule).
Proof.
  intros Hfi Hfp Hmul Hpids Hcalls.
  exists (Build nmodels freq_inc freq_print 0).
  assert (Hrun : forall schedule processes,
             Forall (fun pid => (pid < length processes)%nat) schedule ->
             Forall (fun c => exists p, 0 <= p /\ c = Build nmodels freq_inc freq_print p)
                    processes ->
             fold_right Z.add 0 (map proc_counter processes)
             + Z.of_nat (length schedule) < 2 ^ 31 ->
             exists processes' global_counter,
               schedule_incs schedule processes
                 (freq_inc * fold_right Z.add 0
                                        (map (fun c => proc_counter c / freq_inc)
                                             processes))
               = Return (processes', global_counter)
               /\ length processes' = length processes
               /\ fold_right Z.add 0 (map proc_counter processes')
                  = fold_right Z.add 0 (map proc_counter processes)
                    + Z.of_nat (length schedule)
               /\ global_counter
                  = freq_inc * fold_right Z.add 0
                                          (map (fun c => proc_counter c / freq_inc)
                                               processes')).
  { clear schedule Hpids Hcalls.
    induction schedule as [|pid rest IH]; intros processes Hpids Hwf Hroom.
    - exists processes. eexists. cbn [schedule_incs length Z.of_nat].
      repeat split; lia.
    - inversion Hpids as [|? ? Hpid Hrest]; subst.
      cbn [schedule_incs].
      destruct (nth_error processes pid) as [old|] eqn:Eold;
        [|apply nth_error_None in Eold; lia].
      assert (Hold : exists p, 0 <= p /\ old = Build nmodels freq_inc freq_print p).
      { rewrite Forall_forall in Hwf. apply Hwf. eapply nth_error_In; eassumption. }
      destruct Hold as (p & Hp & ->).
      rewrite inc_steps by lia. cbn [bind fst snd].
      set (new := Build nmodels freq_inc freq_print (p + 1)).
      set (processes' := firstn pid processes ++ new :: skipn (S pid) processes).
      pose proof (sum_replace proc_counter processes pid _ new Eold) as Hsum.
      pose proof (sum_replace (fun c => proc_counter c / freq_inc) processes pid _ new Eold)
        as Hmult.
      fold processes' in Hsum, Hmult. cbn [proc_counter new] in Hsum, Hmult.
      unfold new in Hsum, Hmult. cbn [proc_counter] in Hsum, Hmult.
      pose proof (div_succ freq_inc p Hfi) as Hdiv.
      pose proof (sum_bounds freq_inc processes' Hfi) as Hbound'.
      pose proof (sum_bounds freq_inc processes Hfi) as Hbound.
      assert (Hwf' : Forall (fun c => exists p, 0 <= p
                                                /\ c = Build nmodels freq_inc freq_print p)
                            processes').
      { unfold processes'. apply Forall_app. split.
        - apply Forall_forall. intros c Hc. rewrite Forall_forall in Hwf. apply Hwf.
          rewrite <- (firstn_skipn pid processes). apply in_or_app. now left.
        - constructor; [exists (p + 1); split; [lia | reflexivity]|].
          apply Forall_forall. intros c Hc. rewrite Forall_forall in Hwf. apply Hwf.
          rewrite <- (firstn_skipn (S pid) processes). apply in_or_app. now right. }
      assert (Hnonneg : 0 <= fold_right Z.add 0
                                         (map (fun c => proc_counter c / freq_inc)
                                              processes)).
      { clear - Hwf Hfi. induction Hwf as [|c l (q & Hq & ->) _ IHl]; cbn; [lia|].
        pose proof (Z.div_pos q freq_inc Hq Hfi). lia. }
      assert (Hlen' : length processes' = length processes).
      { unfold processes'. rewrite length_app, length_firstn. cbn [length].
        rewrite length_skipn. lia. }
      cbn [length] in Hroom.
      assert (Hg : (if (p + 1) mod freq_inc =? 0
                    then c_int (freq_inc * fold_right Z.add 0
                                             (map (fun c => proc_counter c / freq_inc)
                                                  processes) + freq_inc)
                    else freq_inc * fold_right Z.add 0
                                      (map (fun c => proc_counter c / freq_inc)
                                           processes))
                   = freq_inc * fold_right Z.add 0
                                  (map (fun c => proc_counter c / freq_inc) processes')).
      { rewrite Hmult.
        destruct ((p + 1) mod freq_inc =? 0); [rewrite c_int_small|]; nia. }
      rewrite Hg.
      destruct (IH processes') as (final & g & Hfinal & Hflen & Hfsum & Hfg).
      + rewrite Hlen'. exact Hrest.
      + exact Hwf'.
      + lia.
      + exists final, g. rewrite Hfinal. cbn [length].
        repeat split; [lia | lia | exact Hfg]. }
  destruct (Hrun schedule (repeat (Build nmodels freq_inc freq_print 0) n_processes))
    as (processes & g & Hfinal & Hlen & Hsum & Hg).
  - now rewrite repeat_length.
  - apply Forall_forall. intros c Hc. apply repeat_spec in Hc. exists 0. split; [lia | exact Hc].
  - assert (H0 : fold_right Z.add 0
                   (map proc_counter (repeat (Build nmodels freq_inc freq_print 0)
                                             n_processes)) = 0)
      by (clear; induction n_processes as [|n IHn]; cbn; [reflexivity | exact IHn]).
    lia.
  - assert (H0 : fold_right Z.add 0
                   (map proc_counter (repeat (Build nmodels freq_inc freq_print 0)
                                             n_processes)) = 0)
 by (clear; induction n_processes as [|n IHn]; cbn; [reflexivity | exact IHn]).
    assert (H0' : fold_right Z.add 0
                    (map (fun c => proc_counter c / freq_inc)
                         (repeat (Build nmodels freq_inc freq_print 0) n_processes)) = 0).
    { clear. induction n_processes as [|n IHn]; [reflexivity|].
      cbn [repeat map fold_right proc_counter]. rewrite IHn.
      destruct freq_inc; reflexivity. }
    rewrite H0', Z.mul_0_r in Hfinal.
    rewrite repeat_length in Hlen.
    exists processes, g.
    split; [apply init_steps; [lia | assumption]|].
    split; [exact Hfinal|]. split; [exact Hlen|]. split; [lia|]. split; [exact Hg|].
    pose proof (sum_bounds freq_inc processes Hfi). rewrite Hlen in *. lia.
Qed.

Lemma shared_count_witness :
  exists self processes global_counter,
    init 100 3 6 = Return (self, 0)
    /\ schedule_incs [0; 1; 0; 0; 1]%nat (repeat self 2) 0
       = Return (processes, global_counter)
    /\ length processes = 2%nat
    /\ fold_right Z.add 0 (map proc_counter processes)
       = Z.of_nat (length [0; 1; 0; 0; 1]%nat)
    /\ global_counter
       = 3 * fold_right Z.add 0 (map (fun c => proc_counter c / 3) processes)
    /\ Z.of_nat (length [0; 1; 0; 0; 1]%nat) - Z.of_nat 2 * (3 - 1)
       <= global_counter <= Z.of_nat (length [0; 1; 0; 0; 1]%nat).
Proof.
  apply (shared_count 100 3 6 2 [0; 1; 0; 0; 1]%nat); try lia.
  - reflexivity.
  - repeat constructor.
  - simpl. lia.
Defined.

End CounterFacts.

(** ** The combinations of a parameter dictionary *)

Module ParameterCombinations.

Import SessionTools.
Import SpecMore.

Section Combinations.

Context {A : Type}.


Lemma setitem_notin {V : Type} (l : dict V) (key : string) (v : V) :
  ~ In key (map fst l) -> setitem l key v = l ++ [(key, v)].
Proof.
  induction l as [|[k u] l IH]; intros Hnot; [reflexivity|].
  cbn [setitem]. destruct (String.eqb_spec k key) as [-> | _].
  - exfalso. apply Hnot. now left.
  - cbn [app]. f_equal. apply IH. intros H. apply Hnot. now right.
Qed.

Lemma setitem_there {V : Type} (l1 l2 : dict V) (key : string) (u v : V) :
  ~ In key (map fst l1) ->
  setitem (l1 ++ (key, u) :: l2) key v = l1 ++ (key, v) :: l2.
Proof.
  induction l1 as [|[k w] l1 IH]; intros Hnot; cbn [app setitem].
  - now rewrite String.eqb_refl.
  - destruct (String.eqb_spec k key) as [-> | _].
    + exfalso. apply Hnot. now left.
    + f_equal. apply IH. intros H. apply Hnot. now right.
Qed.

Lemma getitem_In {V : Type} (l : dict V) (key : string) (v : V) :
  NoDup (map fst l) -> In (key, v) l -> getitem l key = Return v.
Proof.
  induction l as [|[k u] l IH]; intros Hnd Hin; [contradiction|].
  cbn [map fst] in Hnd. inversion Hnd as [|? ? Hk Hl]; subst.
  cbn [getitem]. destruct Hin as [Heq | Hin].
  - injection Heq as -> ->. now rewrite String.eqb_refl.
  - destruct (String.eqb_spec k key) as [-> | _]; [|now apply IH].
    exfalso. apply Hk. apply in_map_iff. now exists (key, v).
Qed.

(** The first loop puts every single element in a list of its own. *)
Lemma normalise_loop (before rest : dict (value A)) :
  NoDup (map fst (before ++ rest)) ->
  fold_left (fun d kv => match snd kv with
                         | Single a => setitem d (fst kv) (Iterable [a])
                         | Iterable _ => d
                         end)
            rest
            (map (fun kv => (fst kv, Iterable (choices (snd kv)))) before ++ rest)
  = map (fun kv => (fst kv, Iterable (choices (snd kv)))) (before ++ rest).
Proof.
  revert before. induction rest as [|[k v] rest IH]; intros before Hnd.
  - now rewrite !app_nil_r.
  - cbn [fold_left fst snd].
    assert (Hnot : ~ In k (map fst (map (fun kv => (fst kv, Iterable (choices (snd kv))))
                                        before))).
    { rewrite map_map. cbn [fst]. rewrite map_app in Hnd.
      apply NoDup_remove_2 in Hnd. intros H. apply Hnd. apply in_or_app. now left. }
    assert (Hstep : (match v with
                     | Single a =>
                         setitem (map (fun kv => (fst kv, Iterable (choices (snd kv))))
                                      before ++ (k, v) :: rest) k (Iterable [a])
                     | Iterable _ =>
                         map (fun kv => (fst kv, Iterable (choices (snd kv)))) before
                           ++ (k, v) :: rest
                     end)
                    = map (fun kv => (fst kv, Iterable (choices (snd kv))))
                          (before ++ [(k, v)]) ++ rest).
    { rewrite map_app, <- app_assoc. cbn [map app fst snd].
      destruct v as [a | items]; [now rewrite setitem_there | reflexivity]. }
    rewrite Hstep, IH; rewrite <- app_assoc; [reflexivity | exact Hnd].
Qed.

Lemma value_arrays_steps (dictionary items : dict (value A)) :
  NoDup (map fst dictionary) ->
  incl items dictionary ->
  Forall (fun kv => exists pool, snd kv = Iterable pool) items ->
  value_arrays A dictionary (map fst items)
  = Return (map (fun kv => choices (snd kv)) items).
Proof.
  intros Hnd. induction items as [|[k v] items IH]; intros Hincl Hall; [reflexivity|].
  inversion Hall as [|? ? (pool & Hpool) Hrest]; subst. cbn [snd] in Hpool. subst v.
  cbn [map fst value_arrays].
  rewrite (getitem_In dictionary k (Iterable pool)) by (assumption || (apply Hincl; now left)).
  cbn [bind iterate]. rewrite IH; [reflexivity | | assumption].
  intros x Hx. apply Hincl. now right.
Qed.

Lemma combine_keys_distinct {V : Type} (keys : list string) (c : list V) :
  NoDup keys -> NoDup (map fst (combine keys c)).
Proof.
  revert c. induction keys as [|k keys IH]; intros [|a c] Hnd; try constructor.
  - inversion Hnd as [|? ? Hk Hks]; subst. intros Hin. apply Hk.
    apply in_map_iff in Hin as ([k' a'] & Hfst & Hin). cbn [fst] in Hfst. subst k'.
    now apply in_combine_l in Hin.
  - inversion Hnd; subst. now apply IH.
Qed.

Lemma dict_of_distinct {V : Type} (pairs : list (string * V)) :
  NoDup (map fst pairs) -> dict_of pairs = pairs.
Proof.
  unfold dict_of. intros Hnd.
  assert (Hgen : forall acc, NoDup (map fst (acc ++ pairs)) ->
             fold_left (fun d kv => setitem d (fst kv) (snd kv)) pairs acc
             = acc ++ pairs).
  { clear Hnd. induction pairs as [|[k v] pairs IH]; intros acc Hnd.
    - now rewrite app_nil_r.
    - cbn [fold_left fst snd]. rewrite setitem_notin.
      + rewrite IH; rewrite <- app_assoc; [reflexivity | exact Hnd].
      + rewrite map_app in Hnd. apply NoDup_remove_2 in Hnd.
        intros H. apply Hnd. apply in_or_app. now left. }
  apply (Hgen []). exact Hnd.
Qed.

(** What [param_dict_combine] returns for a dictionary. *)
Lemma param_dict_combine_steps (d : dict (value A)) :
  NoDup (map fst d) ->
  param_dict_combine d
  = Return (map (fun combination => combine (map fst d) combination)
                (product (map (fun kv => choices (snd kv)) d))).
Proof.
  intros Hnd. unfold param_dict_combine.
  pose proof (normalise_loop [] d Hnd) as Hloop. cbn [map app] in Hloop.
  rewrite Hloop. clear Hloop.
  set (d' := map (fun kv => (fst kv, Iterable (choices (snd kv)))) d).
  assert (Hkeys : map fst d' = map fst d)
    by (unfold d'; rewrite map_map; reflexivity).
  rewrite value_arrays_steps.
  - cbn [bind]. f_equal. rewrite Hkeys.
    assert (Hpools : map (fun kv => choices (snd kv)) d'
                     = map (fun kv => choices (snd kv)) d)
      by (unfold d'; rewrite map_map; reflexivity).
    rewrite Hpools. apply map_ext. intros c.
    apply dict_of_distinct. now apply combine_keys_distinct.
  - now rewrite Hkeys.
  - apply incl_refl.
  - unfold d'. apply Forall_forall. intros kv Hin.
    apply in_map_iff in Hin as (kv' & <- & _). eexists. reflexivity.
Qed.

Lemma product_length (pools : list (list A)) :
  length (product pools) = fold_right Nat.mul 1%nat (map (@length A) pools).
Proof.
  induction pools as [|pool pools IH]; [reflexivity|].
  cbn [product map fold_right]. rewrite <- IH. clear IH.
  induction pool as [|a pool IHp]; [reflexivity|].
  cbn [flat_map]. rewrite length_app, length_map, IHp. simpl. lia.
Qed.

Lemma In_product (pools : list (list A)) (c : list A) :
  In c (product pools) <-> Forall2 (fun pool a => In a pool) pools c.
Proof.
  revert c. induction pools as [|pool pools IH]; intros c; cbn [product].
  - split.
    + intros [<- | []]. constructor.
    + intros H. inversion H. now left.
  - rewrite in_flat_map. split.
    + intros (a & Ha & Hc). apply in_map_iff in Hc as (c' & <- & Hc').
      constructor; [assumption | now apply IH].
    + intros H. inversion H as [|? a ? c' Ha Hc']; subst.
      exists a. split; [assumption|]. apply in_map_iff. exists c'.
      split; [reflexivity | now apply IH].
Qed.

(** X26.  [param_dict_combine] gives all the combinations and nothing
    else: for a dictionary (keys pairwise distinct) it returns as many
    dictionaries as the product of the numbers of elements the keys offer, a
    single element counting as one; and a dictionary is among them exactly
    when it has the same keys, each associated with one of the elements the
    key offers. *)
Theorem all_combinations (d : dict (value A)) :
  NoDup (map fst d) ->
  exists combination_list,
    param_dict_combine d = Return combination_list
    /\ length combination_list
       = fold_right Nat.mul 1%nat (map (fun kv => length (choices (snd kv))) d)
    /\ forall c : dict A,
        In c combination_list
        <-> Forall2 (fun kv kc => fst kc = fst kv /\ In (snd kc) (choices (snd kv))) d c.
Proof.
  intros Hnd. eexists. split; [now apply param_dict_combine_steps|]. split.
  - rewrite length_map, product_length, map_map. reflexivity.
  - intros c. rewrite in_map_iff. split.
    + intros (combination & <- & Hin). apply In_product in Hin.
      clear Hnd. revert combination Hin.
      induction d as [|[k v] d IH]; intros combination Hin;
        inversion Hin as [|? a ? rest Ha Hrest]; subst; cbn [map combine fst];
        constructor; [split; [reflexivity | exact Ha] | now apply IH].
    + intros Hc. exists (map snd c). split.
      * clear Hnd. induction Hc as [|[k v] [k' a] d c [Hk _] _ IH]; [reflexivity|].
        cbn [fst snd] in Hk. subst k'. cbn [map combine fst snd]. now rewrite IH.
      * apply In_product. clear Hnd.
        induction Hc as [|[k v] [k' a] d c [_ Ha] _ IH]; constructor; assumption.
Qed.

(** X27.  No combination comes twice: when no key offers the same element
    twice, the dictionaries returned are pairwise distinct. *)
Theorem combinations_distinct (d : dict (value A)) :
  NoDup (map fst d) ->
  Forall (fun kv => NoDup (choices (snd kv))) d ->
  exists combination_list,
    param_dict_combine d = Return combination_list /\ NoDup combination_list.
Proof.
  intros Hnd Hall. eexists. split; [now apply param_dict_combine_steps|].
  assert (Hprod : forall pools, Forall (@NoDup A) pools -> NoDup (product pools)).
  { induction pools as [|pool pools IH]; intros Hp; [repeat constructor; intros []|].
    inversion Hp as [|? ? Hpool Hpools]; subst. specialize (IH Hpools).
    cbn [product]. clear Hp. induction Hpool as [|a pool Ha _ IHp]; [constructor|].
    cbn [flat_map]. apply NoDup_app.
    - apply Finite.Injective_map_NoDup; [|exact IH]. intros x y H. now injection H.
    - exact IHp.
    - intros c Hc Hc'. apply in_map_iff in Hc as (c1 & <- & _).
      apply in_flat_map in Hc' as (b & Hb & Hc').
      apply in_map_iff in Hc' as (c2 & Heq & _). injection Heq as -> _. contradiction. }
  assert (Hinj : forall c1 c2 : list A,
             length c1 = length d -> length c2 = length d ->
             combine (map fst d) c1 = combine (map fst d) c2 -> c1 = c2).
  { clear. induction d as [|kv d IH]; intros [|a c1] [|b c2] H1 H2 H; try discriminate;
      [reflexivity|].
    cbn [map combine] in H. injection H as -> H. f_equal.
    apply IH; simpl in *; congruence. }
  apply Finite.Injective_map_NoDup_in.
  - intros c1 c2 H1 H2 Heq.
    apply In_product, Forall2_length in H1. apply In_product, Forall2_length in H2.
    rewrite length_map in H1, H2. apply Hinj; congruence.
  - apply Hprod. apply Forall_map. exact Hall.
Qed.

End Combinations.

Lemma all_combinations_witness :
  exists combination_list,
    param_dict_combine [("tau"%string, Iterable [1; 2; 3]); ("age"%string, Single 7)]
    = Return combination_list
    /\ length combination_list
       = fold_right Nat.mul 1%nat
                    (map (fun kv => length (choices (snd kv)))
                         [("tau"%string, Iterable [1; 2; 3]); ("age"%string, Single 7)])
    /\ forall c : dict R,
        In c combination_list
        <-> Forall2 (fun kv kc => fst kc = fst kv /\ In (snd kc) (choices (snd kv)))
                    [("tau"%string, Iterable [1; 2; 3]); ("age"%string, Single 7)] c.
Proof.
  apply (all_combinations [("tau"%string, Iterable [1; 2; 3]); ("age"%string, Single 7)]).
  repeat constructor; simpl; intuition discriminate.
Defined.

Lemma combinations_distinct_witness :
  exists combination_list,
    param_dict_combine [("tau"%string, Iterable [1%Z; 2%Z]); ("age"%string, Single 7%Z)]
    = Return combination_list
    /\ NoDup combination_list.
Proof.
  apply (combinations_distinct
           [("tau"%string, Iterable [1%Z; 2%Z]); ("age"%string, Single 7%Z)]).
  - repeat constructor; simpl; intuition discriminate.
  - repeat constructor; simpl; intuition discriminate.
Defined.

End ParameterCombinations.

(** ** The periodic star formation history *)

Module Periodic.

Import SfhPeriodic.

Lemma Sigma_app {A : Type} (f : A -> R) (l l' : list A) :
  Spec.Sigma f (l ++ l') = Spec.Sigma f l + Spec.Sigma f l'.
Proof. induction l as [|a l IH]; simpl; [lra | rewrite IH; lra]. Qed.

Lemma Sigma_cons {A : Type} (f : A -> R) (a : A) (l : list A) :
  Spec.Sigma f (a :: l) = f a + Spec.Sigma f l.
Proof. reflexivity. Qed.

Lemma map_nth_seq (b : list R) :
  b = map (fun t => nth t b 0) (seq 0 (length b)).
Proof.
  induction b as [|x b IH]; [reflexivity|].
  cbn [length seq map nth]. f_equal.
  rewrite <- seq_shift, map_map. exact IH.
Qed.

Lemma nth_map_seq (f : nat -> R) (n t : nat) :
  (t < n)%nat -> nth t (map f (seq 0 n)) 0 = f t.
Proof.
  intros Ht. rewrite (nth_indep _ 0 (f 0%nat)) by (rewrite length_map, length_seq; lia).
  rewrite map_nth, seq_nth by lia. reflexivity.
Qed.

(** A burst moved [k] steps later, the first [k] steps emptied. *)
Lemma delayed (b : list R) (delta : Z) :
  (0 < delta)%Z ->
  assign_prefix (np_roll (np_copy b) delta) delta (Fin 0)
  = np_copy (repeat 0 (Nat.min (length b) (Z.to_nat delta))
               ++ firstn (length b - Z.to_nat delta) b).
Proof.
  intros Hd. unfold np_roll, np_copy. rewrite length_map.
  destruct (length b) as [|n'] eqn:En.
  - destruct b; [|discriminate]. unfold assign_prefix, slice_stop. cbn [map length].
    replace (delta <? 0)%Z with false by (symmetry; apply Z.ltb_ge; lia).
    cbn [Nat.min repeat app skipn]. now rewrite firstn_nil.
  - rewrite <- En in *. set (n := length b) in *.
    set (places := Z.to_nat (delta mod Z.of_nat n)).
    assert (Hn : (0 < n)%nat) by lia.
    assert (Hplaces : (places < n)%nat).
    { unfold places. pose proof (Z.mod_pos_bound delta (Z.of_nat n) ltac:(lia)). lia. }
    unfold assign_prefix.
    assert (Hlen : length (skipn (n - places) (map Fin b)
                             ++ firstn (n - places) (map Fin b)) = n).
    { rewrite length_app, length_skipn, length_firstn, length_map. fold n. lia. }
    rewrite Hlen. unfold slice_stop.
    replace (delta <? 0)%Z with false by (symmetry; apply Z.ltb_ge; lia).
    rewrite map_app, map_repeat. f_equal.
    destruct (Nat.le_gt_cases n (Z.to_nat delta)) as [Hbig | Hsmall].
    + rewrite Nat.min_l by lia.
      rewrite skipn_all2 by (rewrite Hlen; lia).
      replace (n - Z.to_nat delta)%nat with 0%nat by lia. reflexivity.
    + assert (Hp : places = Z.to_nat delta).
      { unfold places. rewrite Z.mod_small by lia. reflexivity. }
      rewrite Hp, Nat.min_r by lia.
      rewrite skipn_app, length_skipn, length_map. fold n.
      replace (Z.to_nat delta - (n - (n - Z.to_nat delta)))%nat with 0%nat by lia.
      rewrite skipn_all2 by (rewrite length_skipn, length_map; fold n; lia).
      cbn [skipn app]. now rewrite firstn_map.
Qed.

Lemma delayed_length (b : list R) (k : nat) :
  length (repeat 0 (Nat.min (length b) k) ++ firstn (length b - k) b) = length b.
Proof. rewrite length_app, repeat_length, length_firstn. lia. Qed.

Lemma delayed_nth (b : list R) (k t : nat) :
  (t < length b)%nat ->
  nth t (repeat 0 (Nat.min (length b) k) ++ firstn (length b - k) b) 0
  = if (t <? k)%nat then 0 else nth (t - k) b 0.
Proof.
  intros Ht. destruct (Nat.ltb_spec t k) as [Hlt | Hge].
  - rewrite app_nth1 by (rewrite repeat_length; lia).
    apply nth_repeat.
  - rewrite app_nth2 by (rewrite repeat_length; lia).
    rewrite repeat_length, Nat.min_r by lia.
    rewrite nth_firstn.
    replace (t - k <? length b - k)%nat with true by (symmetry; apply Nat.ltb_lt; lia).
    reflexivity.
Qed.

(** The history after [events] bursts, each [k] steps after the one
    before. *)
Lemma add_bursts_steps (delta : Z) (events : nat) (n : nat) (s : nat -> R)
      (b : list R) :
  (0 < delta)%Z -> length b = n ->
  add_bursts events delta (np_copy (map s (seq 0 n))) (np_copy b)
  = np_copy (map (fun t =>
                    s t + Spec.Sigma (fun j => if (t <? j * Z.to_nat delta)%nat then 0
                                               else nth (t - j * Z.to_nat delta) b 0)
                                     (seq 0 events))
                 (seq 0 n)).
Proof.
  intros Hd. revert s b. induction events as [|events IH]; intros s b Hb.
  - cbn [add_bursts seq Spec.Sigma fold_right]. f_equal.
    apply map_ext. intros t. lra.
  - cbn [add_bursts]. rewrite delayed by assumption.
    set (k := Z.to_nat delta) in *.
    assert (Hadd : arr_add (np_copy (map s (seq 0 n))) (np_copy b)
                   = np_copy (map (fun t => s t + nth t b 0) (seq 0 n))).
    { replace (np_copy b) with (np_copy (map (fun t => nth t b 0) (seq 0 n)))
        by (rewrite <- Hb, <- map_nth_seq; reflexivity).
      unfold arr_add, np_copy. generalize (seq 0 n). intros l.
      induction l as [|t l IHl]; [reflexivity|].
      cbn [map combine fst snd np_add]. f_equal. exact IHl. }
    rewrite Hadd, IH by (rewrite delayed_length; exact Hb).
    f_equal. apply map_ext_in. intros t Ht. apply in_seq in Ht.
    change (seq 0 (S events)) with (0%nat :: seq 1 events).
    rewrite Sigma_cons.
    replace (if (t <? 0 * k)%nat then 0 else nth (t - 0 * k) b 0) with (nth t b 0)
      by (rewrite Nat.mul_0_l, Nat.sub_0_r; reflexivity).
    rewrite Rplus_assoc. do 2 f_equal.
    rewrite <- (seq_shift events 0), Sigma_map. apply Sigma_ext. intros j _.
    destruct (Nat.lt_ge_cases t (j * k)) as [Hlt | Hge].
    + replace (t <? S j * k)%nat with true by (symmetry; apply Nat.ltb_lt; lia).
      replace (t <? j * k)%nat with true by (symmetry; apply Nat.ltb_lt; lia).
      reflexivity.
    + replace (t <? j * k)%nat with false by (symmetry; apply Nat.ltb_ge; lia).
      rewrite delayed_nth by lia.
      destruct (Nat.ltb_spec (t - j * k) k) as [Hlt' | Hge'].
      * replace (t <? S j * k)%nat with true by (symmetry; apply Nat.ltb_lt; lia).
        reflexivity.
      * replace (t <? S j * k)%nat with false by (symmetry; apply Nat.ltb_ge; lia).
        f_equal. lia.
Qed.

(** The bursts that reach the step [t] are those begun at or before it. *)
Lemma bursts_in_reach (b : list R) (k events t : nat) :
  (0 < k)%nat -> (t < events * k)%nat ->
  Spec.Sigma (fun j => if (t <? j * k)%nat then 0 else nth (t - j * k) b 0)
             (seq 0 events)
  = Spec.Sigma (fun j => nth (t - j * k) b 0) (seq 0 (t / k + 1)).
Proof.
  intros Hk Ht.
  pose proof (Nat.div_mod_eq t k) as Hdiv.
  pose proof (Nat.mod_upper_bound t k ltac:(lia)) as Hmod.
  assert (Hle : (t / k + 1 <= events)%nat).
  { assert (t / k < events)%nat
      by (apply Nat.Div0.div_lt_upper_bound; rewrite Nat.mul_comm; exact Ht).
    lia. }
  replace events with ((t / k + 1) + (events - (t / k + 1)))%nat at 1 by lia.
  rewrite seq_app, Sigma_app.
  assert (Hnear : Spec.Sigma (fun j => if (t <? j * k)%nat then 0
                                       else nth (t - j * k) b 0)
                             (seq 0 (t / k + 1))
                  = Spec.Sigma (fun j => nth (t - j * k) b 0) (seq 0 (t / k + 1))).
  { apply Sigma_ext. intros j Hj. apply in_seq in Hj.
    replace (t <? j * k)%nat with false; [reflexivity|].
    symmetry. apply Nat.ltb_ge.
    assert (k * j <= k * (t / k))%nat by (apply Nat.mul_le_mono_l; lia). lia. }
  assert (Hfar : Spec.Sigma (fun j => if (t <? j * k)%nat then 0
                                      else nth (t - j * k) b 0)
                            (seq (0 + (t / k + 1)) (events - (t / k + 1)))
                 = 0).
  { rewrite (Sigma_ext _ (fun _ => 0)); [apply Sigma_zero|].
    intros j Hj. apply in_seq in Hj.
    replace (t <? j * k)%nat with true; [reflexivity|].
    symmetry. apply Nat.ltb_lt.
    assert (k * (t / k + 1) <= k * j)%nat by (apply Nat.mul_le_mono_l; lia). lia. }
  rewrite Hnear, Hfar. lra.
Qed.

Lemma events_cover (age delta : Z) :
  (0 < delta)%Z ->
  (Z.to_nat age <= Z.to_nat (- ((0 - age) / delta)) * Z.to_nat delta)%nat.
Proof.
  intros Hd. destruct (Z.le_gt_cases age 0) as [Hneg | Hpos]; [lia|].
  pose proof (Z.div_mod (0 - age) delta ltac:(lia)) as Hdiv.
  pose proof (Z.mod_pos_bound (0 - age) delta Hd) as Hmod.
  assert (Hq : (0 <= - ((0 - age) / delta))%Z) by nia.
  apply Nat2Z.inj_le. rewrite Nat2Z.inj_mul, !Z2Nat.id by lia. nia.
Qed.

(** The history [_init_code] builds from a first burst of finite rates:
    at each step, the sum of the bursts begun by then, every
    [delta_bursts] steps. *)
Lemma init_code_steps (self : parameters) (b : list R) :
  (0 < delta_bursts self)%Z ->
  first_burst self = Return (np_copy b) ->
  length b = Z.to_nat (age self) ->
  let k := Z.to_nat (delta_bursts self) in
  let raw := map (fun t => Spec.Sigma (fun j => nth (t - j * k) b 0)
                                      (seq 0 (t / k + 1)))
                 (seq 0 (Z.to_nat (age self))) in
  init_code self
  = Return (if normalise self
            then (map (fun x => np_div x (Fin (Spec.Sigma (fun x => x) raw * 1e6)))
                      (np_copy raw), Fin 1)
            else (np_copy (map (fun x => x * sfr_A self) raw),
                  Fin (Spec.Sigma (fun x => x) raw * 1e6 * sfr_A self))).
Proof.
  intros Hd Hburst Hb k raw. unfold init_code.
  rewrite Hburst. cbn [bind]. unfold arange_length.
  replace (delta_bursts self =? 0)%Z with false by (symmetry; apply Z.eqb_neq; lia).
  cbn [bind].
  set (events := Z.to_nat (- ((0 - age self) / delta_bursts self))).
  assert (Hzero : map (fun _ : Z => Fin 0) (time_grid (age self))
                  = np_copy (map (fun _ => 0) (seq 0 (Z.to_nat (age self))))).
  { unfold time_grid, np_copy. now rewrite !map_map. }
  rewrite Hzero, add_bursts_steps by assumption.
  assert (Hraw : map (fun t => 0 + Spec.Sigma
                                    (fun j => if (t <? j * Z.to_nat (delta_bursts self))%nat
                                              then 0
                                              else nth (t - j * Z.to_nat (delta_bursts self))
                                                       b 0)
                                    (seq 0 events))
                     (seq 0 (Z.to_nat (age self)))
                 = raw).
  { unfold raw. apply map_ext_in. intros t Ht. apply in_seq in Ht.
    rewrite Rplus_0_l. apply bursts_in_reach; [lia|].
    pose proof (events_cover (age self) (delta_bursts self) Hd). fold events in H. lia. }
  rewrite Hraw, np_sum_copy. cbn [np_mul].
  destruct (normalise self); [reflexivity|].
  f_equal. f_equal. unfold np_copy. rewrite !map_map. reflexivity.
Qed.

(** X28.  Exponential bursts add up: with type_bursts = 0, an e-folding
    time other than 0 and delta_bursts above 0, without normalisation, the
    history has one rate per step of the age, and the rate at the step t is
    sfr_A times the sum, over the bursts begun by then (one every
    delta_bursts steps, from step 0), of exp(-(time since the burst began) /
    tau_bursts). *)
Theorem exponential_bursts (self : parameters) :
  type_bursts self = 0%Z ->
  tau_bursts self <> 0 ->
  (0 < delta_bursts self)%Z ->
  normalise self = false ->
  let k := Z.to_nat (delta_bursts self) in
  exists sfr sfr_integrated,
    init_code self = Return (np_copy sfr, sfr_integrated)
    /\ length sfr = Z.to_nat (age self)
    /\ forall t, (t < Z.to_nat (age self))%nat ->
                 nth_error sfr t
                 = Some (Spec.Sigma (fun j => exp (- INR (t - j * k) / tau_bursts self))
                                    (seq 0 (t / k + 1))
                         * sfr_A self).
Proof.
  intros Htype Htau Hd Hnorm k.
  set (b := map (fun t => exp (- INR t / tau_bursts self))
                (seq 0 (Z.to_nat (age self)))).
  assert (Hburst : first_burst self = Return (np_copy b)).
  { unfold first_burst. rewrite Htype. cbn [Z.eqb].
    unfold time_grid, b, np_copy. rewrite !map_map. apply f_equal. apply map_ext. intros t.
    rewrite np_div_Fin by assumption. cbn [np_exp]. do 2 f_equal.
    rewrite opp_IZR, <- INR_IZR_INZ. reflexivity. }
  assert (Hb : length b = Z.to_nat (age self))
    by (unfold b; now rewrite length_map, length_seq).
  pose proof (init_code_steps self b Hd Hburst Hb) as Hrun.
  cbv zeta in Hrun. rewrite Hnorm in Hrun. fold k in Hrun.
  eexists _, _. split; [exact Hrun|]. split.
  - now rewrite !length_map, length_seq.
  - intros t Ht. rewrite map_map, nth_error_map, nth_error_seq.
    replace (t <? Z.to_nat (age self))%nat with true by (symmetry; apply Nat.ltb_lt; lia).
    cbn [option_map Nat.add]. do 2 f_equal.
    apply Sigma_ext. intros j Hj. apply in_seq in Hj.
    unfold b. rewrite nth_map_seq by lia. reflexivity.
Qed.

Lemma exponential_bursts_witness :
  exists sfr sfr_integrated,
    init_code (Parameters 0 2 20 5 3 false) = Return (np_copy sfr, sfr_integrated)
    /\ length sfr = Z.to_nat 5
    /\ forall t, (t < Z.to_nat 5)%nat ->
                 nth_error sfr t
                 = Some (Spec.Sigma (fun j => exp (- INR (t - j * Z.to_nat 2) / 20))
                                    (seq 0 (t / Z.to_nat 2 + 1))
                         * 3).
Proof.
  apply (exponential_bursts (Parameters 0 2 20 5 3 false)).
  - reflexivity.
  - simpl. lra.
  - simpl. lia.
  - reflexivity.
Defined.


(** The first rectangle: [width + 1] steps at 1. *)
Lemma rectangle (n width : nat) :
  repeat (Fin 1) (Nat.min n (S width))
    ++ skipn (Nat.min n (S width)) (map (fun _ : Z => Fin 0) (map Z.of_nat (seq 0 n)))
  = np_copy (map (fun t => if (t <=? width)%nat then 1 else 0) (seq 0 n)).
Proof.
  apply (nth_ext _ _ (Fin 0) (Fin 0)).
  - unfold np_copy.
    rewrite length_app, repeat_length, length_skipn, !length_map, length_seq. lia.
  - intros t Ht.
    rewrite length_app, repeat_length, length_skipn, !length_map, length_seq in Ht.
    assert (Htn : (t < n)%nat) by lia.
    unfold np_copy. rewrite !map_map.
    assert (Hright : nth t (map (fun x => Fin (if (x <=? width)%nat then 1 else 0))
                                (seq 0 n)) (Fin 0)
                     = Fin (if (t <=? width)%nat then 1 else 0)).
    { rewrite (nth_indep _ (Fin 0)
                         ((fun x => Fin (if (x <=? width)%nat then 1 else 0)) 0%nat))
        by (rewrite length_map, length_seq; lia).
      rewrite (map_nth (fun x => Fin (if (x <=? width)%nat then 1 else 0))).
      now rewrite seq_nth by lia. }
    rewrite Hright.
    destruct (Nat.leb_spec t width) as [Hin | Hout].
    + rewrite app_nth1 by (rewrite repeat_length; lia).
      rewrite (nth_indep _ (Fin 0) (Fin 1)) by (rewrite repeat_length; lia).
      apply nth_repeat.
    + rewrite app_nth2 by (rewrite repeat_length; lia).
      rewrite repeat_length, nth_skipn.
      match goal with
      | |- nth ?i ?l ?v = _ =>
          destruct (nth_in_or_default i l v) as [Hnth | Hnth]; [|exact Hnth]
      end.
      apply in_map_iff in Hnth as (x & Hx & _). now rewrite <- Hx.
Qed.

(** X29.  Rectangular bursts that do not overlap: with type_bursts = 2,
    tau_bursts >= 0 and int(tau_bursts) + 1 <= delta_bursts, without
    normalisation, the rate at the step t is sfr_A during the first
    int(tau_bursts) + 1 steps of every period of delta_bursts steps and 0
    for the rest of the period. *)
Theorem rectangular_bursts (self : parameters) :
  type_bursts self = 2%Z ->
  0 <= tau_bursts self ->
  (Zfloor (tau_bursts self) + 1 <= delta_bursts self)%Z ->
  normalise self = false ->
  let k := Z.to_nat (delta_bursts self) in
  let width := Z.to_nat (Zfloor (tau_bursts self)) in
  exists sfr sfr_integrated,
    init_code self = Return (np_copy sfr, sfr_integrated)
    /\ length sfr = Z.to_nat (age self)
    /\ forall t, (t < Z.to_nat (age self))%nat ->
                 nth_error sfr t
                 = Some (if (t mod k <=? width)%nat then sfr_A self else 0).
Proof.
  intros Htype Htau Hwidth Hnorm k width.
  assert (Hfloor : (0 <= Zfloor (tau_bursts self))%Z) by (apply Zfloor_lub; simpl; lra).
  assert (Hd : (0 < delta_bursts self)%Z) by lia.
  set (n := Z.to_nat (age self)).
  set (b := map (fun t => if (t <=? width)%nat then 1 else 0) (seq 0 n)).
  assert (Hburst : first_burst self = Return (np_copy b)).
  { unfold first_burst. rewrite Htype. cbn [Z.eqb]. apply f_equal.
    unfold assign_prefix, slice_stop, int_of_float.
    assert (Hpos : Rltb (tau_bursts self) 0 = false) by (apply Rltb_false; lra).
    rewrite Hpos.
    replace (Zfloor (tau_bursts self) + 1 <? 0)%Z with false
      by (symmetry; apply Z.ltb_ge; lia).
    unfold time_grid. rewrite !length_map, length_seq. fold n.
    replace (Z.to_nat (Zfloor (tau_bursts self) + 1)) with (S width)
      by (unfold width; lia).
    unfold b. apply rectangle. }
  assert (Hb : length b = Z.to_nat (age self))
    by (unfold b; now rewrite length_map, length_seq).
  pose proof (init_code_steps self b Hd Hburst Hb) as Hrun.
  cbv zeta in Hrun. rewrite Hnorm in Hrun. fold k in Hrun. fold n in Hrun.
  eexists _, _. split; [exact Hrun|]. split.
  - now rewrite !length_map, length_seq.
  - intros t Ht. fold n in Ht. rewrite map_map, nth_error_map, nth_error_seq.
    replace (t <? n)%nat with true by (symmetry; apply Nat.ltb_lt; lia).
    cbn [option_map Nat.add]. f_equal.
    assert (Hk : (0 < k)%nat) by (unfold k; lia).
    assert (Hwk : (width < k)%nat) by (unfold width, k; lia).
    pose proof (Nat.div_mod_eq t k) as Hdiv.
    pose proof (Nat.mod_upper_bound t k ltac:(lia)) as Hmod.
    rewrite Nat.add_1_r, seq_S, Sigma_app, Sigma_cons. cbn [Nat.add].
    assert (Hearlier : Spec.Sigma (fun j => nth (t - j * k) b 0) (seq 0 (t / k)) = 0).
    { rewrite (Sigma_ext _ (fun _ => 0)); [apply Sigma_zero|].
      intros j Hj. apply in_seq in Hj. unfold b. rewrite nth_map_seq by lia.
      replace (t - j * k <=? width)%nat with false; [reflexivity|].
      symmetry. apply Nat.leb_gt.
      assert (k * (j + 1) <= k * (t / k))%nat by (apply Nat.mul_le_mono_l; lia).
      lia. }
    rewrite Hearlier.
    replace (t - t / k * k)%nat with (t mod k) by lia.
    unfold b. rewrite nth_map_seq by lia.
    destruct (t mod k <=? width)%nat; cbn [Spec.Sigma fold_right]; lra.
Qed.

Lemma rectangular_bursts_witness :
  exists sfr sfr_integrated,
    init_code (Parameters 2 3 1.5 7 4 false) = Return (np_copy sfr, sfr_integrated)
    /\ length sfr = Z.to_nat 7
    /\ forall t, (t < Z.to_nat 7)%nat ->
                 nth_error sfr t
                 = Some (if (t mod Z.to_nat 3 <=? Z.to_nat (Zfloor 1.5))%nat
                         then 4 else 0).
Proof.
  apply (rectangular_bursts (Parameters 2 3 1.5 7 4 false)).
  - reflexivity.
  - simpl. lra.
  - cbn [tau_bursts delta_bursts].
    assert (H : Zfloor 1.5 = 1%Z) by (apply Zfloor_eq; simpl; lra).
    rewrite H. lia.
  - reflexivity.
Defined.



End Periodic.
